(** * Affine bigram substitution: key recovery (affine_bs.py)

    A shallow embedding of [affine_bs.py] and the properties of its
    modular arithmetic, frequency table, key derivation, decryption and
    key search.

    Python values are modelled as follows.
    - [int] is [Z]; [//] and [%] on [int] are [Z.div] and [Z.modulo]
      (both floor towards minus infinity, remainder with the sign of the
      divisor, as in Python).
    - [float] is IEEE binary64, see [Float].
    - [str] is the list of its Unicode code points, see [str].
    - a raised exception is the [Raise] outcome of the [res] monad. *)

From Stdlib Require Import ZArith List Lia Bool Znumtheory FinFun Sorted.
From Stdlib Require Import Permutation.
From Stdlib Require SpecFloat.
Import ListNotations.
Local Open Scope Z_scope.

(** ** Exceptions and the result monad *)

(** The Python exceptions the program can raise, and two outcomes of the
    model itself: [NonFinite] (a float operation left the finite range;
    Python goes on with [inf] or [nan]) and [OutOfFuel] (a [while] loop was
    cut by the model's iteration bound). *)
Inductive exn : Type :=
| ZeroDivisionError
| OverflowError
| ValueError
| IndexError
| TypeError
| NonFinite
| OutOfFuel.

Inductive res (A : Type) : Type :=
| Ok (a : A)
| Raise (e : exn).
Arguments Ok {A} a.
Arguments Raise {A} e.

Definition bind {A B : Type} (c : res A) (k : A -> res B) : res B :=
  match c with
  | Ok a => k a
  | Raise e => Raise e
  end.

Declare Scope res_scope.
Delimit Scope res_scope with res.
Notation "x <- c ;; k" := (bind c (fun x => k))
  (at level 61, c at next level, right associativity) : res_scope.
Notation "' pat <- c ;; k" := (bind c (fun x => match x with pat => k end))
  (at level 61, pat pattern, c at next level, right associativity) : res_scope.
Local Open Scope res_scope.

(** [[f(x) for x in l]], left to right, stopping at the first exception. *)
Fixpoint mapM {A B : Type} (f : A -> res B) (l : list A) : res (list B) :=
  match l with
  | [] => Ok []
  | x :: l' => y <- f x ;; ys <- mapM f l' ;; Ok (y :: ys)
  end.

(** ** Python [float]: finite IEEE binary64 values

    A finite binary64 value is either an integer ([FInt z]) or a dyadic
    fraction [m / 2^k] with [m] odd and [k >= 1] ([FFrac m k]). Every
    operation is the exact operation followed by rounding to nearest, ties
    to even, with 53 bits of precision and least exponent [-1074]. The two
    zeros are identified: the program never divides by a float zero and
    never prints one, so the sign of a zero cannot be observed. A result of
    magnitude [2^1024] or more is an overflow, reported with the exception
    given by the caller. *)
Module Float.

Inductive t : Type :=
| FInt (z : Z)
| FFrac (m : Z) (k : positive).

Definition pow2 (e : Z) : Z := 2 ^ Z.max e 0.

(** Nearest-even rounding of the positive rational [p / q] to 53 bits:
    the result is [(m, e)], standing for [m * 2^e]. *)
Definition round_pos (p q : Z) : Z * Z :=
  let l := Z.log2 p - Z.log2 q in
  let fl := if q * pow2 l <=? p * pow2 (- l) then l else l - 1 in
  let e := Z.max (fl - 52) (-1074) in
  let n := p * pow2 (- e) in
  let d := q * pow2 e in
  let m := n / d in
  let r := n mod d in
  let m' := if 2 * r <? d then m
            else if d <? 2 * r then m + 1
            else if Z.even m then m else m + 1 in
  (m', e).

(** Cancel the factors of two shared by [m] and [2^k]. *)
Fixpoint reduce (m : positive) (k : nat) : positive * nat :=
  match k, m with
  | S k', xO m' => reduce m' k'
  | _, _ => (m, k)
  end.

Definition signed (neg : bool) (z : Z) : Z := if neg then - z else z.

(** The float [(-1)^neg * m * 2^e], [m >= 0] already rounded. *)
Definition of_mant_exp (ovf : exn) (neg : bool) (m e : Z) : res t :=
  if 0 <=? e then
    let v := m * 2 ^ e in
    if 2 ^ 1024 <=? v then Raise ovf else Ok (FInt (signed neg v))
  else
    match m with
    | Zpos pm =>
        let '(m', k') := reduce pm (Z.to_nat (- e)) in
        match k' with
        | O => Ok (FInt (signed neg (Zpos m')))
        | S _ => Ok (FFrac (signed neg (Zpos m')) (Pos.of_nat k'))
        end
    | _ => Ok (FInt 0)
    end.

(** Rounding of an integer. Integers below [2^53] in magnitude are
    binary64 values. *)
Definition round_int (ovf : exn) (z : Z) : res t :=
  if Z.log2 (Z.abs z) <=? 52 then Ok (FInt z)
  else let '(m, e) := round_pos (Z.abs z) 1 in
       of_mant_exp ovf (z <? 0) m e.

(** Rounding of the rational [p / q], [q <> 0]. *)
Definition round_rat (ovf : exn) (p q : Z) : res t :=
  if Z.rem p q =? 0 then round_int ovf (Z.quot p q)
  else let '(m, e) := round_pos (Z.abs p) (Z.abs q) in
       of_mant_exp ovf (xorb (p <? 0) (q <? 0)) m e.

Definition to_rat (x : t) : Z * Z :=
  match x with
  | FInt z => (z, 1)
  | FFrac m k => (m, 2 ^ Zpos k)
  end.

Definition is_zero (x : t) : bool :=
  match x with FInt 0 => true | _ => false end.

Definition is_neg (x : t) : bool :=
  match x with FInt z => z <? 0 | FFrac m _ => m <? 0 end.

Definition eqb_int (x : t) (z : Z) : bool :=
  match x with FInt a => a =? z | FFrac _ _ => false end.

Definition add (x y : t) : res t :=
  match x, y with
  | FInt a, FInt b => round_int NonFinite (a + b)
  | _, _ => let '(p1, q1) := to_rat x in
            let '(p2, q2) := to_rat y in
            round_rat NonFinite (p1 * q2 + p2 * q1) (q1 * q2)
  end.

Definition sub (x y : t) : res t :=
  match x, y with
  | FInt a, FInt b => round_int NonFinite (a - b)
  | _, _ => let '(p1, q1) := to_rat x in
            let '(p2, q2) := to_rat y in
            round_rat NonFinite (p1 * q2 - p2 * q1) (q1 * q2)
  end.

Definition mul (x y : t) : res t :=
  match x, y with
  | FInt a, FInt b => round_int NonFinite (a * b)
  | _, _ => let '(p1, q1) := to_rat x in
            let '(p2, q2) := to_rat y in
            round_rat NonFinite (p1 * p2) (q1 * q2)
  end.

(** [x / y] for [y] not zero. *)
Definition div (x y : t) : res t :=
  let '(p1, q1) := to_rat x in
  let '(p2, q2) := to_rat y in
  round_rat NonFinite (p1 * q2) (q1 * p2).

(** C's [fmod]: exact, with the sign of [x]; [y] not zero. *)
Definition fmod (x y : t) : res t :=
  match x, y with
  | FInt a, FInt b => Ok (FInt (Z.rem a b))
  | _, _ => let '(p1, q1) := to_rat x in
            let '(p2, q2) := to_rat y in
            round_rat NonFinite (Z.rem (p1 * q2) (p2 * q1)) (q1 * q2)
  end.

Definition floor (x : t) : t :=
  match x with
  | FInt z => FInt z
  | FFrac m k => FInt (m / 2 ^ Zpos k)
  end.

(** [x > 0.5]. *)
Definition gt_half (x : t) : bool :=
  let '(p, q) := to_rat x in q <? 2 * p.

(** [float_divmod] of CPython's floatobject.c, which [//] and [%] on
    floats share: [fmod], then the quotient of the difference, then the
    sign correction of the remainder and the snap of the quotient to an
    integral value. *)
Definition divmod (vx wx : t) : res (t * t) :=
  if is_zero wx then Raise ZeroDivisionError
  else
    md <- fmod vx wx ;;
    d0 <- sub vx md ;;
    dv <- div d0 wx ;;
    '(md, dv) <- (if is_zero md then Ok (FInt 0, dv)
                  else if xorb (is_neg wx) (is_neg md)
                       then md' <- add md wx ;;
                            dv' <- sub dv (FInt 1) ;;
                            Ok (md', dv')
                       else Ok (md, dv)) ;;
    fd <- (if is_zero dv then Ok (FInt 0)
           else let f := floor dv in
                fr <- sub dv f ;;
                if gt_half fr then add f (FInt 1) else Ok f) ;;
    Ok (fd, md).

Definition floordiv (x y : t) : res t := '(q, _) <- divmod x y ;; Ok q.
Definition modulo (x y : t) : res t := '(_, r) <- divmod x y ;; Ok r.

(** [float(z)] as Python applies it to an [int] operand of a mixed
    operation: [OverflowError] when [z] is too large. *)
Definition of_int (z : Z) : res t := round_int OverflowError z.

(** [a / b] on two [int]s: the correctly rounded quotient. *)
Definition int_truediv (a b : Z) : res t :=
  if b =? 0 then Raise ZeroDivisionError
  else round_rat OverflowError a b.

(** [int(x)]: truncation towards zero. *)
Definition to_int (x : t) : Z :=
  match x with
  | FInt z => z
  | FFrac m k => Z.quot m (2 ^ Zpos k)
  end.

End Float.

(** *** Comparison with the Standard Library's IEEE 754 specification

    [to_spec] is the value of the model as a [spec_float] of binary64
    (precision 53, [emax] 1024). *)
Definition to_spec (x : Float.t) : SpecFloat.spec_float :=
  match x with
  | Float.FInt z => SpecFloat.binary_normalize 53 1024 z 0 false
  | Float.FFrac m k => SpecFloat.binary_normalize 53 1024 m (- Zpos k) false
  end.

Definition res_spec (r : res Float.t) : option SpecFloat.spec_float :=
  match r with
  | Ok x => Some (to_spec x)
  | Raise _ => None
  end.

(** The binary64 value nearest to the integer [z]. *)
Definition b64 (z : Z) : SpecFloat.spec_float :=
  SpecFloat.binary_normalize 53 1024 z 0 false.

(** ** Numbers as [gcd] and [get_inverse] see them

    [gcd] and [get_inverse] are called on [int]s and, from the second
    branch of [solve_linear_comparison], on [float]s. [PyNumber] is the
    interface they use. [of_literal] is an [int] literal met by an operand
    of the number type: the only literals are [0] and [1], which every
    number type holds exactly, and an [int] [0] or [1] that reaches [%] or
    [-] with a float is converted to that float first. *)
Class PyNumber (N : Type) : Type := {
  of_literal : Z -> N;
  truthy : N -> bool;
  floordiv : N -> N -> res N;
  modulo : N -> N -> res N;
  mul : N -> N -> res N;
  sub : N -> N -> res N;
  eq_int : N -> Z -> bool;
  (** [log2] of the magnitude: it bounds the iterations of Euclid's loop. *)
  bits : N -> Z
}.

#[export] Instance int_number : PyNumber Z := {|
  of_literal z := z;
  truthy z := negb (z =? 0);
  floordiv a b := if b =? 0 then Raise ZeroDivisionError else Ok (a / b);
  modulo a b := if b =? 0 then Raise ZeroDivisionError else Ok (a mod b);
  mul a b := Ok (a * b);
  sub a b := Ok (a - b);
  eq_int a z := a =? z;
  bits z := Z.log2 (Z.abs z)
|}.

#[export] Instance float_number : PyNumber Float.t := {|
  of_literal z := Float.FInt z;
  truthy x := negb (Float.is_zero x);
  floordiv := Float.floordiv;
  modulo := Float.modulo;
  mul := Float.mul;
  sub := Float.sub;
  eq_int := Float.eqb_int;
  bits x := match x with
            | Float.FInt z => Z.log2 (Z.abs z)
            | Float.FFrac m k => Z.log2 (Z.abs m) + Zpos k
            end
|}.

(** ** Modular arithmetic *)

Section Arithmetic.
Context {N : Type} `{PyNumber N}.

(** The [while n:] loop of [gcd]. *)
Fixpoint gcd_loop (fuel : nat) (b n x0 x1 : N) : res (N * N) :=
  if truthy n then
    match fuel with
    | O => Raise OutOfFuel
    | S fuel' =>
        q <- floordiv b n ;;
        r <- modulo b n ;;
        t <- mul q x1 ;;
        x1' <- sub x0 t ;;
        gcd_loop fuel' n r x1 x1'
    end
  else Ok (b, x0).

Definition gcd_fuel (n : N) : nat := Z.to_nat (2 * bits n + 3).

Definition gcd (b n : N) : res (N * N) :=
  gcd_loop (gcd_fuel n) b n (of_literal 1) (of_literal 0).

Definition get_inverse (a b : N) : res (N * option N) :=
  '(d, x) <- gcd a b ;;
  if eq_int d 1 then r <- modulo x b ;; Ok (d, Some r)
  else Ok (d, None).

End Arithmetic.

(** [range(lo, hi)]. *)
Definition range (lo hi : Z) : list Z :=
  map (fun k => lo + Z.of_nat k) (seq 0 (Z.to_nat (hi - lo))).

(** Truth value of [a_inv]: [None] and [0] are false. *)
Definition inverse_truthy (a_inv : option Z) : bool :=
  match a_inv with
  | Some v => truthy v
  | None => false
  end.

(** [int(x0 + (i - 1) * m)] with [x0] and [m] floats and [i] an [int]. *)
Definition shifted_solution (x0 m : Float.t) (i : Z) : res Z :=
  k <- Float.of_int (i - 1) ;;
  s <- Float.mul k m ;;
  y <- Float.add x0 s ;;
  Ok (Float.to_int y).

Definition solve_linear_comparison (a b m : Z) : res (option (list Z)) :=
  '(d, a_inv) <- get_inverse a m ;;
  if inverse_truthy a_inv then
    match a_inv with
    | Some a_inv => x <- modulo (a_inv * b) m ;; Ok (Some [x])
    | None => Raise TypeError
    end
  else
    r <- modulo b d ;;
    if r =? 0 then
      a' <- Float.int_truediv a d ;;
      b' <- Float.int_truediv b d ;;
      m' <- Float.int_truediv m d ;;
      '(_, inv) <- get_inverse a' m' ;;
      match inv with
      | Some inv =>
          t <- Float.mul b' inv ;;
          x0 <- Float.modulo t m' ;;
          l <- mapM (shifted_solution x0 m') (range 1 (d + 1)) ;;
          Ok (Some l)
      | None => Raise TypeError
      end
    else Ok None.

(** ** Strings and the alphabet *)

(** A character is its Unicode code point, a [str] the list of its
    characters; [<] on [str] is lexicographic on code points. *)
Definition char : Type := Z.
Definition str : Type := list char.

Definition len (s : str) : Z := Z.of_nat (length s).

Fixpoint str_eqb (s t : str) : bool :=
  match s, t with
  | [], [] => true
  | a :: s', b :: t' => (a =? b) && str_eqb s' t'
  | _, _ => false
  end.

Fixpoint str_ltb (s t : str) : bool :=
  match s, t with
  | _, [] => false
  | [], _ :: _ => true
  | a :: s', b :: t' => (a <? b) || ((a =? b) && str_ltb s' t')
  end.

(** [s[i]], negative [i] counting from the end. *)
Definition str_get (s : str) (i : Z) : res char :=
  let j := if i <? 0 then i + len s else i in
  if (0 <=? j) && (j <? len s) then
    match nth_error s (Z.to_nat j) with
    | Some c => Ok c
    | None => Raise IndexError
    end
  else Raise IndexError.

Fixpoint index_from (c : char) (s : str) (i : Z) : res Z :=
  match s with
  | [] => Raise ValueError
  | x :: s' => if x =? c then Ok i else index_from c s' (i + 1)
  end.

(** [s.index(c)] for a one-character [c]. *)
Definition str_index (s : str) (c : char) : res Z := index_from c s 0.

(** ['абвгдежзийклмнопрстуфхцчшщьыэюя'] *)
Definition ALPHABET : str :=
  [1072; 1073; 1074; 1075; 1076; 1077; 1078; 1079; 1080; 1081; 1082;
   1083; 1084; 1085; 1086; 1087; 1088; 1089; 1090; 1091; 1092; 1093;
   1094; 1095; 1096; 1097; 1100; 1099; 1101; 1102; 1103].

(** [('ст', 'но', 'то', 'на', 'ен')] *)
Definition MOST_FREQUENTLY_BIGRAMS : list str :=
  [[1089; 1090]; [1085; 1086]; [1090; 1086]; [1085; 1072]; [1077; 1085]].

(** [ALPHABET.index(x[0]) * len(ALPHABET) + ALPHABET.index(x[1])] *)
Definition bigram_number (x : str) : res Z :=
  c0 <- str_get x 0 ;;
  i0 <- str_index ALPHABET c0 ;;
  c1 <- str_get x 1 ;;
  i1 <- str_index ALPHABET c1 ;;
  Ok (i0 * len ALPHABET + i1).

(** ** Key derivation *)

(** [[x for x in l if x is not None]] *)
Fixpoint not_none (l : list (option Z)) : list Z :=
  match l with
  | [] => []
  | Some x :: l' => x :: not_none l'
  | None :: l' => not_none l'
  end.

Definition get_key1 (x1 x2 y1 y2 : str) : res (option (list Z)) :=
  x1 <- bigram_number x1 ;;
  x2 <- bigram_number x2 ;;
  y1 <- bigram_number y1 ;;
  y2 <- bigram_number y2 ;;
  results <- solve_linear_comparison (y1 - y2) (x1 - x2) (len ALPHABET ^ 2) ;;
  match results with
  | Some results =>
      inverses <- mapM (fun i => '(_, x) <- get_inverse i (len ALPHABET ^ 2) ;;
                                 Ok x) results ;;
      Ok (Some (not_none inverses))
  | None => Ok None
  end.

Definition get_key2 (x1 y1 : str) (a : Z) : res Z :=
  x1 <- bigram_number x1 ;;
  y1 <- bigram_number y1 ;;
  modulo (y1 - a * x1) (len ALPHABET ^ 2).

(** ** Decryption *)

Definition key : Type := (Z * Z)%type.

(** The loop [for i in range(0, len(string), 2)] takes the text two
    characters at a time; [string[i + 1]] past the end of an odd-length
    text is the [IndexError]. *)
Fixpoint decrypt_from_affinity_sub (string : str) (k : key) : res str :=
  match string with
  | [] => Ok []
  | c0 :: rest =>
      i0 <- str_index ALPHABET c0 ;;
      match rest with
      | [] => Raise IndexError
      | c1 :: rest' =>
          i1 <- str_index ALPHABET c1 ;;
          let y := i0 * len ALPHABET + i1 in
          '(_, inv) <- get_inverse (fst k) (len ALPHABET ^ 2) ;;
          match inv with
          | Some inv =>
              x <- modulo (inv * (y - snd k)) (len ALPHABET ^ 2) ;;
              s0 <- str_get ALPHABET (x / len ALPHABET) ;;
              s1 <- str_get ALPHABET (x mod len ALPHABET) ;;
              new_str <- decrypt_from_affinity_sub rest' k ;;
              Ok (s0 :: s1 :: new_str)
          | None => Raise TypeError
          end
      end
  end.

(** ** Frequency tables *)

(** A [dict] with [int] values, in insertion order. *)
Definition dict (K : Type) : Type := list (K * Z).

Section Dict.
Context {K : Type} (eqb : K -> K -> bool).

(** [if k in d: d[k] += 1 else: d[k] = 1] *)
Fixpoint dict_incr (k : K) (d : dict K) : dict K :=
  match d with
  | [] => [(k, 1)]
  | (k', v) :: d' =>
      if eqb k k' then (k', v + 1) :: d' else (k', v) :: dict_incr k d'
  end.

End Dict.

(** [range(start, stop, step)]. *)
Definition range_step (start stop step : Z) : res (list Z) :=
  if step =? 0 then Raise ValueError
  else
    let n := if 0 <? step then (stop - start + step - 1) / step
             else (start - stop - step - 1) / (- step) in
    Ok (map (fun k => start + Z.of_nat k * step) (seq 0 (Z.to_nat n))).

(** One pass of the counting loop, at index [i]. *)
Definition count_bigram_at (string : str) (f_dict : dict str) (i : Z)
  : res (dict str) :=
  c0 <- str_get string i ;;
  c1 <- str_get string (i + 1) ;;
  Ok (dict_incr str_eqb [c0; c1] f_dict).

Fixpoint foldM {A B : Type} (f : B -> A -> res B) (l : list A) (acc : B)
  : res B :=
  match l with
  | [] => Ok acc
  | x :: l' => acc' <- f acc x ;; foldM f l' acc'
  end.

(** [(x[1], x[0]) < (y[1], y[0])], the order of the sort key. *)
Definition rank_ltb (x y : str * Z) : bool :=
  (snd x <? snd y) || ((snd x =? snd y) && str_ltb (fst x) (fst y)).

(** [sorted(..., reverse=True)] is a stable sort in descending order of the
    sort key: an item goes behind the items with a greater key and before
    those with an equal or smaller one that came after it. *)
Fixpoint insert_desc (x : str * Z) (l : list (str * Z)) : list (str * Z) :=
  match l with
  | [] => [x]
  | y :: l' => if rank_ltb x y then y :: insert_desc x l' else x :: l
  end.

Definition sorted_reverse (l : list (str * Z)) : list (str * Z) :=
  fold_right insert_desc [] l.

(** What [get_bigrams_frequency] returns: the [dict] itself, or the sorted
    list of its items. *)
Inductive frequency : Type :=
| Table (f_dict : dict str)
| Ranking (items : list (str * Z)).

Definition get_bigrams_frequency (string : str) (step : Z) (sort : bool)
  : res frequency :=
  indices <- range_step 0 (len string - 1) step ;;
  f_dict <- foldM (count_bigram_at string) indices [] ;;
  if negb sort then Ok (Table f_dict)
  else Ok (Ranking (sorted_reverse f_dict)).

(** [Counter(text)]: the count of every character, in order of first
    appearance. *)
Definition Counter (text : str) : dict char :=
  fold_left (fun d c => dict_incr Z.eqb c d) text [].

(** ** Key search *)

(** [l[:k]] *)
Definition slice_to {A : Type} (l : list A) (k : Z) : list A :=
  if k <? 0 then firstn (Z.to_nat (Z.of_nat (length l) + k)) l
  else firstn (Z.to_nat k) l.

(** [permutations(l, 2)]: the ordered pairs of items at distinct positions,
    in lexicographic order of the positions. *)
Definition permutations2 {A : Type} (l : list A) : list (A * A) :=
  flat_map (fun i =>
    flat_map (fun j =>
      if Nat.eqb i j then []
      else match nth_error l i, nth_error l j with
           | Some a, Some b => [(a, b)]
           | _, _ => []
           end)
      (seq 0 (length l)))
    (seq 0 (length l)).

(** The outcome of a search: the keys whose decryption was submitted to
    [check_text_correctness], in order, and the key and text that were saved
    and printed, if any. *)
Definition search : Type := (list key * option (key * str))%type.

Section Search.
(** The entropy test works on floating-point logarithms; the search uses
    only its verdict. *)
Variable check_text_correctness : dict char -> frequency -> Z -> bool.
(** The answer to the [n]-th [input('Save text (yes/no)? ')], after the
    given 40 characters were printed: is it ['yes']? *)
Variable input_is_yes : nat -> str -> bool.

Variable string : str.
Variable check_bw : bool.

(** [for solution in key_1], with [asked] prompts answered so far. *)
Fixpoint try_solutions (x y : str) (key_1 : list Z) (asked : nat)
  : res (search * nat) :=
  match key_1 with
  | [] => Ok (([], None), asked)
  | solution :: key_1' =>
      k2 <- get_key2 x y solution ;;
      let k := (solution, k2) in
      d_text <- decrypt_from_affinity_sub string k ;;
      f_big <- get_bigrams_frequency d_text 1 false ;;
      if check_text_correctness (Counter d_text) f_big (len d_text) then
        let answer := if check_bw then input_is_yes asked (firstn 40 d_text)
                      else true in
        let asked' := if check_bw then S asked else asked in
        if answer then Ok (([k], Some (k, d_text)), asked')
        else
          '((tested, found), n) <- try_solutions x y key_1' asked' ;;
          Ok ((k :: tested, found), n)
      else
        '((tested, found), n) <- try_solutions x y key_1' asked ;;
        Ok ((k :: tested, found), n)
  end.

(** [for j in range(len(f_list) - 1)]: the adjacent entries [f_list[j]],
    [f_list[j + 1]]. *)
Fixpoint try_adjacent (i : str * str) (f_list : list (str * Z)) (asked : nat)
  : res (search * nat) :=
  match f_list with
  | fj :: ((fj1 :: _) as f_list') =>
      key_1 <- get_key1 (fst i) (snd i) (fst fj) (fst fj1) ;;
      match key_1 with
      | None => try_adjacent i f_list' asked
      | Some key_1 =>
          '((tested, found), n) <- try_solutions (fst i) (fst fj) key_1 asked ;;
          match found with
          | Some _ => Ok ((tested, found), n)
          | None =>
              '((tested', found'), n') <- try_adjacent i f_list' n ;;
              Ok ((tested ++ tested', found'), n')
          end
      end
  | _ => Ok (([], None), asked)
  end.

(** [for i in permutations(MOST_FREQUENTLY_BIGRAMS, 2)] *)
Fixpoint try_permutations (perms : list (str * str)) (f_list : list (str * Z))
  (asked : nat) : res (search * nat) :=
  match perms with
  | [] => Ok (([], None), asked)
  | i :: perms' =>
      '((tested, found), n) <- try_adjacent i f_list asked ;;
      match found with
      | Some _ => Ok ((tested, found), n)
      | None =>
          '((tested', found'), n') <- try_permutations perms' f_list n ;;
          Ok ((tested ++ tested', found'), n')
      end
  end.

Definition gnc_keys (f_size : Z) : res search :=
  f <- get_bigrams_frequency string 1 true ;;
  match f with
  | Ranking items =>
      let f_list := slice_to items f_size in
      '(s, _) <- try_permutations (permutations2 MOST_FREQUENTLY_BIGRAMS)
                   f_list 0%nat ;;
      Ok s
  | Table _ => Raise TypeError
  end.

End Search.

(** ** Notions used by the statements *)

(** [i] is the inverse of [a] modulo [m], as [get_inverse] returns it. *)
Definition is_inverse (m a i : Z) : Prop := 0 <= i < m /\ (m | a * i - 1).

(** The list the second branch of [solve_linear_comparison] builds from the
    inverse [i] of [a / d] modulo [m / d]. *)
Definition reduced_solutions (b m d i : Z) : list Z :=
  map (fun k => (b / d * i) mod (m / d) + (k - 1) * (m / d)) (range 1 (d + 1)).

Definition in_alphabet (s : str) : Prop := Forall (fun c => In c ALPHABET) s.

Definition in_alphabetb (s : str) : bool :=
  forallb (fun c => existsb (Z.eqb c) ALPHABET) s.

Definition even_length (s : str) : Prop := Nat.Even (length s).

(** A well-formed ciphertext: symbols of the alphabet, in whole blocks. *)
Definition well_formed (s : str) : Prop := in_alphabet s /\ even_length s.

(** [k] is a digraph made of characters of [s]. *)
Definition digraph_of (s : str) (k : str) : Prop :=
  length k = 2%nat /\ Forall (fun c => In c s) k.

(** The exceptions of a failed lookup: [ALPHABET.index] and [string[i]]. *)
Definition lookup_error (e : exn) : Prop := e = ValueError \/ e = IndexError.

(** Modelled from the spec: the repository decrypts only, it has no
    encryption routine. The specification's affine cipher maps each block of
    two symbols to [X = index(first) * A + index(second)], computes
    [Y = (a * X + b) mod A^2] and expands [Y] into the two symbols
    [ALPHABET[Y // A]] and [ALPHABET[Y % A]]. *)
Definition number_to_bigram (n : Z) : res str :=
  s0 <- str_get ALPHABET (n / len ALPHABET) ;;
  s1 <- str_get ALPHABET (n mod len ALPHABET) ;;
  Ok [s0; s1].

Definition encrypt_bigram (x : str) (k : key) : res str :=
  X <- bigram_number x ;;
  number_to_bigram ((fst k * X + snd k) mod len ALPHABET ^ 2).

Fixpoint encrypt (text : str) (k : key) : res str :=
  match text with
  | [] => Ok []
  | [_] => Raise IndexError
  | c0 :: c1 :: rest =>
      y <- encrypt_bigram [c0; c1] k ;;
      ys <- encrypt rest k ;;
      Ok (y ++ ys)
  end.

(** Sum of the counts of a table. *)
Definition total {K : Type} (d : list (K * Z)) : Z :=
  fold_right (fun kv acc => snd kv + acc) 0 d.

Definition total_count (f : frequency) : Z :=
  match f with
  | Table f_dict => total f_dict
  | Ranking items => total items
  end.

(** The order of the ranked list that the code produces: [x] stands before
    [y] when its count is greater, or equal with a greater key. *)
Definition ranked_desc (x y : str * Z) : Prop :=
  snd y <= snd x /\ (snd y = snd x -> str_ltb (fst y) (fst x) = true).

(** The order as the specification words it: descending counts, ties by
    ascending key. *)
Definition ranked_ties_ascending (x y : str * Z) : Prop :=
  snd y <= snd x /\ (snd y = snd x -> str_ltb (fst x) (fst y) = true).

(** What a loop of the search can return on a text that is not well
    formed: nothing tested, nothing found. *)
Definition idle_or_well_formed (string : str) (asked : nat)
  (r : res (search * nat)) : Prop :=
  match r with
  | Ok ((tested, found), n) =>
      well_formed string \/ (tested = [] /\ found = None /\ n = asked)
  | Raise e => lookup_error e
  end.

(** [l[j], l[j + 1]] for every [j]. *)
Fixpoint adjacent_pairs {A : Type} (l : list A) : list (A * A) :=
  match l with
  | x :: ((y :: _) as l') => (x, y) :: adjacent_pairs l'
  | _ => []
  end.

(** The items of [l] up to and including the first that satisfies [p]. *)
Fixpoint through_first {A : Type} (p : A -> bool) (l : list A) : list A :=
  match l with
  | [] => []
  | x :: l' => if p x then [x] else x :: through_first p l'
  end.

(** *** First-match search as the specification describes it *)

Section Enumeration.
Variable check_text_correctness : dict char -> frequency -> Z -> bool.
Variable string : str.

(** The keys of one combination, in the order of the values of
    [get_key1]. *)
Definition keys_of (x y : str) (key_1 : list Z) : list key :=
  flat_map (fun a => match get_key2 x y a with
                     | Ok b => [(a, b)]
                     | Raise _ => []
                     end) key_1.

Definition candidates_of (i : str * str) (fj fj1 : str * Z) : list key :=
  match get_key1 (fst i) (snd i) (fst fj) (fst fj1) with
  | Ok (Some key_1) => keys_of (fst i) (fst fj) key_1
  | _ => []
  end.

(** The fixed enumeration of the specification: permutations of the
    reference digraphs outermost, adjacent entries of the frequency table
    next, values of [get_key1] innermost. *)
Definition enumeration (f_list : list (str * Z)) : list key :=
  flat_map (fun i =>
    flat_map (fun p => candidates_of i (fst p) (snd p))
      (adjacent_pairs f_list))
    (permutations2 MOST_FREQUENTLY_BIGRAMS).

(** The decryption under [k] passes the plausibility test. *)
Definition plausible (k : key) : bool :=
  match decrypt_from_affinity_sub string k with
  | Ok d_text =>
      match get_bigrams_frequency d_text 1 false with
      | Ok f_big =>
          check_text_correctness (Counter d_text) f_big (len d_text)
      | Raise _ => false
      end
  | Raise _ => false
  end.

Definition first_plausible (candidates : list key) : option (key * str) :=
  match find plausible candidates with
  | Some k =>
      match decrypt_from_affinity_sub string k with
      | Ok d_text => Some (k, d_text)
      | Raise _ => None
      end
  | None => None
  end.

(** First-match search over a list of candidates: the candidates tested,
    and the first plausible one with its decryption. *)
Definition first_match_search (candidates : list key) : search :=
  (through_first plausible candidates, first_plausible candidates).

End Enumeration.

(** ** Notions used by the further properties *)

(** The image of an integer outcome among the floats. *)
Definition float_image {A B : Type} (f : A -> B) (r : res A) : res B :=
  match r with
  | Ok a => Ok (f a)
  | Raise e => Raise e
  end.

(** [d.get(k, 0)]: the count of [k] in a table, [0] for a missing key. *)
Fixpoint dict_get (k : str) (d : dict str) : Z :=
  match d with
  | [] => 0
  | (k', v) :: d' => if str_eqb k k' then v else dict_get k d'
  end.

(** The digraphs [s[i] + s[i + 1]] of a text, for every position [i]. *)
Definition bigrams (s : str) : list str :=
  map (fun p => [fst p; snd p]) (adjacent_pairs s).

(** Number of positions of [l] that hold [k]. *)
Definition occurrences (k : str) (l : list str) : Z :=
  Z.of_nat (count_occ (list_eq_dec Z.eq_dec) l k).

(** A key of two residues modulo [A^2], the first invertible, under which
    [string] is decrypted without an exception. *)
Definition usable_key (string : str) (k : key) : Prop :=
  0 <= fst k < len ALPHABET ^ 2 /\ 0 <= snd k < len ALPHABET ^ 2
  /\ Z.gcd (fst k) (len ALPHABET ^ 2) = 1
  /\ exists d_text, decrypt_from_affinity_sub string k = Ok d_text.

(** What holds of every outcome of the search: the keys tested are usable,
    and a key that was saved is the last one tested, comes with its own
    decryption and passed the test. *)
Definition sound_search (check_text_correctness : dict char -> frequency -> Z -> bool)
  (string : str) (sr : search) : Prop :=
  Forall (usable_key string) (fst sr)
  /\ match snd sr with
     | Some (k, d_text) =>
         decrypt_from_affinity_sub string k = Ok d_text
         /\ plausible check_text_correctness string k = true
         /\ exists before, fst sr = before ++ [k]
     | None => True
     end.

(** Two runs of a loop of the search that differ at most in the number of
    prompts. *)
Definition same_search (r r' : res (search * nat)) : Prop :=
  match r, r' with
  | Ok (sr, _), Ok (sr', _) => sr = sr'
  | Raise e, Raise e' => e = e'
  | _, _ => False
  end.

(** * Properties *)

(** ** The float model and the Standard Library's binary64

    On these operands, the inexact ones among them, the operations of
    [Float] return what [SpecFloat] returns. *)

Example binary64_of_int :
  res_spec (Float.of_int (2 ^ 53 + 1)) = Some (b64 (2 ^ 53 + 1))
  /\ res_spec (Float.of_int (2 ^ 53 + 3)) = Some (b64 (2 ^ 53 + 3))
  /\ res_spec (Float.of_int (2 ^ 80 + 12345)) = Some (b64 (2 ^ 80 + 12345)).
Proof. vm_compute. repeat split. Qed.

Example binary64_truediv :
  res_spec (Float.int_truediv 1 10)
  = Some (SpecFloat.SFdiv 53 1024 (b64 1) (b64 10))
  /\ res_spec (Float.int_truediv 1 3)
     = Some (SpecFloat.SFdiv 53 1024 (b64 1) (b64 3))
  /\ res_spec (Float.int_truediv (- 7) 961)
     = Some (SpecFloat.SFdiv 53 1024 (b64 (- 7)) (b64 961))
  /\ res_spec (Float.int_truediv (2 ^ 54 + 2) 2) = Some (b64 (2 ^ 53 + 1)).
Proof. vm_compute. repeat split. Qed.

Example binary64_arithmetic :
  res_spec (x <- Float.int_truediv 1 10 ;; y <- Float.int_truediv 2 10 ;;
            Float.add x y)
  = Some (SpecFloat.SFadd 53 1024
            (SpecFloat.SFdiv 53 1024 (b64 1) (b64 10))
            (SpecFloat.SFdiv 53 1024 (b64 2) (b64 10)))
  /\ res_spec (x <- Float.int_truediv 1 3 ;; Float.mul x (Float.FInt 3))
     = Some (SpecFloat.SFmul 53 1024
               (SpecFloat.SFdiv 53 1024 (b64 1) (b64 3)) (b64 3))
  /\ res_spec (x <- Float.int_truediv 1 3 ;;
               Float.sub (Float.FInt (2 ^ 60)) x)
     = Some (SpecFloat.SFsub 53 1024 (b64 (2 ^ 60))
               (SpecFloat.SFdiv 53 1024 (b64 1) (b64 3))).
Proof. vm_compute. repeat split. Qed.

(** ** Euclid's loop on integers *)

Section GcdInt.
Variables a M : Z.

Lemma gcd_loop_int_spec (fuel : nat) :
  forall b n x0 x1 : Z,
    0 <= n < b ->
    b * n < 2 ^ Z.of_nat fuel ->
    (M | b - x0 * a) ->
    (M | n - x1 * a) ->
    exists x, gcd_loop fuel b n x0 x1 = Ok (Z.gcd b n, x)
              /\ (M | Z.gcd b n - x * a).
Proof.
  induction fuel as [|fuel IH]; intros b n x0 x1 Hn Hf Hb Hn'.
  - assert (n = 0) by (change (2 ^ Z.of_nat 0) with 1 in Hf; nia).
    subst n. cbn. exists x0. rewrite Z.gcd_0_r, Z.abs_eq by lia. auto.
  - destruct (Z.eq_dec n 0) as [->|Hnz].
    + cbn. exists x0. rewrite Z.gcd_0_r, Z.abs_eq by lia. auto.
    + cbn [gcd_loop truthy int_number floordiv modulo mul sub bind].
      apply Z.eqb_neq in Hnz as Hnz'. rewrite Hnz'. cbn [negb bind].
      apply Z.eqb_neq in Hnz'.
      pose proof (Z.mod_pos_bound b n ltac:(lia)) as Hr.
      pose proof (Z.div_mod b n Hnz) as Hdm.
      assert (Hq : 1 <= b / n) by (apply Z.div_le_lower_bound; lia).
      destruct (IH n (b mod n) x1 (x0 - b / n * x1)) as (x & Hx & Hdiv).
      * lia.
      * rewrite Nat2Z.inj_succ, Z.pow_succ_r in Hf by lia. nia.
      * assumption.
      * replace (b mod n - (x0 - b / n * x1) * a)
          with ((b - x0 * a) - (b / n) * (n - x1 * a)) by lia.
        apply Z.divide_sub_r; [assumption|]. now apply Z.divide_mul_r.
      * exists x. rewrite Hx.
        replace (Z.gcd b n) with (Z.gcd n (b mod n)); [auto|].
        rewrite (Z.gcd_comm n), Z.gcd_mod by lia. apply Z.gcd_comm.
Qed.
End GcdInt.

Lemma gcd_int_spec (a m : Z) :
  0 < m ->
  exists x, gcd a m = Ok (Z.gcd a m, x) /\ (m | Z.gcd a m - x * a).
Proof.
  intros Hm. unfold gcd, gcd_fuel.
  cbn [bits int_number of_literal].
  pose proof (Z.log2_nonneg (Z.abs m)) as Hl.
  replace (Z.to_nat (2 * Z.log2 (Z.abs m) + 3))
    with (S (Z.to_nat (2 * Z.log2 (Z.abs m) + 2))) by lia.
  cbn [gcd_loop truthy int_number floordiv modulo mul sub bind].
  assert (Hmz : (m =? 0) = false) by (apply Z.eqb_neq; lia).
  rewrite Hmz. cbn [negb bind].
  pose proof (Z.mod_pos_bound a m Hm) as Hr.
  destruct (gcd_loop_int_spec a m (Z.to_nat (2 * Z.log2 (Z.abs m) + 2))
              m (a mod m) 0 (1 - a / m * 0)) as (x & Hx & Hdiv).
  - lia.
  - rewrite Z2Nat.id by lia. rewrite Z.abs_eq by lia.
    pose proof (Z.log2_spec m Hm) as [_ Hu]. pose proof (Z.log2_nonneg m).
    replace (2 * Z.log2 m + 2) with (Z.succ (Z.log2 m) + Z.succ (Z.log2 m)) by lia.
    rewrite Z.pow_add_r by lia.
    set (P := 2 ^ Z.succ (Z.log2 m)) in *.
    apply Z.lt_le_trans with (m * m); [nia|]. apply Z.mul_le_mono_nonneg; lia.
  - exists 1. lia.
  - exists (- (a / m)). pose proof (Z.div_mod a m ltac:(lia)). lia.
  - exists x. rewrite Hx.
    replace (Z.gcd a m) with (Z.gcd m (a mod m)); [auto|].
    rewrite (Z.gcd_comm m), Z.gcd_mod by lia. apply Z.gcd_comm.
Qed.

(** With a negative modulus the run is the mirror image of the run on the
    opposite numbers, so the loop of [gcd] ends for all integers within the
    iterations the model grants it. *)
Lemma gcd_loop_opp (fuel : nat) :
  forall b n x0 x1 : Z,
    gcd_loop fuel (- b) (- n) x0 x1
    = match gcd_loop fuel b n x0 x1 with
      | Ok (d, x) => Ok (- d, x)
      | Raise e => Raise e
      end.
Proof.
  assert (Hz : forall n, (- n =? 0) = (n =? 0))
    by (intros n; destruct n; reflexivity).
  induction fuel as [|fuel IH]; intros b n x0 x1;
    cbn [gcd_loop truthy int_number floordiv modulo mul sub];
    rewrite Hz;
    destruct (Z.eqb_spec n 0) as [->|Hn]; cbn [negb bind]; try reflexivity.
  rewrite Z.div_opp_opp, Z.mod_opp_opp by assumption. apply IH.
Qed.

Lemma gcd_total (b n : Z) : exists d x, gcd b n = Ok (d, x).
Proof.
  destruct (Z.lt_trichotomy n 0) as [Hn|[->|Hn]].
  - destruct (gcd_int_spec (- b) (- n) ltac:(lia)) as (x & Hx & _).
    exists (- Z.gcd (- b) (- n)), x. revert Hx. unfold gcd, gcd_fuel.
    cbn [bits int_number of_literal]. rewrite Z.abs_opp. intros Hx.
    rewrite <- (Z.opp_involutive b) at 1. rewrite <- (Z.opp_involutive n) at 2.
    now rewrite gcd_loop_opp, Hx.
  - exists b, 1. reflexivity.
  - destruct (gcd_int_spec b n Hn) as (x & Hx & _). eauto.
Qed.

(** ** Modular inverses *)

Lemma get_inverse_coprime (a m : Z) :
  0 < m -> Z.gcd a m = 1 ->
  exists inv, get_inverse a m = Ok (1, Some inv) /\ is_inverse m a inv.
Proof.
  intros Hm Hg. destruct (gcd_int_spec a m Hm) as (x & Hx & Hdiv).
  unfold get_inverse. rewrite Hx, Hg in *. cbn.
  assert (Hmz : (m =? 0) = false) by (apply Z.eqb_neq; lia).
  rewrite Hmz. cbn. exists (x mod m). split; [reflexivity|]. split.
  - apply Z.mod_pos_bound; lia.
  - destruct Hdiv as [k Hk]. exists (- k - a * (x / m)).
    pose proof (Z.div_mod x m ltac:(lia)). nia.
Qed.

Lemma get_inverse_not_coprime (a m : Z) :
  0 < m -> Z.gcd a m <> 1 -> get_inverse a m = Ok (Z.gcd a m, None).
Proof.
  intros Hm Hg. destruct (gcd_int_spec a m Hm) as (x & Hx & _).
  unfold get_inverse. rewrite Hx. cbn.
  apply Z.eqb_neq in Hg. now rewrite Hg.
Qed.

Lemma is_inverse_coprime (m a i : Z) : is_inverse m a i -> Z.gcd a m = 1.
Proof.
  intros [_ [k Hk]]. apply Z.bezout_1_gcd. exists i, (- k). lia.
Qed.

Lemma is_inverse_coprime_inv (m a i : Z) : is_inverse m a i -> Z.gcd i m = 1.
Proof.
  intros [_ [k Hk]]. apply Z.bezout_1_gcd. exists a, (- k). lia.
Qed.

Lemma congruent_unique (m u v : Z) :
  0 <= u < m -> 0 <= v < m -> (m | u - v) -> u = v.
Proof.
  intros Hu Hv [k Hk]. assert (k = 0) by nia. lia.
Qed.

Lemma is_inverse_unique (m a i j : Z) :
  is_inverse m a i -> is_inverse m a j -> i = j.
Proof.
  intros Hi Hj. pose proof (is_inverse_coprime _ _ _ Hi) as Hg.
  destruct Hi as [Hi [k Hk]], Hj as [Hj [l Hl]].
  apply (congruent_unique m); try assumption.
  apply Z.gauss with a.
  - exists (k - l). lia.
  - now rewrite Z.gcd_comm.
Qed.

Lemma is_inverse_sym (m a i : Z) :
  0 <= a < m -> is_inverse m a i -> is_inverse m i a.
Proof.
  intros Ha [Hi Hd]. split; [assumption|]. now rewrite Z.mul_comm.
Qed.

Lemma get_inverse_is_inverse (m a i : Z) :
  0 < m -> is_inverse m a i -> get_inverse a m = Ok (1, Some i).
Proof.
  intros Hm Hi.
  destruct (get_inverse_coprime a m Hm (is_inverse_coprime _ _ _ Hi))
    as (j & Hj & Hinv).
  now rewrite Hj, (is_inverse_unique _ _ _ _ Hi Hinv).
Qed.

(** Float operations on small integers are exact. *)
Lemma round_int_small (e : exn) (z : Z) :
  Z.abs z < 2 ^ 53 -> Float.round_int e z = Ok (Float.FInt z).
Proof.
  intros Hz. unfold Float.round_int.
  destruct (Z.leb_spec (Z.log2 (Z.abs z)) 52) as [|Hl]; [reflexivity|].
  exfalso. destruct (Z.eq_dec (Z.abs z) 0) as [E|E].
  - rewrite E in Hl. cbn in Hl. lia.
  - apply Z.log2_lt_pow2 in Hz; lia.
Qed.

Lemma round_rat_exact (e : exn) (p q : Z) :
  q <> 0 -> (q | p) -> Z.abs (p / q) < 2 ^ 53 ->
  Float.round_rat e p q = Ok (Float.FInt (p / q)).
Proof.
  intros Hq Hd Hb. unfold Float.round_rat.
  assert (Hr : Z.rem p q = 0) by (now apply Z.rem_divide).
  rewrite Hr. cbn [Z.eqb].
  assert (Z.quot p q = p / q) as ->.
  { apply Z.quot_exact in Hr; [|assumption].
    destruct Hd as [k ->]. rewrite Z.div_mul by assumption.
    apply Z.mul_reg_l with q; [assumption|]. lia. }
  now apply round_int_small.
Qed.

Lemma int_truediv_exact (a d : Z) :
  d <> 0 -> (d | a) -> Z.abs (a / d) < 2 ^ 53 ->
  Float.int_truediv a d = Ok (Float.FInt (a / d)).
Proof.
  intros Hd Hdiv Hb. unfold Float.int_truediv.
  destruct (Z.eqb_spec d 0); [contradiction|]. now apply round_rat_exact.
Qed.

Lemma is_zero_FInt (z : Z) : Float.is_zero (Float.FInt z) = (z =? 0).
Proof. now destruct z. Qed.

Lemma divmod_exact (a b : Z) :
  b <> 0 -> Z.abs a < 2 ^ 53 -> Z.abs b < 2 ^ 53 ->
  Float.divmod (Float.FInt a) (Float.FInt b)
  = Ok (Float.FInt (a / b), Float.FInt (a mod b)).
Proof.
  intros Hb Ha Hbb. unfold Float.divmod.
  rewrite is_zero_FInt. destruct (Z.eqb_spec b 0); [contradiction|].
  cbn [Float.fmod bind Float.sub].
  pose proof (Z.quot_rem' a b) as Hqr.
  pose proof (Z.rem_bound_abs a b Hb) as Hrb.
  pose proof (Z.rem_sign_mul a b Hb) as Hrs.
  set (r := Z.rem a b) in *. set (q := Z.quot a b) in *.
  assert (Hq : Z.abs q <= Z.abs a) by nia.
  rewrite round_int_small by nia. cbn [bind].
  unfold Float.div. cbn [Float.to_rat].
  assert (Hdq : (a - r) * 1 / (1 * b) = q).
  { replace ((a - r) * 1) with (q * b) by lia.
    replace (1 * b) with b by lia. now apply Z.div_mul. }
  rewrite round_rat_exact; [| lia | exists q; lia | rewrite Hdq; lia ].
  rewrite Hdq. cbn [bind]. rewrite is_zero_FInt.
  destruct (Z.eqb_spec r 0) as [Hr0|Hr0].
  - cbn [bind]. rewrite is_zero_FInt.
    assert (a / b = q) as -> by (symmetry; apply Z.div_unique_exact; lia).
    assert (a mod b = 0) as ->.
    { apply Z.mod_divide; [assumption|]. exists q. lia. }
    destruct (Z.eqb_spec q 0) as [->|Hq0]; [reflexivity|].
    cbn [bind Float.floor Float.sub]. rewrite round_int_small by lia.
    cbn [bind]. replace (q - q) with 0 by lia. reflexivity.
  - cbn [Float.is_neg].
    destruct (xorb (b <? 0) (r <? 0)) eqn:Hx.
    + cbn [bind Float.add Float.sub].
      assert (Hsgn : (b < 0 /\ 0 < r) \/ (0 < b /\ r < 0)).
      { destruct (Z.ltb_spec b 0), (Z.ltb_spec r 0); cbn in Hx;
          try discriminate; lia. }
      rewrite round_int_small by lia. cbn [bind].
      assert (Hb2 : 2 <= Z.abs b) by lia.
      rewrite round_int_small by nia. cbn [bind].
      assert (a / b = q - 1) as ->.
      { symmetry. apply Z.div_unique with (r + b); lia. }
      assert (a mod b = r + b) as ->.
      { symmetry. apply Z.mod_unique with (q - 1); lia. }
      rewrite is_zero_FInt.
      destruct (Z.eqb_spec (q - 1) 0) as [->|Hq0]; [reflexivity|].
      cbn [bind Float.floor Float.sub]. rewrite round_int_small by lia.
      cbn [bind]. replace (q - 1 - (q - 1)) with 0 by lia. reflexivity.
    + cbn [bind].
      assert (Hsgn : (b < 0 /\ r < 0) \/ (0 < b /\ 0 < r)).
      { destruct (Z.ltb_spec b 0), (Z.ltb_spec r 0); cbn in Hx;
          try discriminate; lia. }
      assert (a / b = q) as ->.
      { symmetry. apply Z.div_unique with r; lia. }
      assert (a mod b = r) as ->.
      { symmetry. apply Z.mod_unique with q; lia. }
      rewrite is_zero_FInt.
      destruct (Z.eqb_spec q 0) as [->|Hq0]; [reflexivity|].
      cbn [bind Float.floor Float.sub]. rewrite round_int_small by lia.
      cbn [bind]. replace (q - q) with 0 by lia. reflexivity.
Qed.

(** ** Euclid's loop on floats *)

Lemma in_range (lo hi i : Z) : In i (range lo hi) <-> lo <= i < hi.
Proof.
  unfold range. rewrite in_map_iff. split.
  - intros (k & <- & Hk). apply in_seq in Hk. lia.
  - intros Hi. exists (Z.to_nat (i - lo)). split; [lia|].
    apply in_seq. lia.
Qed.

Lemma length_range (lo hi : Z) : length (range lo hi) = Z.to_nat (hi - lo).
Proof. unfold range. now rewrite length_map, length_seq. Qed.

Lemma mapM_ok {A B : Type} (f : A -> res B) (g : A -> B) (l : list A) :
  (forall x, In x l -> f x = Ok (g x)) -> mapM f l = Ok (map g l).
Proof.
  induction l as [|x l IH]; intros Hf; [reflexivity|].
  cbn. rewrite Hf by now left. cbn. rewrite IH; [reflexivity|].
  intros y Hy. apply Hf. now right.
Qed.

Lemma float_floordiv_exact (a b : Z) :
  b <> 0 -> Z.abs a < 2 ^ 53 -> Z.abs b < 2 ^ 53 ->
  Float.floordiv (Float.FInt a) (Float.FInt b) = Ok (Float.FInt (a / b)).
Proof.
  intros. unfold Float.floordiv. now rewrite divmod_exact.
Qed.

Lemma float_modulo_exact (a b : Z) :
  b <> 0 -> Z.abs a < 2 ^ 53 -> Z.abs b < 2 ^ 53 ->
  Float.modulo (Float.FInt a) (Float.FInt b) = Ok (Float.FInt (a mod b)).
Proof.
  intros. unfold Float.modulo. now rewrite divmod_exact.
Qed.

Section GcdFloat.
Variable M : Z.
Hypothesis HM : M < 2 ^ 53.

(** On integers below [2^53] the float run of Euclid's loop is the
    integer run: the coefficients never exceed the modulus. *)
Lemma gcd_loop_float (fuel : nat) :
  forall b n x0 x1 d x : Z,
    0 <= n < b -> b < 2 ^ 53 ->
    Z.abs x0 * n + Z.abs x1 * b <= M -> Z.abs x0 <= M ->
    gcd_loop fuel b n x0 x1 = Ok (d, x) ->
    gcd_loop fuel (Float.FInt b) (Float.FInt n) (Float.FInt x0) (Float.FInt x1)
    = Ok (Float.FInt d, Float.FInt x) /\ Z.abs x <= M.
Proof.
  induction fuel as [|fuel IH]; intros b n x0 x1 d x Hn Hb Hinv Hx0.
  - cbn [gcd_loop truthy int_number float_number]. rewrite is_zero_FInt.
    destruct (Z.eqb_spec n 0); cbn [negb]; [|discriminate].
    intros [= <- <-]. auto.
  - cbn [gcd_loop truthy int_number float_number].
    rewrite is_zero_FInt.
    destruct (Z.eqb_spec n 0) as [->|Hnz]; cbn [negb].
    + intros [= <- <-]. auto.
    + cbn [floordiv modulo mul sub int_number float_number].
      destruct (Z.eqb_spec n 0) as [|_]; [contradiction|]. cbn [bind].
      pose proof (Z.mod_pos_bound b n ltac:(lia)) as Hr.
      pose proof (Z.div_mod b n Hnz) as Hdm.
      assert (Hq : 1 <= b / n) by (apply Z.div_le_lower_bound; lia).
      rewrite float_floordiv_exact, float_modulo_exact by lia.
      cbn [bind Float.mul Float.sub].
      assert (Hqx : Z.abs (b / n * x1) <= Z.abs x1 * b).
      { rewrite Z.abs_mul, (Z.abs_eq (b / n)) by lia. nia. }
      assert (Hsub : Z.abs (x0 - b / n * x1) * n
                     <= Z.abs x0 * n + Z.abs x1 * (b - b mod n)).
      { assert (Z.abs (x0 - b / n * x1) <= Z.abs x0 + (b / n) * Z.abs x1)
          by (rewrite <- (Z.abs_eq (b / n)) at 2 by lia;
              rewrite <- Z.abs_mul; lia).
        nia. }
      rewrite round_int_small by nia. cbn [bind].
      rewrite round_int_small by nia. cbn [bind].
      intros Hloop.
      assert (Hx1 : Z.abs x1 * 1 <= Z.abs x1 * b)
        by (apply Z.mul_le_mono_nonneg_l; lia).
      eapply IH; try eassumption; lia.
Qed.
End GcdFloat.

Lemma option_gcd_float (a m d x : Z) :
  0 < m < 2 ^ 53 -> Z.abs a < 2 ^ 53 ->
  gcd a m = Ok (d, x) ->
  gcd (Float.FInt a) (Float.FInt m) = Ok (Float.FInt d, Float.FInt x)
  /\ Z.abs x <= m.
Proof.
  intros Hm Ha. unfold gcd, gcd_fuel.
  cbn [bits int_number float_number of_literal].
  pose proof (Z.log2_nonneg (Z.abs m)) as Hl.
  replace (Z.to_nat (2 * Z.log2 (Z.abs m) + 3))
    with (S (Z.to_nat (2 * Z.log2 (Z.abs m) + 2))) by lia.
  cbn [gcd_loop truthy int_number float_number floordiv modulo mul sub].
  rewrite is_zero_FInt.
  destruct (Z.eqb_spec m 0) as [|_]; [lia|]. cbn [negb bind].
  rewrite float_floordiv_exact by lia. cbn [bind].
  rewrite float_modulo_exact by lia.
  cbn [bind Float.mul Float.sub].
  rewrite (round_int_small _ (a / m * 0)) by (rewrite Z.mul_0_r; cbn; lia).
  cbn [bind].
  rewrite (round_int_small _ (1 - a / m * 0)) by (rewrite Z.mul_0_r; cbn; lia).
  cbn [bind].
  pose proof (Z.mod_pos_bound a m ltac:(lia)).
  apply (gcd_loop_float m); lia.
Qed.

Lemma get_inverse_float (a m d : Z) (inv : option Z) :
  0 < m < 2 ^ 53 -> Z.abs a < 2 ^ 53 ->
  get_inverse a m = Ok (d, inv) ->
  get_inverse (Float.FInt a) (Float.FInt m)
  = Ok (Float.FInt d, option_map Float.FInt inv).
Proof.
  intros Hm Ha. unfold get_inverse.
  destruct (gcd a m) as [[d' x]|e] eqn:Hg; cbn [bind]; [|discriminate].
  destruct (option_gcd_float a m d' x Hm Ha Hg) as [-> Hx]. cbn [bind].
  cbn [eq_int int_number float_number Float.eqb_int modulo].
  destruct (d' =? 1).
  - destruct (Z.eqb_spec m 0) as [|_]; [lia|]. cbn [bind].
    rewrite float_modulo_exact by lia. cbn [bind]. now intros [= <- <-].
  - now intros [= <- <-].
Qed.

(** ** The branches of [solve_linear_comparison] *)

Lemma gcd_pos (a m : Z) : 0 < m -> 0 < Z.gcd a m.
Proof.
  intros Hm. pose proof (Z.gcd_nonneg a m).
  destruct (Z.eq_dec (Z.gcd a m) 0) as [E|]; [|lia].
  apply Z.gcd_eq_0_r in E. lia.
Qed.

Lemma is_inverse_nonzero (m a i : Z) : 1 < m -> is_inverse m a i -> i <> 0.
Proof.
  intros Hm [_ [k Hk]] ->. assert (m * k = -1) by lia.
  assert (k = 0 \/ k <= -1 \/ 1 <= k) as [?|[?|?]] by lia; nia.
Qed.

Lemma solve_fast (a b m i : Z) :
  1 < m -> is_inverse m a i ->
  solve_linear_comparison a b m = Ok (Some [(i * b) mod m]).
Proof.
  intros Hm Hi. unfold solve_linear_comparison.
  rewrite (get_inverse_is_inverse m a i) by (assumption || lia).
  cbn [bind inverse_truthy truthy int_number modulo].
  pose proof (is_inverse_nonzero _ _ _ Hm Hi).
  destruct (Z.eqb_spec i 0) as [|_]; [contradiction|]. cbn [negb].
  destruct (Z.eqb_spec m 0) as [|_]; [lia|]. reflexivity.
Qed.

Lemma solve_none (a b m : Z) :
  0 < m -> ~ (Z.gcd a m | b) ->
  solve_linear_comparison a b m = Ok None.
Proof.
  intros Hm Hnd. unfold solve_linear_comparison.
  pose proof (gcd_pos a m Hm) as Hd.
  rewrite get_inverse_not_coprime; [|assumption|].
  - cbn [bind inverse_truthy modulo int_number].
    destruct (Z.eqb_spec (Z.gcd a m) 0) as [|_]; [lia|]. cbn [bind].
    destruct (Z.eqb_spec (b mod Z.gcd a m) 0) as [E|]; [|reflexivity].
    exfalso. apply Hnd. apply Z.mod_divide; [lia|assumption].
  - intros E. apply Hnd. rewrite E. apply Z.divide_1_l.
Qed.

Lemma shifted_solution_exact (x0 m' i : Z) :
  0 <= x0 < m' -> 1 <= i -> i * m' <= 2 ^ 53 ->
  shifted_solution (Float.FInt x0) (Float.FInt m') i
  = Ok (x0 + (i - 1) * m').
Proof.
  intros Hx Hi Hb. unfold shifted_solution, Float.of_int.
  rewrite round_int_small by nia. cbn [bind Float.mul].
  rewrite round_int_small by nia. cbn [bind Float.add].
  rewrite round_int_small by nia. reflexivity.
Qed.

Lemma solve_slow (a b m : Z) :
  0 < m <= 2 ^ 53 -> Z.abs a < 2 ^ 53 ->
  Z.gcd a m <> 1 \/ m = 1 ->
  (Z.gcd a m | b) ->
  Z.abs (b / Z.gcd a m) * (m / Z.gcd a m) < 2 ^ 53 ->
  exists i, is_inverse (m / Z.gcd a m) (a / Z.gcd a m) i
    /\ solve_linear_comparison a b m
       = Ok (Some (reduced_solutions b m (Z.gcd a m) i)).
Proof.
  intros Hm Ha Hslow Hdb Hprod.
  pose proof (gcd_pos a m (proj1 Hm)) as Hd.
  pose proof (Z.gcd_divide_l a m) as [a' Ha'].
  pose proof (Z.gcd_divide_r a m) as [m' Hm'].
  pose proof (Z.gcd_div_gcd a m (Z.gcd a m) ltac:(lia) eq_refl) as Hcop.
  set (d := Z.gcd a m) in *.
  assert (Ead : a / d = a') by (rewrite Ha'; apply Z.div_mul; lia).
  assert (Emd : m / d = m') by (rewrite Hm'; apply Z.div_mul; lia).
  rewrite Ead, Emd in *.
  assert (Hm'pos : 0 < m') by nia.
  assert (Hm'd : m' <= m) by nia.
  assert (Ha'b : Z.abs a' <= Z.abs a) by nia.
  destruct (get_inverse_coprime a' m' Hm'pos Hcop) as (i & Hgi & Hi).
  exists i. split; [assumption|].
  unfold solve_linear_comparison.
  assert (Hfirst : exists a_inv, get_inverse a m = Ok (d, a_inv)
                                 /\ inverse_truthy a_inv = false).
  { destruct (Z.eq_dec d 1) as [E|E].
    - destruct Hslow as [Hs|Hs]; [contradiction|]. subst m.
      destruct (get_inverse_coprime a 1 ltac:(lia) E) as (j & Hj & [Hr _]).
      exists (Some j). rewrite Hj, E. split; [reflexivity|].
      assert (j = 0) as -> by lia. reflexivity.
    - exists None. split; [|reflexivity].
      now apply get_inverse_not_coprime. }
  destruct Hfirst as (a_inv & -> & Htr). cbn [bind]. rewrite Htr.
  cbn [modulo int_number].
  destruct (Z.eqb_spec d 0) as [|_]; [lia|]. cbn [bind].
  assert (b mod d = 0) as -> by (apply Z.mod_divide; [lia|assumption]).
  cbn [Z.eqb].
  destruct Hdb as [b' Hb'].
  assert (Ebd : b / d = b') by (rewrite Hb'; apply Z.div_mul; lia).
  rewrite Ebd in *.
  rewrite !int_truediv_exact;
    try lia; try (now apply Z.gcd_divide_l); try (now apply Z.gcd_divide_r);
    try (exists b'; lia).
  cbn [bind]. rewrite Ead, Ebd, Emd.
  rewrite (get_inverse_float a' m' 1 (Some i)) by (assumption || lia).
  cbn [bind option_map Float.mul].
  destruct Hi as [Hir Hid].
  rewrite round_int_small by (rewrite Z.abs_mul, (Z.abs_eq i) by lia; nia).
  cbn [bind]. rewrite float_modulo_exact;
    [| lia | rewrite Z.abs_mul, (Z.abs_eq i) by lia; nia | lia ].
  cbn [bind].
  pose proof (Z.mod_pos_bound (b' * i) m' Hm'pos) as Hx0.
  rewrite (mapM_ok _ (fun k => (b' * i) mod m' + (k - 1) * m')).
  - cbn [bind]. unfold reduced_solutions. now rewrite Ebd, Emd.
  - intros k Hk. apply in_range in Hk.
    apply shifted_solution_exact; [assumption|lia|nia].
Qed.

Lemma reduced_solutions_spec (a b m i : Z) :
  0 < m -> (Z.gcd a m | b) ->
  is_inverse (m / Z.gcd a m) (a / Z.gcd a m) i ->
  forall t, In t (reduced_solutions b m (Z.gcd a m) i)
            <-> 0 <= t < m /\ (m | a * t - b).
Proof.
  intros Hm [b' Hb'] Hi t.
  pose proof (gcd_pos a m Hm) as Hd.
  pose proof (Z.gcd_divide_l a m) as [a' Ha'].
  pose proof (Z.gcd_divide_r a m) as [m' Hm'].
  unfold reduced_solutions. set (d := Z.gcd a m) in *.
  assert (Ead : a / d = a') by (rewrite Ha'; apply Z.div_mul; lia).
  assert (Emd : m / d = m') by (rewrite Hm'; apply Z.div_mul; lia).
  assert (Ebd : b / d = b') by (rewrite Hb'; apply Z.div_mul; lia).
  rewrite Ead, Emd, Ebd in *.
  assert (Hm'pos : 0 < m') by nia.
  destruct Hi as [Hir [u Hu]].
  pose proof (Z.mod_pos_bound (b' * i) m' Hm'pos) as Hx0.
  pose proof (Z.div_mod (b' * i) m' ltac:(lia)) as Hdm.
  set (x0 := (b' * i) mod m') in *. set (w := (b' * i) / m') in *.
  rewrite in_map_iff. split.
  - intros (k & <- & Hk). apply in_range in Hk. split; [nia|].
    exists (a' * (k - 1) + b' * u - a' * w).
    assert (E1 : a' * x0 = a' * (b' * i) - a' * (m' * w)) by (rewrite Hdm; ring).
    assert (E2 : b' * (a' * i - 1) = b' * (u * m')) by (rewrite Hu; ring).
    rewrite Ha', Hb', Hm'.
    transitivity (d * (a' * x0 + a' * (k - 1) * m' - b')); [ring|].
    transitivity (d * (a' * (k - 1) * m' + b' * (u * m') - a' * (m' * w)));
      [|ring].
    f_equal. lia.
  - intros [Ht [v Hv]].
    assert (Hred : a' * t - b' = v * m').
    { apply Z.mul_reg_l with d; [lia|]. rewrite Ha', Hb', Hm' in Hv. lia. }
    assert (Hcong : (m' | t - x0)).
    { exists (i * v - u * t + w).
      assert (E1 : i * (a' * t - b') = i * (v * m')) by (rewrite Hred; ring).
      assert (E2 : t * (a' * i - 1) = t * (u * m')) by (rewrite Hu; ring).
      transitivity (i * (v * m') - t * (u * m') + m' * w); [lia|ring]. }
    destruct Hcong as [c Hc].
    assert (0 <= c < d) by nia.
    exists (c + 1). split; [lia|]. apply in_range. lia.
Qed.

Lemma range_from_one (m : Z) :
  map (fun k => 0 + (k - 1) * 1) (range 1 (m + 1)) = range 0 m.
Proof.
  unfold range. rewrite map_map.
  replace (m + 1 - 1) with (m - 0) by lia.
  apply map_ext. intros k. lia.
Qed.

Lemma NoDup_range (lo hi : Z) : NoDup (range lo hi).
Proof.
  unfold range. apply Injective_map_NoDup; [|apply seq_NoDup].
  intros x y. lia.
Qed.

Lemma reduced_solutions_NoDup (b m d i : Z) :
  0 < m / d -> NoDup (reduced_solutions b m d i).
Proof.
  intros Hm. unfold reduced_solutions.
  apply Injective_map_NoDup; [|apply NoDup_range].
  intros x y. nia.
Qed.

Lemma length_reduced_solutions (b m d i : Z) :
  0 <= d -> Z.of_nat (length (reduced_solutions b m d i)) = d.
Proof.
  intros Hd. unfold reduced_solutions. rewrite length_map, length_range. lia.
Qed.

(** ** The solver on operands that floats hold exactly *)

Lemma reduced_solutions_coprime (b m i : Z) :
  reduced_solutions b m 1 i = [(i * b) mod m].
Proof.
  unfold reduced_solutions. change (range 1 (1 + 1)) with [1].
  cbn [map]. rewrite !Z.div_1_r. f_equal.
  replace (b * i + (1 - 1) * m) with (i * b) by ring.
  replace (b * i) with (i * b) by ring. lia.
Qed.

Lemma solve_linear_comparison_exact (a b m : Z) :
  0 < m < 2 ^ 26 -> Z.abs a < 2 ^ 53 -> Z.abs b < 2 ^ 26 ->
  (~ (Z.gcd a m | b) /\ solve_linear_comparison a b m = Ok None)
  \/ ((Z.gcd a m | b)
      /\ exists l, solve_linear_comparison a b m = Ok (Some l)
           /\ Z.of_nat (length l) = Z.gcd a m
           /\ NoDup l
           /\ forall t, In t l <-> 0 <= t < m /\ (m | a * t - b)).
Proof.
  intros Hm Ha Hb.
  pose proof (gcd_pos a m (proj1 Hm)) as Hd.
  destruct (Z.eq_dec (b mod Z.gcd a m) 0) as [Hdiv|Hndiv].
  2:{ left. assert (~ (Z.gcd a m | b))
        by (intros D; apply Hndiv; apply Z.mod_divide; [lia|assumption]).
      split; [assumption|]. now apply solve_none. }
  apply Z.mod_divide in Hdiv; [|lia].
  right. split; [assumption|].
  assert (Hm53 : 2 ^ 26 < 2 ^ 53) by (apply Z.pow_lt_mono_r; lia).
  destruct (Z.gcd_divide_r a m) as [m' Hm'].
  assert (Emd : m / Z.gcd a m = m') by (rewrite Hm' at 1; apply Z.div_mul; lia).
  assert (Hmd : 0 < m / Z.gcd a m) by (rewrite Emd; nia).
  destruct (Z.eq_dec (Z.gcd a m) 1) as [E|E];
    [destruct (Z.eq_dec m 1) as [E1|E1]|].
  - (* m = 1 *)
    destruct (solve_slow a b m) as (i & Hi & Hs); try lia; try assumption.
    { subst m. rewrite E, !Z.div_1_r. lia. }
    eexists. split; [exact Hs|]. split; [|split].
    + apply length_reduced_solutions. lia.
    + now apply reduced_solutions_NoDup.
    + now apply reduced_solutions_spec.
  - destruct (get_inverse_coprime a m (proj1 Hm) E) as (i & _ & Hi).
    exists [(i * b) mod m]. split; [apply solve_fast; [lia|assumption]|].
    rewrite <- reduced_solutions_coprime. rewrite <- E at 1 2.
    split; [|split].
    + apply length_reduced_solutions. lia.
    + now apply reduced_solutions_NoDup.
    + rewrite <- E. apply reduced_solutions_spec; try lia; try assumption.
      now rewrite E, !Z.div_1_r.
  - destruct (solve_slow a b m) as (i & Hi & Hs); try lia; try assumption.
    { destruct Hdiv as [b' Hb'].
      assert (Ebd : b / Z.gcd a m = b') by (rewrite Hb'; apply Z.div_mul; lia).
      rewrite Ebd, Emd.
      assert (Z.abs b' <= Z.abs b) by nia.
      assert (0 < m' <= m) by nia.
      assert (Z.abs b' * m' < 2 ^ 26 * 2 ^ 26) by nia.
      change (2 ^ 26 * 2 ^ 26) with (2 ^ 52) in *.
      assert (2 ^ 52 < 2 ^ 53) by (apply Z.pow_lt_mono_r; lia). lia. }
    eexists. split; [exact Hs|]. split; [|split].
    + apply length_reduced_solutions. lia.
    + now apply reduced_solutions_NoDup.
    + now apply reduced_solutions_spec.
Qed.

(** ** The alphabet, decryption and encryption *)

(** The boolean test of membership decides [in_alphabet]. *)
Lemma in_alphabetb_spec (s : str) : in_alphabetb s = true -> in_alphabet s.
Proof.
  unfold in_alphabetb, in_alphabet. rewrite forallb_forall, Forall_forall.
  intros H c Hc. apply H in Hc. apply existsb_exists in Hc.
  destruct Hc as (x & Hx & E). apply Z.eqb_eq in E. now subst.
Qed.

Lemma len_ALPHABET : len ALPHABET = 31.
Proof. reflexivity. Qed.

Lemma alphabet_index_get (c : char) :
  In c ALPHABET ->
  exists i, str_index ALPHABET c = Ok i /\ 0 <= i < 31
            /\ str_get ALPHABET i = Ok c.
Proof.
  intros H. unfold ALPHABET in H. cbn [In] in H.
  repeat (destruct H as [<-|H];
          [eexists; split; [reflexivity|split; [lia|reflexivity]]|]).
  contradiction.
Qed.

Lemma alphabet_get_index (i : Z) :
  0 <= i < 31 ->
  exists c, str_get ALPHABET i = Ok c /\ In c ALPHABET
            /\ str_index ALPHABET c = Ok i.
Proof.
  intros Hi. assert (H : In i (range 0 31)) by (apply in_range; lia).
  vm_compute in H.
  repeat (destruct H as [<-|H];
          [eexists; split; [reflexivity|split; [|reflexivity]];
           unfold ALPHABET; cbn [In]; tauto|]).
  contradiction.
Qed.

Lemma str_index_in (c : char) (i : Z) :
  str_index ALPHABET c = Ok i -> In c ALPHABET.
Proof.
  unfold str_index. generalize 0. induction ALPHABET as [|x s IH]; intros n.
  - discriminate.
  - cbn [index_from]. destruct (Z.eqb_spec x c) as [->|].
    + intros _. now left.
    + intros H. right. eapply IH, H.
Qed.

Lemma str_index_not_in (c : char) :
  ~ In c ALPHABET -> str_index ALPHABET c = Raise ValueError.
Proof.
  unfold str_index. generalize 0. induction ALPHABET as [|x s IH]; intros n Hn.
  - reflexivity.
  - cbn [index_from]. destruct (Z.eqb_spec x c) as [->|].
    + exfalso. apply Hn. now left.
    + apply IH. intros H. apply Hn. now right.
Qed.

Lemma in_alphabet_dec (c : char) : {In c ALPHABET} + {~ In c ALPHABET}.
Proof. apply in_dec, Z.eq_dec. Qed.

Lemma list_ind2 {A : Type} (P : list A -> Prop) :
  P [] -> (forall c, P [c]) ->
  (forall c0 c1 rest, P rest -> P (c0 :: c1 :: rest)) ->
  forall l, P l.
Proof.
  intros H0 H1 H2.
  assert (H : forall l, P l /\ forall c, P (c :: l)).
  { induction l as [|c1 l [IH IH']]; [auto|]. split; [apply IH'|].
    intros c0. now apply H2. }
  intros l. apply H.
Qed.

Lemma pair_induction (P : str -> Prop) :
  P [] ->
  (forall c0 c1 rest, P rest -> P (c0 :: c1 :: rest)) ->
  forall s, even_length s -> P s.
Proof.
  intros H0 H2.
  assert (H : forall s, (even_length s -> P s)
                        /\ (forall c, even_length (c :: s) -> P (c :: s))).
  { induction s as [|c1 s [IHe IHo]].
    - split; [auto|]. intros c [k Hk]. cbn in Hk. lia.
    - split; [apply IHo|]. intros c [k Hk]. apply H2, IHe.
      exists (k - 1)%nat. cbn in Hk. lia. }
  intros s. apply H.
Qed.

(** Modulus of the cipher. *)
Lemma modulus_value : len ALPHABET ^ 2 = 961.
Proof. reflexivity. Qed.

Lemma bigram_split (i0 i1 : Z) :
  0 <= i0 < 31 -> 0 <= i1 < 31 ->
  (i0 * 31 + i1) / 31 = i0 /\ (i0 * 31 + i1) mod 31 = i1
  /\ 0 <= i0 * 31 + i1 < 961.
Proof.
  intros H0 H1. repeat split; try lia.
  - symmetry. apply Z.div_unique with i1; lia.
  - symmetry. apply Z.mod_unique with i0; lia.
Qed.

Lemma number_split (n : Z) :
  0 <= n < 961 -> 0 <= n / 31 < 31 /\ 0 <= n mod 31 < 31
                  /\ n / 31 * 31 + n mod 31 = n.
Proof.
  intros Hn. pose proof (Z.div_mod n 31 ltac:(lia)).
  pose proof (Z.mod_pos_bound n 31 ltac:(lia)).
  assert (0 <= n / 31) by (apply Z.div_pos; lia).
  assert (n / 31 < 31) by (apply Z.div_lt_upper_bound; lia). lia.
Qed.

(** One pass of the decryption loop on a block of alphabet symbols. *)
Lemma decrypt_block (c0 c1 : char) (rest : str) (k : key) (i0 i1 inv : Z) :
  str_index ALPHABET c0 = Ok i0 -> str_index ALPHABET c1 = Ok i1 ->
  is_inverse 961 (fst k) inv ->
  decrypt_from_affinity_sub (c0 :: c1 :: rest) k
  = (s0 <- str_get ALPHABET ((inv * (i0 * 31 + i1 - snd k)) mod 961 / 31) ;;
     s1 <- str_get ALPHABET ((inv * (i0 * 31 + i1 - snd k)) mod 961 mod 31) ;;
     new_str <- decrypt_from_affinity_sub rest k ;;
     Ok (s0 :: s1 :: new_str)).
Proof.
  intros H0 H1 Hi. cbn [decrypt_from_affinity_sub].
  rewrite H0. cbn [bind]. rewrite H1. cbn [bind].
  rewrite modulus_value, len_ALPHABET.
  rewrite (get_inverse_is_inverse 961 (fst k) inv) by (assumption || lia).
  reflexivity.
Qed.


Lemma encrypt_block (c0 c1 : char) (k : key) (i0 i1 : Z) :
  str_index ALPHABET c0 = Ok i0 -> str_index ALPHABET c1 = Ok i1 ->
  encrypt_bigram [c0; c1] k
  = number_to_bigram ((fst k * (i0 * 31 + i1) + snd k) mod 961).
Proof.
  intros H0 H1. unfold encrypt_bigram, bigram_number.
  change (str_get [c0; c1] 0) with (@Ok char c0).
  change (str_get [c0; c1] 1) with (@Ok char c1).
  cbn [bind]. rewrite H0. cbn [bind]. rewrite H1. cbn [bind].
  now rewrite modulus_value, len_ALPHABET.
Qed.

Lemma number_to_bigram_spec (n : Z) :
  0 <= n < 961 ->
  exists s0 s1, number_to_bigram n = Ok [s0; s1]
    /\ str_index ALPHABET s0 = Ok (n / 31)
    /\ str_index ALPHABET s1 = Ok (n mod 31)
    /\ In s0 ALPHABET /\ In s1 ALPHABET.
Proof.
  intros Hn. destruct (number_split n Hn) as (Hq & Hr & _).
  destruct (alphabet_get_index _ Hq) as (s0 & H0 & Hs0 & Hi0).
  destruct (alphabet_get_index _ Hr) as (s1 & H1 & Hs1 & Hi1).
  exists s0, s1. unfold number_to_bigram. rewrite len_ALPHABET, H0.
  cbn [bind]. rewrite H1. auto.
Qed.

(** Decrypting the image of a block number gives the number back. *)
Lemma affine_inverse (a b inv X : Z) :
  is_inverse 961 a inv -> 0 <= X < 961 ->
  (inv * ((a * X + b) mod 961 - b)) mod 961 = X.
Proof.
  intros [_ [u Hu]] HX.
  pose proof (Z.div_mod (a * X + b) 961 ltac:(lia)) as Hdm.
  symmetry. apply Z.mod_unique with (u * X - inv * ((a * X + b) / 961));
    [lia|].
  assert (E : X * (a * inv - 1) = X * (u * 961)) by (rewrite Hu; ring).
  replace ((a * X + b) mod 961 - b)
    with (a * X - 961 * ((a * X + b) / 961)) by lia.
  lia.
Qed.

(** ** Key derivation *)

Lemma get_inverse_total (a m : Z) :
  0 < m -> exists d x, get_inverse a m = Ok (d, x).
Proof.
  intros Hm. destruct (Z.eq_dec (Z.gcd a m) 1) as [E|E].
  - destruct (get_inverse_coprime a m Hm E) as (i & -> & _). eauto.
  - rewrite (get_inverse_not_coprime a m Hm E). eauto.
Qed.

Lemma get_inverse_some (a m d x : Z) :
  0 < m -> get_inverse a m = Ok (d, Some x) -> is_inverse m a x.
Proof.
  intros Hm H. destruct (Z.eq_dec (Z.gcd a m) 1) as [E|E].
  - destruct (get_inverse_coprime a m Hm E) as (i & Hi & Hinv).
    rewrite Hi in H. now injection H as _ <-.
  - rewrite (get_inverse_not_coprime a m Hm E) in H. discriminate.
Qed.


Lemma mapM_in {A B : Type} (f : A -> res B) (l : list A) (ys : list B) :
  mapM f l = Ok ys ->
  forall y, In y ys -> exists x, In x l /\ f x = Ok y.
Proof.
  revert ys. induction l as [|x l IH]; intros ys.
  - intros [= <-] y [].
  - cbn [mapM]. destruct (f x) as [y0|] eqn:Hx; cbn [bind]; [|discriminate].
    destruct (mapM f l) as [ys0|]; cbn [bind]; [|discriminate].
    intros [= <-] y [<-|Hy].
    + exists x. split; [now left|assumption].
    + destruct (IH ys0 eq_refl y Hy) as (x' & Hin & Hf).
      exists x'. split; [now right|assumption].
Qed.

Lemma mapM_in_ok {A B : Type} (f : A -> res B) (l : list A) (ys : list B) :
  mapM f l = Ok ys ->
  forall x y, In x l -> f x = Ok y -> In y ys.
Proof.
  revert ys. induction l as [|x0 l IH]; intros ys.
  - intros _ x y [].
  - cbn [mapM]. destruct (f x0) as [y0|] eqn:Hx; cbn [bind]; [|discriminate].
    destruct (mapM f l) as [ys0|]; cbn [bind]; [|discriminate].
    intros [= <-] x y [->|Hin] Hf.
    + left. congruence.
    + right. eapply IH; eauto.
Qed.

Lemma mapM_total {A B : Type} (f : A -> res B) (l : list A) :
  (forall x, In x l -> exists y, f x = Ok y) -> exists ys, mapM f l = Ok ys.
Proof.
  induction l as [|x l IH]; intros Hf; [now exists []|].
  destruct (Hf x (or_introl eq_refl)) as (y & Hy).
  destruct IH as (ys & Hys); [intros; apply Hf; now right|].
  exists (y :: ys). cbn [mapM]. now rewrite Hy, Hys.
Qed.

Lemma in_not_none (l : list (option Z)) (x : Z) :
  In x (not_none l) <-> In (Some x) l.
Proof.
  induction l as [|[y|] l IH]; cbn [not_none In].
  - tauto.
  - rewrite IH. split; intros [H|H]; auto; left; congruence.
  - rewrite IH. split; [auto|]. intros [H|H]; [discriminate|assumption].
Qed.

(** Every value returned by [get_key1] has an inverse modulo [A^2]. *)
Lemma get_key1_invertible (x1 x2 y1 y2 : str) (l : list Z) (a : Z) :
  get_key1 x1 x2 y1 y2 = Ok (Some l) -> In a l ->
  Z.gcd a (len ALPHABET ^ 2) = 1.
Proof.
  unfold get_key1.
  destruct (bigram_number x1); cbn [bind]; [|discriminate].
  destruct (bigram_number x2); cbn [bind]; [|discriminate].
  destruct (bigram_number y1); cbn [bind]; [|discriminate].
  destruct (bigram_number y2); cbn [bind]; [|discriminate].
  destruct (solve_linear_comparison _ _ _) as [[results|]|]; cbn [bind];
    try discriminate.
  destruct (mapM _ results) as [inverses|] eqn:Hm; cbn [bind];
    [|discriminate].
  intros [= <-] Hin. apply in_not_none in Hin.
  destruct (mapM_in _ _ _ Hm _ Hin) as (i & _ & Hi).
  destruct (get_inverse i (len ALPHABET ^ 2)) as [[d x]|] eqn:Hg;
    cbn [bind] in Hi; [|discriminate].
  injection Hi as ->.
  apply get_inverse_some in Hg; [|reflexivity].
  eapply is_inverse_coprime_inv, Hg.
Qed.

Lemma bigram_number_pair (c0 c1 : char) (i0 i1 : Z) :
  str_index ALPHABET c0 = Ok i0 -> str_index ALPHABET c1 = Ok i1 ->
  bigram_number [c0; c1] = Ok (i0 * 31 + i1).
Proof.
  intros H0 H1. unfold bigram_number.
  change (str_get [c0; c1] 0) with (@Ok char c0).
  change (str_get [c0; c1] 1) with (@Ok char c1).
  cbn [bind]. rewrite H0. cbn [bind]. now rewrite H1.
Qed.

(** A digraph over the alphabet has a number below [A^2]. *)
Lemma bigram_number_in_alphabet (x : str) :
  length x = 2%nat -> in_alphabet x ->
  exists X, bigram_number x = Ok X /\ 0 <= X < 961.
Proof.
  intros Hl Hal. destruct x as [|c0 [|c1 [|? ?]]]; try discriminate.
  inversion Hal as [|? ? Hc0 Hal1]; subst.
  inversion Hal1 as [|? ? Hc1 _]; subst.
  destruct (alphabet_index_get c0 Hc0) as (i0 & Hi0 & Hr0 & _).
  destruct (alphabet_index_get c1 Hc1) as (i1 & Hi1 & Hr1 & _).
  exists (i0 * 31 + i1). split; [now apply bigram_number_pair|].
  now apply bigram_split.
Qed.

Lemma encrypt_digraph (x : str) (k : key) (X : Z) :
  length x = 2%nat -> bigram_number x = Ok X -> 0 <= X < 961 ->
  exists y, encrypt x k = Ok y /\ length y = 2%nat /\ in_alphabet y
    /\ bigram_number y = Ok ((fst k * X + snd k) mod 961).
Proof.
  intros Hl HX Hr. destruct x as [|c0 [|c1 [|? ?]]]; try discriminate.
  cbn [encrypt]. unfold encrypt_bigram. rewrite HX. cbn [bind].
  rewrite modulus_value.
  pose proof (Z.mod_pos_bound (fst k * X + snd k) 961 ltac:(lia)) as HY.
  destruct (number_to_bigram_spec _ HY) as (s0 & s1 & -> & Hs0 & Hs1 & ? & ?).
  cbn [bind app]. exists [s0; s1]. split; [reflexivity|].
  split; [reflexivity|]. split; [repeat (constructor; try assumption)|].
  rewrite (bigram_number_pair _ _ _ _ Hs0 Hs1). f_equal.
  now destruct (number_split _ HY) as (_ & _ & ->).
Qed.

Lemma solve_961 (a b : Z) :
  Z.abs a < 961 -> Z.abs b < 961 ->
  (~ (Z.gcd a 961 | b) /\ solve_linear_comparison a b 961 = Ok None)
  \/ ((Z.gcd a 961 | b)
      /\ exists l, solve_linear_comparison a b 961 = Ok (Some l)
           /\ forall t, In t l <-> 0 <= t < 961 /\ (961 | a * t - b)).
Proof.
  intros Ha Hb.
  assert (H26 : 961 < 2 ^ 26) by reflexivity.
  assert (H53 : 961 < 2 ^ 53) by reflexivity.
  destruct (solve_linear_comparison_exact a b 961) as [H|(Hd & l & Hs & _ & _ & Hl)];
    try lia; [now left|].
  right. split; [assumption|]. now exists l.
Qed.

Lemma get_key1_finds_a (a b : Z) (x1 x2 y1 y2 : str) :
  0 <= a < len ALPHABET ^ 2 -> Z.gcd a (len ALPHABET ^ 2) = 1 ->
  length x1 = 2%nat -> in_alphabet x1 ->
  length x2 = 2%nat -> in_alphabet x2 ->
  encrypt x1 (a, b) = Ok y1 -> encrypt x2 (a, b) = Ok y2 ->
  exists l, get_key1 x1 x2 y1 y2 = Ok (Some l) /\ In a l.
Proof.
  rewrite modulus_value. intros Ha Hg Hl1 Hal1 Hl2 Hal2 He1 He2.
  destruct (bigram_number_in_alphabet x1 Hl1 Hal1) as (X1 & HX1 & Hr1).
  destruct (bigram_number_in_alphabet x2 Hl2 Hal2) as (X2 & HX2 & Hr2).
  destruct (encrypt_digraph x1 (a, b) X1 Hl1 HX1 Hr1) as (y1' & E1 & _ & _ & HY1).
  destruct (encrypt_digraph x2 (a, b) X2 Hl2 HX2 Hr2) as (y2' & E2 & _ & _ & HY2).
  rewrite He1 in E1. rewrite He2 in E2.
  injection E1 as <-. injection E2 as <-. cbn [fst snd] in HY1, HY2.
  pose proof (Z.mod_pos_bound (a * X1 + b) 961 ltac:(lia)) as HB1.
  pose proof (Z.mod_pos_bound (a * X2 + b) 961 ltac:(lia)) as HB2.
  pose proof (Z.div_mod (a * X1 + b) 961 ltac:(lia)) as HD1.
  pose proof (Z.div_mod (a * X2 + b) 961 ltac:(lia)) as HD2.
  set (Y1 := (a * X1 + b) mod 961) in *.
  set (Y2 := (a * X2 + b) mod 961) in *.
  destruct (get_inverse_coprime a 961 ltac:(lia) Hg) as (t & _ & Ht).
  (* t, the inverse of a, solves the congruence *)
  assert (Hsol : (961 | (Y1 - Y2) * t - (X1 - X2))).
  { destruct Ht as [_ [u Hu]].
    exists ((X1 - X2) * u
            - t * ((a * X1 + b) / 961 - (a * X2 + b) / 961)).
    assert (E : (X1 - X2) * (a * t - 1) = (X1 - X2) * (u * 961))
      by (rewrite Hu; ring).
    replace (Y1 - Y2)
      with (a * (X1 - X2)
            - 961 * ((a * X1 + b) / 961 - (a * X2 + b) / 961)) by lia.
    lia. }
  unfold get_key1. rewrite HX1, HX2, HY1, HY2. cbn [bind].
  rewrite modulus_value.
  destruct (solve_961 (Y1 - Y2) (X1 - X2)) as [[Hnd _]|(_ & l & -> & Hl)];
    try lia.
  { exfalso. apply Hnd. destruct Hsol as [v Hv].
    destruct (Z.gcd_divide_l (Y1 - Y2) 961) as [p Hp].
    destruct (Z.gcd_divide_r (Y1 - Y2) 961) as [q Hq].
    exists (p * t - v * q).
    transitivity ((Y1 - Y2) * t - v * 961); [lia|].
    rewrite Hp at 1. rewrite Hq at 2. ring. }
  cbn [bind].
  destruct (mapM_total (fun i => '(_, x) <- get_inverse i 961 ;; Ok x) l)
    as (inverses & Hinv).
  { intros i _. destruct (get_inverse_total i 961 ltac:(lia)) as (d & x & ->).
    now exists x. }
  rewrite Hinv. cbn [bind]. eexists. split; [reflexivity|].
  apply in_not_none. eapply mapM_in_ok; [exact Hinv| |].
  - apply Hl. split; [apply Ht|exact Hsol].
  - cbv beta. rewrite (get_inverse_is_inverse 961 t a); [reflexivity|lia|].
    apply is_inverse_sym; [lia|assumption].
Qed.

(** Encryption depends on the key only through its residue. *)
Lemma encrypt_key_mod (x : str) (a b : Z) :
  encrypt x (a mod 961, b) = encrypt x (a, b).
Proof.
  revert x. apply list_ind2; [reflexivity|reflexivity|].
  intros c0 c1 rest IH. cbn [encrypt]. rewrite IH. f_equal.
  unfold encrypt_bigram. destruct (bigram_number [c0; c1]) as [X|];
    [|reflexivity].
  cbn [bind fst snd]. rewrite modulus_value. f_equal.
  rewrite Z.add_mod, Z.mul_mod_idemp_l, <- Z.add_mod by lia. reflexivity.
Qed.

(** ** Frequency tables *)

Lemma str_eqb_eq (s t : str) : str_eqb s t = true <-> s = t.
Proof.
  revert t. induction s as [|a s IH]; intros [|b t]; cbn; try easy.
  rewrite andb_true_iff, Z.eqb_eq, IH. split; [intros []|intros [=]]; now subst.
Qed.

Lemma str_ltb_trans (s t u : str) :
  str_ltb s t = true -> str_ltb t u = true -> str_ltb s u = true.
Proof.
  revert t u. induction s as [|a s IH]; intros [|b t] [|c u]; cbn; try easy.
  rewrite !orb_true_iff, !andb_true_iff, !Z.ltb_lt, !Z.eqb_eq.
  intros [H1|[H1 H1']] [H2|[H2 H2']]; try (left; lia).
  right. split; [lia|]. eapply IH; eassumption.
Qed.

Lemma str_ltb_trichotomy (s t : str) :
  str_ltb s t = false -> s = t \/ str_ltb t s = true.
Proof.
  revert t. induction s as [|a s IH]; intros [|b t]; cbn; try easy; auto.
  rewrite orb_false_iff, andb_false_iff, Z.ltb_ge, Z.eqb_neq.
  rewrite orb_true_iff, andb_true_iff, Z.ltb_lt, Z.eqb_eq.
  intros [H1 [H2|H2]].
  - right. left. lia.
  - destruct (Z.eq_dec a b) as [->|]; [|right; left; lia].
    destruct (IH t H2) as [->|H]; [now left|]. right. right. now split.
Qed.

Lemma rank_ltb_spec (x y : str * Z) :
  rank_ltb x y = true <-> ranked_desc y x.
Proof.
  unfold rank_ltb, ranked_desc.
  rewrite orb_true_iff, andb_true_iff, Z.ltb_lt, Z.eqb_eq. split.
  - intros [H|[H1 H2]]; split; try lia; auto.
  - intros [H1 H2]. destruct (Z.eq_dec (snd x) (snd y)) as [E|E].
    + right. auto.
    + left. lia.
Qed.

Lemma rank_ltb_trans (x y z : str * Z) :
  rank_ltb x y = true -> rank_ltb y z = true -> rank_ltb x z = true.
Proof.
  unfold rank_ltb.
  rewrite !orb_true_iff, !andb_true_iff, !Z.ltb_lt, !Z.eqb_eq.
  intros [H1|[H1 H1']] [H2|[H2 H2']]; try (left; lia).
  right. split; [lia|]. eapply str_ltb_trans; eassumption.
Qed.

Lemma rank_ltb_trichotomy (x y : str * Z) :
  rank_ltb x y = false -> fst x <> fst y -> rank_ltb y x = true.
Proof.
  unfold rank_ltb.
  rewrite orb_false_iff, andb_false_iff, Z.ltb_ge, Z.eqb_neq.
  rewrite orb_true_iff, andb_true_iff, Z.ltb_lt, Z.eqb_eq.
  intros [H1 [H2|H2]] Hk.
  - left. lia.
  - destruct (Z.eq_dec (snd x) (snd y)) as [E|E]; [|left; lia].
    right. split; [lia|].
    destruct (str_ltb_trichotomy _ _ H2); [contradiction|assumption].
Qed.

Lemma in_insert_desc (x z : str * Z) (l : list (str * Z)) :
  In z (insert_desc x l) <-> z = x \/ In z l.
Proof.
  induction l as [|y l IH]; cbn [insert_desc In].
  - intuition congruence.
  - destruct (rank_ltb x y); cbn [In]; [rewrite IH|]; intuition congruence.
Qed.

Lemma in_sorted_reverse (z : str * Z) (l : list (str * Z)) :
  In z (sorted_reverse l) <-> In z l.
Proof.
  induction l as [|x l IH]; cbn [sorted_reverse fold_right In]; [tauto|].
  fold (sorted_reverse l). rewrite in_insert_desc, IH. intuition congruence.
Qed.

Lemma total_insert_desc (x : str * Z) (l : list (str * Z)) :
  total (insert_desc x l) = snd x + total l.
Proof.
  induction l as [|y l IH]; cbn [insert_desc total fold_right]; [reflexivity|].
  destruct (rank_ltb x y); cbn [total fold_right]; [|reflexivity].
  fold (total (insert_desc x l)). fold (total l). lia.
Qed.

Lemma total_sorted_reverse (l : list (str * Z)) :
  total (sorted_reverse l) = total l.
Proof.
  induction l as [|x l IH]; [reflexivity|].
  cbn [sorted_reverse fold_right]. fold (sorted_reverse l).
  rewrite total_insert_desc, IH. reflexivity.
Qed.

Lemma insert_desc_sorted (x : str * Z) (l : list (str * Z)) :
  StronglySorted ranked_desc l ->
  (forall y, In y l -> fst x <> fst y) ->
  StronglySorted ranked_desc (insert_desc x l).
Proof.
  induction l as [|y l IH]; intros Hs Hk; cbn [insert_desc].
  - repeat constructor.
  - inversion Hs as [|? ? Hs' Hall]; subst.
    destruct (rank_ltb x y) eqn:Hxy.
    + constructor.
      * apply IH; [assumption|]. intros; apply Hk; now right.
      * apply Forall_forall. intros z Hz. apply in_insert_desc in Hz.
        destruct Hz as [->|Hz]; [now apply rank_ltb_spec|].
        rewrite Forall_forall in Hall. auto.
    + assert (Hyx : rank_ltb y x = true)
        by (apply rank_ltb_trichotomy; [assumption|apply Hk; now left]).
      constructor; [assumption|]. constructor; [now apply rank_ltb_spec|].
      apply Forall_forall. intros z Hz. rewrite Forall_forall in Hall.
      apply rank_ltb_spec. apply rank_ltb_trans with y; [|assumption].
      apply rank_ltb_spec. auto.
Qed.

Lemma sorted_reverse_sorted (l : list (str * Z)) :
  NoDup (map fst l) -> StronglySorted ranked_desc (sorted_reverse l).
Proof.
  induction l as [|x l IH]; intros Hnd; [constructor|].
  cbn [sorted_reverse fold_right]. fold (sorted_reverse l).
  inversion Hnd as [|? ? Hx Hnd']; subst. apply insert_desc_sorted; [auto|].
  intros y Hy E. apply Hx. rewrite E. apply in_map.
  now apply in_sorted_reverse.
Qed.

(** [dict_incr] on string keys. *)
Lemma dict_incr_keys (k : str) (d : dict str) :
  map fst (dict_incr str_eqb k d)
  = if in_dec (list_eq_dec Z.eq_dec) k (map fst d) then map fst d
    else map fst d ++ [k].
Proof.
  induction d as [|[k' v] d IH]; cbn [dict_incr map fst]; [reflexivity|].
  destruct (str_eqb k k') eqn:E.
  - apply str_eqb_eq in E. subst k'.
    destruct (in_dec (list_eq_dec Z.eq_dec) k (k :: map fst d)) as [|n]; [reflexivity|].
    exfalso. apply n. now left.
  - assert (k <> k') by (intros ->; rewrite (proj2 (str_eqb_eq k' k')) in E;
                         [discriminate|reflexivity]).
    cbn [map fst]. rewrite IH.
    destruct (in_dec (list_eq_dec Z.eq_dec) k (map fst d)) as [i|n];
      destruct (in_dec (list_eq_dec Z.eq_dec) k (k' :: map fst d)) as [i'|n']; try reflexivity.
    + exfalso. apply n'. now right.
    + exfalso. destruct i' as [|]; [congruence|contradiction].
Qed.

Lemma dict_incr_NoDup (k : str) (d : dict str) :
  NoDup (map fst d) -> NoDup (map fst (dict_incr str_eqb k d)).
Proof.
  intros Hnd. rewrite dict_incr_keys.
  destruct (in_dec (list_eq_dec Z.eq_dec) k (map fst d)) as [i|n]; [assumption|].
  apply NoDup_app; [assumption|repeat constructor; intros []|].
  intros x Hx [<-|[]]. contradiction.
Qed.

Lemma dict_incr_total {K : Type} (eqb : K -> K -> bool) (k : K) (d : dict K) :
  total (dict_incr eqb k d) = total d + 1.
Proof.
  induction d as [|[k' v] d IH]; cbn [dict_incr total fold_right snd];
    [reflexivity|].
  destruct (eqb k k'); cbn [total fold_right snd]; [lia|].
  fold (total (dict_incr eqb k d)). fold (total d). lia.
Qed.

Lemma str_get_ok (s : str) (i : Z) :
  0 <= i < len s -> exists c, str_get s i = Ok c /\ In c s.
Proof.
  intros Hi. unfold str_get.
  destruct (Z.ltb_spec i 0) as [|_]; [lia|].
  destruct (Z.leb_spec 0 i) as [_|]; [|lia].
  destruct (Z.ltb_spec i (len s)) as [_|]; [|lia]. cbn [andb].
  destruct (nth_error s (Z.to_nat i)) as [c|] eqn:E.
  - exists c. split; [reflexivity|]. eapply nth_error_In, E.
  - apply nth_error_None in E. unfold len in Hi. lia.
Qed.


Lemma count_loop (s : str) (indices : list Z) :
  (forall i, In i indices -> 0 <= i /\ i + 1 < len s) ->
  forall d, exists d',
    foldM (count_bigram_at s) indices d = Ok d'
    /\ total d' = total d + Z.of_nat (length indices)
    /\ (NoDup (map fst d) -> NoDup (map fst d'))
    /\ (Forall (digraph_of s) (map fst d) -> Forall (digraph_of s) (map fst d')).
Proof.
  induction indices as [|i indices IH]; intros Hi d.
  - exists d. cbn. repeat split; auto. lia.
  - destruct (Hi i (or_introl eq_refl)) as [Hi0 Hi1].
    destruct (str_get_ok s i ltac:(lia)) as (c0 & Hc0 & Hin0).
    destruct (str_get_ok s (i + 1) ltac:(lia)) as (c1 & Hc1 & Hin1).
    destruct (IH (fun j Hj => Hi j (or_intror Hj))
                 (dict_incr str_eqb [c0; c1] d)) as (d' & Hd' & Ht & Hn & Hk).
    exists d'. cbn [foldM]. unfold count_bigram_at at 1.
    rewrite Hc0. cbn [bind]. rewrite Hc1. cbn [bind]. split; [exact Hd'|].
    split; [|split].
    + rewrite Ht, dict_incr_total. cbn [length]. lia.
    + intros H. apply Hn. now apply dict_incr_NoDup.
    + intros H. apply Hk. rewrite dict_incr_keys.
      destruct (in_dec (list_eq_dec Z.eq_dec) _ _); [assumption|].
      apply Forall_app. split; [assumption|]. constructor; [|constructor].
      split; [reflexivity|]. repeat constructor; assumption.
Qed.

Lemma range_step_pos (start stop step : Z) :
  0 < step ->
  exists l, range_step start stop step = Ok l
            /\ forall i, In i l -> start <= i < stop.
Proof.
  intros Hs. unfold range_step.
  destruct (Z.eqb_spec step 0) as [|_]; [lia|].
  destruct (Z.ltb_spec 0 step) as [_|]; [|lia].
  eexists. split; [reflexivity|]. intros i Hi.
  apply in_map_iff in Hi. destruct Hi as (k & <- & Hk). apply in_seq in Hk.
  set (n := (stop - start + step - 1) / step) in *.
  assert (Hn : n * step <= stop - start + step - 1).
  { rewrite Z.mul_comm. apply Z.mul_div_le. lia. }
  nia.
Qed.

Lemma range_step_one (stop : Z) :
  exists l, range_step 0 stop 1 = Ok l
            /\ Z.of_nat (length l) = Z.max 0 stop
            /\ forall i, In i l -> 0 <= i < stop.
Proof.
  destruct (range_step_pos 0 stop 1 ltac:(lia)) as (l & Hl & Hin).
  exists l. split; [assumption|]. split; [|assumption].
  unfold range_step in Hl. cbn in Hl. injection Hl as <-.
  rewrite length_map, length_seq, Z.div_1_r. lia.
Qed.

(** ** Outcomes of the lookups *)

Lemma str_get_res (s : str) (i : Z) :
  match str_get s i with
  | Ok c => In c s
  | Raise e => e = IndexError
  end.
Proof.
  unfold str_get. destruct (_ && _); [|reflexivity].
  destruct (nth_error s _) eqn:E; [|reflexivity]. eapply nth_error_In, E.
Qed.

Lemma str_index_res (c : char) :
  match str_index ALPHABET c with
  | Ok i => 0 <= i < 31 /\ In c ALPHABET
  | Raise e => e = ValueError /\ ~ In c ALPHABET
  end.
Proof.
  destruct (in_alphabet_dec c) as [Hin|Hn].
  - destruct (alphabet_index_get c Hin) as (i & -> & Hi & _). auto.
  - rewrite (str_index_not_in c Hn). auto.
Qed.

Lemma bigram_number_res (x : str) :
  match bigram_number x with
  | Ok X => 0 <= X < 961
  | Raise e => lookup_error e
  end.
Proof.
  unfold bigram_number, lookup_error.
  pose proof (str_get_res x 0) as H0. destruct (str_get x 0) as [c0|];
    cbn [bind]; [|auto].
  pose proof (str_index_res c0) as Hi0.
  destruct (str_index ALPHABET c0) as [i0|]; cbn [bind]; [|tauto].
  pose proof (str_get_res x 1) as H1. destruct (str_get x 1) as [c1|];
    cbn [bind]; [|auto].
  pose proof (str_index_res c1) as Hi1.
  destruct (str_index ALPHABET c1) as [i1|]; cbn [bind]; [|tauto].
  rewrite len_ALPHABET. lia.
Qed.

Lemma bigram_number_digraph (s x : str) :
  in_alphabet s -> digraph_of s x -> exists X, bigram_number x = Ok X.
Proof.
  intros Hs [Hl Hx].
  destruct (bigram_number_in_alphabet x Hl) as (X & HX & _); [|eauto].
  unfold in_alphabet in *. rewrite Forall_forall in *. auto.
Qed.

Lemma get_key1_res (x1 x2 y1 y2 : str) :
  match get_key1 x1 x2 y1 y2 with
  | Ok (Some l) => Forall (fun a => Z.gcd a (len ALPHABET ^ 2) = 1) l
  | Ok None => True
  | Raise e => lookup_error e
  end.
Proof.
  destruct (get_key1 x1 x2 y1 y2) as [[l|]|e] eqn:E; [| exact I |].
  - apply Forall_forall. intros a Ha. eapply get_key1_invertible; eauto.
  - revert E. unfold get_key1.
    pose proof (bigram_number_res x1) as H1.
    destruct (bigram_number x1) as [X1|]; cbn [bind]; [|congruence].
    pose proof (bigram_number_res x2) as H2.
    destruct (bigram_number x2) as [X2|]; cbn [bind]; [|congruence].
    pose proof (bigram_number_res y1) as H3.
    destruct (bigram_number y1) as [Y1|]; cbn [bind]; [|congruence].
    pose proof (bigram_number_res y2) as H4.
    destruct (bigram_number y2) as [Y2|]; cbn [bind]; [|congruence].
    rewrite modulus_value.
    destruct (solve_961 (Y1 - Y2) (X1 - X2)) as [[_ ->]|(_ & l & -> & _)];
      try lia; cbn [bind]; [discriminate|].
    destruct (mapM_total (fun i => '(_, x) <- get_inverse i 961 ;; Ok x) l)
      as (inverses & ->); [|discriminate].
    intros i _. destruct (get_inverse_total i 961 ltac:(lia)) as (d & x & ->).
    now exists x.
Qed.

Lemma get_key2_res (x y : str) (a : Z) :
  match get_key2 x y a with
  | Ok _ => True
  | Raise e => lookup_error e
  end.
Proof.
  unfold get_key2.
  pose proof (bigram_number_res x) as H1.
  destruct (bigram_number x) as [X|]; cbn [bind]; [|assumption].
  pose proof (bigram_number_res y) as H2.
  destruct (bigram_number y) as [Y|]; cbn [bind]; [|assumption].
  exact I.
Qed.

Lemma even_length_cons2 (c0 c1 : char) (s : str) :
  even_length (c0 :: c1 :: s) <-> even_length s.
Proof.
  unfold even_length. cbn [length]. split; intros [k Hk].
  - exists (k - 1)%nat. lia.
  - exists (S k). lia.
Qed.

(** Under an invertible key, decryption fails exactly on a malformed text,
    and then with a failed lookup. *)
Lemma decrypt_res (k : key) :
  Z.gcd (fst k) (len ALPHABET ^ 2) = 1 ->
  forall s,
    match decrypt_from_affinity_sub s k with
    | Ok _ => well_formed s
    | Raise e => lookup_error e /\ ~ well_formed s
    end.
Proof.
  intros Hg. rewrite modulus_value in Hg.
  destruct (get_inverse_coprime (fst k) 961 ltac:(lia) Hg) as (inv & _ & Hi).
  unfold well_formed, lookup_error, in_alphabet.
  apply list_ind2.
  - cbn. split; [constructor|]. now exists 0%nat.
  - intros c. cbn [decrypt_from_affinity_sub].
    pose proof (str_index_res c) as Hc.
    destruct (str_index ALPHABET c); cbn [bind].
    + split; [auto|]. intros [_ [n Hn]]. cbn in Hn. lia.
    + split; [tauto|]. intros [H _]. inversion H; subst. tauto.
  - intros c0 c1 rest IH.
    pose proof (str_index_res c0) as Hc0.
    destruct (str_index ALPHABET c0) as [i0|] eqn:E0.
    2:{ cbn [decrypt_from_affinity_sub]. rewrite E0. cbn [bind].
        split; [tauto|]. intros [H _]. inversion H; subst. tauto. }
    pose proof (str_index_res c1) as Hc1.
    destruct (str_index ALPHABET c1) as [i1|] eqn:E1.
    2:{ cbn [decrypt_from_affinity_sub]. rewrite E0. cbn [bind].
        rewrite E1. cbn [bind].
        split; [tauto|]. intros [H _]. inversion H as [|? ? _ H']; subst.
        inversion H'; subst. tauto. }
    rewrite (decrypt_block c0 c1 rest k i0 i1 inv E0 E1 Hi).
    set (x := (inv * (i0 * 31 + i1 - snd k)) mod 961).
    pose proof (Z.mod_pos_bound (inv * (i0 * 31 + i1 - snd k)) 961 ltac:(lia))
      as Hx. fold x in Hx.
    destruct (number_split x Hx) as (Hq & Hr & _).
    destruct (alphabet_get_index _ Hq) as (s0 & -> & _).
    destruct (alphabet_get_index _ Hr) as (s1 & -> & _).
    cbn [bind].
    destruct (decrypt_from_affinity_sub rest k); cbn [bind].
    + destruct IH as [Hal Hev]. split.
      * constructor; [tauto|]. constructor; [tauto|assumption].
      * now apply even_length_cons2.
    + destruct IH as [He Hn]. split; [assumption|]. intros [Hal Hev].
      apply Hn. inversion Hal as [|? ? _ H']; subst.
      inversion H'; subst. split; [assumption|].
      now apply even_length_cons2 in Hev.
Qed.

Lemma frequency_table (d_text : str) :
  exists t, get_bigrams_frequency d_text 1 false = Ok (Table t).
Proof.
  unfold get_bigrams_frequency.
  destruct (range_step_one (len d_text - 1)) as (l & -> & _ & Hl).
  cbn [bind].
  destruct (count_loop d_text l) with (d := @nil (str * Z)) as (d & -> & _).
  { intros i Hi. apply Hl in Hi. lia. }
  cbn [bind negb]. exists d. reflexivity.
Qed.

Lemma frequency_ranking (s : str) :
  exists items, get_bigrams_frequency s 1 true = Ok (Ranking items)
                /\ Forall (fun e => digraph_of s (fst e)) items.
Proof.
  unfold get_bigrams_frequency.
  destruct (range_step_one (len s - 1)) as (l & -> & _ & Hl).
  cbn [bind].
  destruct (count_loop s l) with (d := @nil (str * Z))
    as (d & -> & _ & _ & Hk).
  { intros i Hi. apply Hl in Hi. lia. }
  cbn [bind negb]. eexists. split; [reflexivity|].
  apply Forall_forall. intros e He. rewrite in_sorted_reverse in He.
  specialize (Hk (Forall_nil _)). rewrite Forall_forall in Hk.
  apply Hk. exact (in_map fst _ _ He).
Qed.

(** ** The search on arbitrary input *)

Section SearchOutcome.
Variable check_text_correctness : dict char -> frequency -> Z -> bool.
Variable input_is_yes : nat -> str -> bool.
Variable string : str.
Variable check_bw : bool.


Lemma try_solutions_res (x y : str) (key_1 : list Z) :
  Forall (fun a => Z.gcd a (len ALPHABET ^ 2) = 1) key_1 ->
  forall asked,
    idle_or_well_formed string asked
      (try_solutions check_text_correctness input_is_yes string check_bw
         x y key_1 asked).
Proof.
  induction key_1 as [|a key_1 IH]; intros Hinv asked.
  - cbn. auto.
  - inversion Hinv as [|? ? Ha Hinv']; subst.
    cbn [try_solutions].
    pose proof (get_key2_res x y a) as H2.
    destruct (get_key2 x y a) as [b|]; cbn [bind]; [|assumption].
    pose proof (decrypt_res (a, b) Ha string) as Hd.
    destruct (decrypt_from_affinity_sub string (a, b)) as [d_text|];
      cbn [bind]; [|tauto].
    destruct (frequency_table d_text) as (t & ->). cbn [bind].
    destruct (check_text_correctness _ _ _).
    + destruct (if check_bw then _ else true).
      * cbn. auto.
      * specialize (IH Hinv' (if check_bw then S asked else asked)).
        destruct (try_solutions _ _ _ _ _ _ _ _) as [[[te fo] n]|];
          cbn [bind idle_or_well_formed] in *; [|assumption]. auto.
    + specialize (IH Hinv' asked).
      destruct (try_solutions _ _ _ _ _ _ _ _) as [[[te fo] n]|];
        cbn [bind idle_or_well_formed] in *; [|assumption]. auto.
Qed.

Lemma try_adjacent_step (i : str * str) (fj fj1 : str * Z)
  (rest : list (str * Z)) (asked : nat) :
  try_adjacent check_text_correctness input_is_yes string check_bw
    i (fj :: fj1 :: rest) asked
  = (key_1 <- get_key1 (fst i) (snd i) (fst fj) (fst fj1) ;;
     match key_1 with
     | None =>
         try_adjacent check_text_correctness input_is_yes string check_bw
           i (fj1 :: rest) asked
     | Some key_1 =>
         '((tested, found), n) <-
           try_solutions check_text_correctness input_is_yes string check_bw
             (fst i) (fst fj) key_1 asked ;;
         match found with
         | Some _ => Ok ((tested, found), n)
         | None =>
             '((tested', found'), n') <-
               try_adjacent check_text_correctness input_is_yes string
                 check_bw i (fj1 :: rest) n ;;
             Ok ((tested ++ tested', found'), n')
         end
     end).
Proof. reflexivity. Qed.

Lemma try_adjacent_res (i : str * str) (f_list : list (str * Z)) :
  forall asked,
    idle_or_well_formed string asked
      (try_adjacent check_text_correctness input_is_yes string check_bw
         i f_list asked).
Proof.
  induction f_list as [|fj f_list IH]; intros asked; [cbn; auto|].
  destruct f_list as [|fj1 rest]; [cbn; auto|].
  rewrite try_adjacent_step.
  pose proof (get_key1_res (fst i) (snd i) (fst fj) (fst fj1)) as H1.
  destruct (get_key1 _ _ _ _) as [[key_1|]|]; cbn [bind];
    [| apply IH | exact H1].
  pose proof (try_solutions_res (fst i) (fst fj) key_1 H1 asked) as Hs.
  destruct (try_solutions _ _ _ _ _ _ _ _) as [[[te fo] n]|];
    cbn [bind idle_or_well_formed] in *; [|assumption].
  destruct fo as [r|]; [cbn; destruct Hs as [|(_ & [=] & _)]; auto|].
  specialize (IH n).
  destruct (try_adjacent _ _ _ _ _ _ _) as [[[te' fo'] n']|];
    cbn [bind idle_or_well_formed] in *; [|exact IH].
  destruct Hs as [|(-> & _ & ->)]; [auto|].
  destruct IH as [|(-> & -> & ->)]; auto.
Qed.

Lemma try_permutations_res (perms : list (str * str)) (f_list : list (str * Z)) :
  forall asked,
    idle_or_well_formed string asked
      (try_permutations check_text_correctness input_is_yes string check_bw
         perms f_list asked).
Proof.
  induction perms as [|i perms IH]; intros asked; [cbn; auto|].
  cbn [try_permutations].
  pose proof (try_adjacent_res i f_list asked) as Hs.
  destruct (try_adjacent _ _ _ _ _ _ _) as [[[te fo] n]|];
    cbn [bind idle_or_well_formed] in *; [|assumption].
  destruct fo as [r|]; [cbn; destruct Hs as [|(_ & [=] & _)]; auto|].
  specialize (IH n).
  destruct (try_permutations _ _ _ _ _ _ _) as [[[te' fo'] n']|];
    cbn [bind idle_or_well_formed] in *; [|exact IH].
  destruct Hs as [|(-> & _ & ->)]; [auto|].
  destruct IH as [|(-> & -> & ->)]; auto.
Qed.

Lemma gnc_keys_res (f_size : Z) :
  match gnc_keys check_text_correctness input_is_yes string check_bw f_size with
  | Ok (tested, found) => well_formed string \/ (tested = [] /\ found = None)
  | Raise e => lookup_error e
  end.
Proof.
  unfold gnc_keys.
  destruct (frequency_ranking string) as (items & -> & _). cbn [bind].
  pose proof (try_permutations_res (permutations2 MOST_FREQUENTLY_BIGRAMS)
                (slice_to items f_size) 0%nat) as H.
  destruct (try_permutations _ _ _ _ _ _ _) as [[[te fo] n]|];
    cbn [bind idle_or_well_formed] in *; [|assumption]. tauto.
Qed.
End SearchOutcome.

(** ** The search as first-match enumeration *)

Section SearchOrder.
Variable check_text_correctness : dict char -> frequency -> Z -> bool.
Variable input_is_yes : nat -> str -> bool.
Variable string : str.
Hypothesis Hwf : well_formed string.


Lemma through_first_app {A : Type} (p : A -> bool) (l1 l2 : list A) :
  through_first p (l1 ++ l2)
  = match find p l1 with
    | Some _ => through_first p l1
    | None => l1 ++ through_first p l2
    end.
Proof.
  induction l1 as [|x l1 IH]; [reflexivity|].
  cbn [app through_first find]. destruct (p x); [reflexivity|].
  rewrite IH. now destruct (find p l1).
Qed.

Lemma through_first_none {A : Type} (p : A -> bool) (l : list A) :
  find p l = None -> through_first p l = l.
Proof.
  induction l as [|x l IH]; [reflexivity|]. cbn [find through_first].
  destruct (p x); [discriminate|]. intros H. now rewrite IH.
Qed.

Lemma find_app {A : Type} (p : A -> bool) (l1 l2 : list A) :
  find p (l1 ++ l2)
  = match find p l1 with
    | Some x => Some x
    | None => find p l2
    end.
Proof.
  induction l1 as [|x l1 IH]; [reflexivity|].
  cbn [app find]. now destruct (p x).
Qed.

Lemma first_plausible_find (l : list key) :
  match find (plausible check_text_correctness string) l with
  | Some k => exists d_text, first_plausible check_text_correctness string l
                             = Some (k, d_text)
  | None => first_plausible check_text_correctness string l = None
  end.
Proof.
  unfold first_plausible. destruct (find (plausible check_text_correctness string) l) as [k|] eqn:E;
    [|reflexivity].
  apply find_some in E. destruct E as [_ Hp]. unfold plausible in Hp.
  destruct (decrypt_from_affinity_sub string k) as [d|]; [|discriminate].
  now exists d.
Qed.

Lemma first_match_search_app (l1 l2 : list key) :
  (first_match_search check_text_correctness string) (l1 ++ l2)
  = match snd ((first_match_search check_text_correctness string) l1) with
    | Some _ => (first_match_search check_text_correctness string) l1
    | None => (l1 ++ fst ((first_match_search check_text_correctness string) l2), snd ((first_match_search check_text_correctness string) l2))
    end.
Proof.
  unfold first_match_search. cbn [fst snd].
  pose proof (first_plausible_find l1) as H1.
  rewrite through_first_app. unfold first_plausible at 1.
  rewrite find_app. fold (plausible check_text_correctness string).
  destruct (find (plausible check_text_correctness string) l1) as [k|] eqn:E.
  - destruct H1 as (d & H1). rewrite H1. f_equal.
    unfold first_plausible in H1. rewrite E in H1.
    destruct (decrypt_from_affinity_sub string k); [|discriminate].
    now injection H1 as ->.
  - rewrite H1. reflexivity.
Qed.

Lemma try_solutions_spec (x y : str) (X Y : Z) (key_1 : list Z) :
  bigram_number x = Ok X -> bigram_number y = Ok Y ->
  Forall (fun a => Z.gcd a (len ALPHABET ^ 2) = 1) key_1 ->
  forall asked,
    try_solutions check_text_correctness input_is_yes string false
      x y key_1 asked
    = Ok ((first_match_search check_text_correctness string) (keys_of x y key_1), asked).
Proof.
  intros HX HY. induction key_1 as [|a key_1 IH]; intros Hinv asked;
    [reflexivity|].
  inversion Hinv as [|? ? Ha Hinv']; subst.
  cbn [try_solutions keys_of flat_map].
  assert (Hk2 : get_key2 x y a = Ok ((Y - a * X) mod 961)).
  { unfold get_key2. rewrite HX, HY. reflexivity. }
  rewrite Hk2. cbn [bind app].
  set (k := (a, (Y - a * X) mod 961)).
  pose proof (decrypt_res k Ha string) as Hd.
  destruct (decrypt_from_affinity_sub string k) as [d_text|] eqn:Ed;
    [clear Hd; rename Ed into Hd|now destruct Hd].
  destruct (frequency_table d_text) as (t & Ht).
  unfold first_match_search, first_plausible.
  cbn [through_first find]. unfold plausible at 1 3.
  rewrite Hd. cbn [bind]. rewrite Ht. cbn [bind].
  destruct (check_text_correctness _ _ _).
  - now rewrite Hd.
  - fold (keys_of x y key_1). rewrite (IH Hinv' asked). reflexivity.
Qed.

Lemma try_adjacent_spec (i : str * str) (X1 X2 : Z) (f_list : list (str * Z)) :
  bigram_number (fst i) = Ok X1 -> bigram_number (snd i) = Ok X2 ->
  Forall (fun e => digraph_of string (fst e)) f_list ->
  forall asked,
    try_adjacent check_text_correctness input_is_yes string false
      i f_list asked
    = Ok ((first_match_search check_text_correctness string) (flat_map (fun p => candidates_of i (fst p) (snd p))
                 (adjacent_pairs f_list)), asked).
Proof.
  intros H1 H2. induction f_list as [|fj f_list IH]; intros Hf asked;
    [reflexivity|].
  destruct f_list as [|fj1 rest]; [reflexivity|].
  inversion Hf as [|? ? Hfj Hf']; subst.
  inversion Hf' as [|? ? Hfj1 _]; subst.
  destruct (bigram_number_digraph string _ (proj1 Hwf) Hfj) as (Y1 & HY1).
  destruct (bigram_number_digraph string _ (proj1 Hwf) Hfj1) as (Y2 & HY2).
  rewrite try_adjacent_step.
  change (adjacent_pairs (fj :: fj1 :: rest))
    with ((fj, fj1) :: adjacent_pairs (fj1 :: rest)).
  cbn [flat_map fst snd]. rewrite first_match_search_app.
  unfold candidates_of at 1 2 3.
  pose proof (get_key1_res (fst i) (snd i) (fst fj) (fst fj1)) as Hk1.
  destruct (get_key1 _ _ _ _) as [[key_1|]|e] eqn:E; cbn [bind].
  - rewrite (try_solutions_spec _ _ X1 Y1 key_1 H1 HY1 Hk1). cbn [bind].
    destruct ((first_match_search check_text_correctness string) (keys_of (fst i) (fst fj) key_1)) as [te [r|]] eqn:Es;
      cbn [fst snd]; [reflexivity|].
    rewrite (IH Hf'). cbn [bind].
    assert (te = keys_of (fst i) (fst fj) key_1) as ->.
    { pose proof (first_plausible_find (keys_of (fst i) (fst fj) key_1)) as Hfp.
      unfold first_match_search in Es. injection Es as <- Hn.
      destruct (find (plausible check_text_correctness string) _) eqn:Ef.
      - destruct Hfp as (d & Hfp). congruence.
      - now rewrite through_first_none. }
    now destruct ((first_match_search check_text_correctness string) _).
  - rewrite (IH Hf'). cbn [app fst snd].
    now destruct ((first_match_search check_text_correctness string) _).
  - exfalso. revert E. unfold get_key1. rewrite H1, H2, HY1, HY2.
    cbn [bind]. rewrite modulus_value.
    pose proof (bigram_number_res (fst i)) as B1. rewrite H1 in B1.
    pose proof (bigram_number_res (snd i)) as B2. rewrite H2 in B2.
    pose proof (bigram_number_res (fst fj)) as B3. rewrite HY1 in B3.
    pose proof (bigram_number_res (fst fj1)) as B4. rewrite HY2 in B4.
    destruct (solve_961 (Y1 - Y2) (X1 - X2)) as [[_ ->]|(_ & l & -> & _)];
      try lia; cbn [bind]; [discriminate|].
    destruct (mapM_total (fun i => '(_, x) <- get_inverse i 961 ;; Ok x) l)
      as (inverses & ->); [|discriminate].
    intros j _. destruct (get_inverse_total j 961 ltac:(lia)) as (d & x & ->).
    now exists x.
Qed.
End SearchOrder.

Lemma reference_permutations_ok :
  Forall (fun i : str * str =>
            exists X1 X2, bigram_number (fst i) = Ok X1
                          /\ bigram_number (snd i) = Ok X2)
    (permutations2 MOST_FREQUENTLY_BIGRAMS).
Proof.
  let l := eval vm_compute in (permutations2 MOST_FREQUENTLY_BIGRAMS) in
  change (permutations2 MOST_FREQUENTLY_BIGRAMS) with l.
  repeat (constructor; [do 2 eexists; split; reflexivity|]). constructor.
Qed.

Lemma Forall_slice_to {A : Type} (P : A -> Prop) (l : list A) (k : Z) :
  Forall P l -> Forall P (slice_to l k).
Proof.
  intros H. rewrite Forall_forall in *. intros x Hx. apply H.
  unfold slice_to in Hx.
  destruct (k <? 0);
    match type of Hx with
    | In _ (firstn ?n _) => rewrite <- (firstn_skipn n l)
    end; apply in_or_app; now left.
Qed.

Section SearchOrderTop.
Variable check_text_correctness : dict char -> frequency -> Z -> bool.
Variable input_is_yes : nat -> str -> bool.
Variable string : str.
Hypothesis Hwf : well_formed string.

Lemma try_permutations_spec (perms : list (str * str))
  (f_list : list (str * Z)) :
  Forall (fun i : str * str =>
            exists X1 X2, bigram_number (fst i) = Ok X1
                          /\ bigram_number (snd i) = Ok X2) perms ->
  Forall (fun e => digraph_of string (fst e)) f_list ->
  forall asked,
    try_permutations check_text_correctness input_is_yes string false
      perms f_list asked
    = Ok (first_match_search check_text_correctness string
            (flat_map (fun i =>
               flat_map (fun p => candidates_of i (fst p) (snd p))
                 (adjacent_pairs f_list)) perms), asked).
Proof.
  intros Hp Hf. induction perms as [|i perms IH]; intros asked;
    [reflexivity|].
  inversion Hp as [|? ? (X1 & X2 & H1 & H2) Hp']; subst.
  cbn [try_permutations flat_map].
  rewrite (try_adjacent_spec _ input_is_yes string Hwf i X1 X2 f_list H1 H2 Hf).
  cbn [bind]. rewrite first_match_search_app.
  set (c := flat_map _ (adjacent_pairs f_list)).
  pose proof (first_plausible_find check_text_correctness string c) as Hfp.
  unfold first_match_search at 1 2 3 4. cbn [fst snd].
  destruct (first_plausible check_text_correctness string c) as [r|] eqn:Er;
    [reflexivity|].
  rewrite (IH Hp'). cbn [bind].
  destruct (find _ c) eqn:Ef; [destruct Hfp; discriminate|].
  rewrite (through_first_none _ _ Ef). reflexivity.
Qed.
End SearchOrderTop.

(** * The claims *)

(** C1. Decrypt/encrypt round trip: for every key [(a, b)] with
    [gcd(a, A^2) = 1] and every text of even length over the alphabet, the
    affine encryption of the text exists and [decrypt_from_affinity_sub]
    maps it back to the text. *)
Theorem decrypt_encrypt_roundtrip (text : str) (k : key) :
  Z.gcd (fst k) (len ALPHABET ^ 2) = 1 ->
  even_length text -> in_alphabet text ->
  exists ct, encrypt text k = Ok ct
             /\ decrypt_from_affinity_sub ct k = Ok text.
Proof.
  intros Hg Hev Hal. rewrite modulus_value in Hg.
  destruct (get_inverse_coprime (fst k) 961 ltac:(lia) Hg) as (inv & _ & Hi).
  revert Hal. revert text Hev.
  apply (pair_induction (fun s => in_alphabet s -> _)).
  - intros _. exists []. split; reflexivity.
  - intros c0 c1 rest IH Hal.
    inversion Hal as [|? ? Hc0 Hal1]; subst.
    inversion Hal1 as [|? ? Hc1 Hal2]; subst.
    destruct (IH Hal2) as (ct & He & Hd).
    destruct (alphabet_index_get c0 Hc0) as (i0 & Hi0 & Hr0 & Hg0).
    destruct (alphabet_index_get c1 Hc1) as (i1 & Hi1 & Hr1 & Hg1).
    destruct (bigram_split i0 i1 Hr0 Hr1) as (Eq & Er & HX).
    set (X := i0 * 31 + i1) in *.
    pose proof (Z.mod_pos_bound (fst k * X + snd k) 961 ltac:(lia)) as HY.
    destruct (number_to_bigram_spec _ HY) as (s0 & s1 & Hnb & Hs0 & Hs1 & _).
    cbn [encrypt]. rewrite (encrypt_block c0 c1 k i0 i1 Hi0 Hi1).
    fold X. rewrite Hnb. cbn [bind]. rewrite He. cbn [bind app].
    eexists. split; [reflexivity|].
    rewrite (decrypt_block s0 s1 ct k _ _ inv Hs0 Hs1 Hi).
    destruct (number_split _ HY) as (_ & _ & ->).
    rewrite (affine_inverse _ _ _ _ Hi HX), Eq, Er, Hg0.
    cbn [bind]. rewrite Hg1. cbn [bind]. rewrite Hd. reflexivity.
Qed.

Lemma decrypt_encrypt_roundtrip_witness :
  Z.gcd (fst (7, 3)) (len ALPHABET ^ 2) = 1
  /\ even_length [1072; 1073; 1074; 1075]
  /\ in_alphabet [1072; 1073; 1074; 1075]
  /\ exists ct, encrypt [1072; 1073; 1074; 1075] (7, 3) = Ok ct
       /\ decrypt_from_affinity_sub ct (7, 3) = Ok [1072; 1073; 1074; 1075].
Proof.
  assert (H1 : Z.gcd (fst (7, 3)) (len ALPHABET ^ 2) = 1) by reflexivity.
  assert (H2 : even_length [1072; 1073; 1074; 1075])
    by (exists 2%nat; reflexivity).
  assert (H3 : in_alphabet [1072; 1073; 1074; 1075])
    by (apply in_alphabetb_spec; reflexivity).
  split; [exact H1|]. split; [exact H2|]. split; [exact H3|].
  exact (decrypt_encrypt_roundtrip _ _ H1 H2 H3).
Defined.

(** C2. Key derivation consistency: for every key [(a, b)] with
    [gcd(a, A^2) = 1] and every two plaintext digraphs over the alphabet,
    [get_key1] applied to the digraphs and their encryptions under the key
    returns a list that contains the residue of [a] modulo [A^2], which is
    [a] itself for a key of residues. *)
Theorem get_key1_contains_true_key (a b : Z) (x1 x2 y1 y2 : str) :
  Z.gcd a (len ALPHABET ^ 2) = 1 ->
  length x1 = 2%nat -> in_alphabet x1 ->
  length x2 = 2%nat -> in_alphabet x2 ->
  encrypt x1 (a, b) = Ok y1 -> encrypt x2 (a, b) = Ok y2 ->
  exists l, get_key1 x1 x2 y1 y2 = Ok (Some l)
            /\ In (a mod len ALPHABET ^ 2) l
            /\ (0 <= a < len ALPHABET ^ 2 -> In a l).
Proof.
  intros Hg Hl1 Hal1 Hl2 Hal2 He1 He2.
  assert (Hm : 0 <= a mod len ALPHABET ^ 2 < len ALPHABET ^ 2)
    by (apply Z.mod_pos_bound; reflexivity).
  destruct (get_key1_finds_a (a mod len ALPHABET ^ 2) b x1 x2 y1 y2)
    as (l & Hl & Hin); try assumption.
  - rewrite Z.gcd_mod, Z.gcd_comm by discriminate. assumption.
  - rewrite modulus_value, encrypt_key_mod. assumption.
  - rewrite modulus_value, encrypt_key_mod. assumption.
  - exists l. split; [assumption|]. split; [assumption|].
    intros Ha. now rewrite Z.mod_small in Hin.
Qed.

Lemma get_key1_contains_true_key_witness :
  Z.gcd 7 (len ALPHABET ^ 2) = 1
  /\ length [1089; 1090] = 2%nat /\ in_alphabet [1089; 1090]
  /\ length [1085; 1086] = 2%nat /\ in_alphabet [1085; 1086]
  /\ encrypt [1089; 1090] (7, 3) = Ok [1103; 1077]
  /\ encrypt [1085; 1086] (7, 3) = Ok [1073; 1080]
  /\ exists l, get_key1 [1089; 1090] [1085; 1086] [1103; 1077] [1073; 1080]
               = Ok (Some l)
               /\ In (7 mod len ALPHABET ^ 2) l
               /\ (0 <= 7 < len ALPHABET ^ 2 -> In 7 l).
Proof.
  assert (H2 : Z.gcd 7 (len ALPHABET ^ 2) = 1) by reflexivity.
  assert (H3 : in_alphabet [1089; 1090])
    by (apply in_alphabetb_spec; reflexivity).
  assert (H4 : in_alphabet [1085; 1086])
    by (apply in_alphabetb_spec; reflexivity).
  assert (H5 : encrypt [1089; 1090] (7, 3) = Ok [1103; 1077])
    by reflexivity.
  assert (H6 : encrypt [1085; 1086] (7, 3) = Ok [1073; 1080])
    by reflexivity.
  split; [exact H2|].
  split; [reflexivity|]. split; [exact H3|].
  split; [reflexivity|]. split; [exact H4|].
  split; [exact H5|]. split; [exact H6|].
  exact (get_key1_contains_true_key 7 3 [1089; 1090] [1085; 1086]
           [1103; 1077] [1073; 1080] H2 eq_refl H3 eq_refl H4 H5 H6).
Defined.

(** C3. Congruence solver, at operands outside the exact range of a float:
    [solve_linear_comparison(2, 2**54 + 2, 4)] divides [b] by the gcd [2]
    with [/], which rounds [2**53 + 1] to [2**53], and returns [[0, 2]];
    neither value solves [2 * x = 2**54 + 2 (mod 4)], whose solutions are
    [1] and [3]. *)
Theorem solve_linear_comparison_float_division_defect :
  solve_linear_comparison 2 (2 ^ 54 + 2) 4 = Ok (Some [0; 2])
  /\ (2 * 0 - (2 ^ 54 + 2)) mod 4 = 2
  /\ (2 * 2 - (2 ^ 54 + 2)) mod 4 = 2
  /\ (2 * 1 - (2 ^ 54 + 2)) mod 4 = 0
  /\ (2 * 3 - (2 ^ 54 + 2)) mod 4 = 0.
Proof. vm_compute. repeat split. Qed.

(** C4, as stated, fails on ['абв']: the two digraphs have count 1 and the
    ranked list puts ['бв'] before ['аб']. *)
Lemma ranking_ties_not_ascending :
  exists items,
    get_bigrams_frequency [1072; 1073; 1074] 1 true = Ok (Ranking items)
    /\ ~ StronglySorted ranked_ties_ascending items.
Proof.
  exists [([1073; 1074], 1); ([1072; 1073], 1)]. split; [reflexivity|].
  intros H. inversion H as [|? ? _ Hall]; subst.
  inversion Hall as [|? ? [_ Hk] _]; subst.
  specialize (Hk eq_refl). discriminate Hk.
Qed.

(** C4, amended. Frequency ranking order: for every text and every positive
    step, the ranked output of [get_bigrams_frequency] is sorted descending
    by count, and entries with equal counts are sorted descending by digraph
    key. *)
Theorem ranking_sorted_descending (string : str) (step : Z) :
  0 < step ->
  exists items, get_bigrams_frequency string step true = Ok (Ranking items)
                /\ StronglySorted ranked_desc items.
Proof.
  intros Hs. unfold get_bigrams_frequency.
  destruct (range_step_pos 0 (len string - 1) step Hs) as (l & -> & Hl).
  cbn [bind].
  destruct (count_loop string l) with (d := @nil (str * Z))
    as (d & -> & _ & Hnd & _).
  { intros i Hi. apply Hl in Hi. lia. }
  cbn [bind negb]. eexists. split; [reflexivity|].
  apply sorted_reverse_sorted, Hnd. constructor.
Qed.

Lemma ranking_sorted_descending_witness :
  0 < 1
  /\ exists items,
       get_bigrams_frequency [1072; 1073; 1074] 1 true = Ok (Ranking items)
       /\ StronglySorted ranked_desc items.
Proof.
  assert (H : 0 < 1) by lia.
  split; [exact H|]. exact (ranking_sorted_descending _ 1 H).
Defined.

(** C5. Decrypt invertibility safety: every value [a] returned by
    [get_key1] has an inverse modulo [A^2], so decryption under a key
    [(a, b)] never reaches the multiplication by [None], and neither does
    [gnc_keys]. *)
Theorem derived_keys_invertible (x1 x2 y1 y2 : str) (l : list Z) (a : Z) :
  get_key1 x1 x2 y1 y2 = Ok (Some l) -> In a l ->
  (exists inv, get_inverse a (len ALPHABET ^ 2) = Ok (1, Some inv))
  /\ (forall string b,
        decrypt_from_affinity_sub string (a, b) <> Raise TypeError)
  /\ (forall check input_is_yes string check_bw f_size,
        gnc_keys check input_is_yes string check_bw f_size
        <> Raise TypeError).
Proof.
  intros Hk Ha.
  pose proof (get_key1_invertible _ _ _ _ _ _ Hk Ha) as Hg.
  split; [|split].
  - destruct (get_inverse_coprime a (len ALPHABET ^ 2) eq_refl Hg)
      as (inv & Hinv & _). now exists inv.
  - intros string b E. pose proof (decrypt_res (a, b) Hg string) as H.
    rewrite E in H. destruct H as [[H|H] _]; discriminate H.
  - intros check input_is_yes string check_bw f_size E.
    pose proof (gnc_keys_res check input_is_yes string check_bw f_size) as H.
    rewrite E in H. destruct H as [H|H]; discriminate H.
Qed.

Lemma derived_keys_invertible_witness :
  get_key1 [1089; 1090] [1085; 1086] [1072; 1073] [1074; 1075]
  = Ok (Some [480])
  /\ In 480 [480]
  /\ (exists inv, get_inverse 480 (len ALPHABET ^ 2) = Ok (1, Some inv))
  /\ (forall string b,
        decrypt_from_affinity_sub string (480, b) <> Raise TypeError)
  /\ (forall check input_is_yes string check_bw f_size,
        gnc_keys check input_is_yes string check_bw f_size
        <> Raise TypeError).
Proof.
  assert (H1 : get_key1 [1089; 1090] [1085; 1086] [1072; 1073] [1074; 1075]
               = Ok (Some [480])) by reflexivity.
  assert (H2 : In 480 [480]) by (left; reflexivity).
  split; [exact H1|]. split; [exact H2|].
  exact (derived_keys_invertible _ _ _ _ _ _ H1 H2).
Defined.

(** C6. First-match search: on a well-formed ciphertext, [gnc_keys] with
    [check_bw=False] is first-match search over the fixed enumeration
    (permutations of the reference digraphs outermost, adjacent entries of
    the top [f_size] of the frequency table next, values of [get_key1]
    innermost): it submits to the plausibility test the candidates up to
    and including the first plausible one and no later one, and saves that
    key with its decryption; being a function of the ciphertext and the
    configuration, the result is the same on every run. *)
Theorem gnc_keys_first_match
  (check_text_correctness : dict char -> frequency -> Z -> bool)
  (input_is_yes : nat -> str -> bool) (string : str) (f_size : Z) :
  in_alphabet string -> even_length string ->
  exists items,
    get_bigrams_frequency string 1 true = Ok (Ranking items)
    /\ gnc_keys check_text_correctness input_is_yes string false f_size
       = Ok (through_first (plausible check_text_correctness string)
               (enumeration (slice_to items f_size)),
             first_plausible check_text_correctness string
               (enumeration (slice_to items f_size))).
Proof.
  intros Hal Hev.
  destruct (frequency_ranking string) as (items & Hr & Hk).
  exists items. split; [assumption|]. unfold gnc_keys. rewrite Hr.
  cbn [bind].
  rewrite (try_permutations_spec check_text_correctness input_is_yes string
             (conj Hal Hev) _ _ reference_permutations_ok
             (Forall_slice_to _ _ f_size Hk) 0%nat).
  reflexivity.
Qed.

Lemma gnc_keys_first_match_witness :
  in_alphabet [1072; 1073; 1074; 1075]
  /\ even_length [1072; 1073; 1074; 1075]
  /\ exists items,
       get_bigrams_frequency [1072; 1073; 1074; 1075] 1 true
       = Ok (Ranking items)
       /\ gnc_keys (fun _ _ _ => true) (fun _ _ => true)
            [1072; 1073; 1074; 1075] false 5
          = Ok (through_first
                  (plausible (fun _ _ _ => true) [1072; 1073; 1074; 1075])
                  (enumeration (slice_to items 5)),
                first_plausible (fun _ _ _ => true) [1072; 1073; 1074; 1075]
                  (enumeration (slice_to items 5))).
Proof.
  assert (H1 : in_alphabet [1072; 1073; 1074; 1075])
    by (apply in_alphabetb_spec; reflexivity).
  assert (H2 : even_length [1072; 1073; 1074; 1075])
    by (exists 2%nat; reflexivity).
  split; [exact H1|]. split; [exact H2|].
  exact (gnc_keys_first_match (fun _ _ _ => true) (fun _ _ => true) _ 5 H1 H2).
Defined.

(** C7, as stated, fails at [a = 0], [b = 0], [m = 961]: the solver returns
    all 961 residues, and [get_key1] on equal digraphs turns them into 930
    candidate values. *)
Lemma degenerate_congruence_yields_candidates :
  0 mod 961 = 0
  /\ solve_linear_comparison 0 0 961 = Ok (Some (range 0 961))
  /\ exists key_1,
       get_key1 [1089; 1090] [1089; 1090] [1085; 1086] [1085; 1086]
       = Ok (Some key_1)
       /\ length key_1 = 930%nat.
Proof.
  split; [reflexivity|]. split; [vm_compute; reflexivity|].
  eexists. split; [vm_compute; reflexivity|]. vm_compute. reflexivity.
Qed.

(** C7, amended. Degenerate congruence: for [m > 0] and [a = 0 (mod m)],
    with operands that a float holds exactly, [solve_linear_comparison]
    divides by the gcd [m], never by zero; it returns [None] when [m] does
    not divide [b], and all [m] residues [0 .. m - 1] when it does. *)
Theorem solve_linear_comparison_degenerate (a b m : Z) :
  0 < m <= 2 ^ 53 -> (m | a) -> Z.abs a < 2 ^ 53 -> Z.abs b < 2 ^ 53 ->
  solve_linear_comparison a b m
  = Ok (if b mod m =? 0 then Some (range 0 m) else None).
Proof.
  intros Hm Hdiv Ha Hb.
  assert (Hg : Z.gcd a m = m)
    by (rewrite Z.gcd_comm; apply Z.divide_gcd_iff; [lia|assumption]).
  destruct (Z.eqb_spec (b mod m) 0) as [E|E].
  - apply Z.mod_divide in E; [|lia]. destruct E as [b' Hb'].
    assert (Ebm : b / m = b') by (rewrite Hb'; apply Z.div_mul; lia).
    assert (Emm : m / m = 1) by (apply Z.div_same; lia).
    destruct (solve_slow a b m) as (i & [Hi _] & Hs); try assumption.
    + rewrite Hg. destruct (Z.eq_dec m 1); [now right|now left].
    + rewrite Hg. now exists b'.
    + rewrite Hg, Ebm, Emm.
      assert (Z.abs b' * 1 <= Z.abs b' * Z.abs m)
        by (apply Z.mul_le_mono_nonneg_l; lia).
      rewrite <- Z.abs_mul, <- Hb' in *. lia.
    + rewrite Hs, Hg. do 2 f_equal. unfold reduced_solutions.
      rewrite Hg in Hi. rewrite Emm in *. assert (i = 0) as -> by lia.
      rewrite Z.mul_0_r, Z.mod_1_r. apply range_from_one.
  - apply solve_none; [lia|]. rewrite Hg. intros D. apply E.
    apply Z.mod_divide; [lia|assumption].
Qed.

Lemma solve_linear_comparison_degenerate_witness :
  0 < 961 <= 2 ^ 53 /\ (961 | 1922) /\ Z.abs 1922 < 2 ^ 53
  /\ Z.abs 2883 < 2 ^ 53
  /\ solve_linear_comparison 1922 2883 961
     = Ok (if 2883 mod 961 =? 0 then Some (range 0 961) else None).
Proof.
  assert (H1 : 0 < 961 <= 2 ^ 53) by (vm_compute; split; [reflexivity|discriminate]).
  assert (H2 : (961 | 1922)) by (exists 2; reflexivity).
  assert (H3 : Z.abs 1922 < 2 ^ 53) by reflexivity.
  assert (H4 : Z.abs 2883 < 2 ^ 53) by reflexivity.
  repeat (split; [assumption|]).
  exact (solve_linear_comparison_degenerate 1922 2883 961 H1 H2 H3 H4).
Defined.

(** C8, as stated, fails on ['а'], a text of odd length: the search ends
    without a key and without any error. *)
Lemma malformed_input_not_rejected :
  ~ even_length [1072]
  /\ gnc_keys (fun _ _ _ => true) (fun _ _ => true) [1072] false 5
     = Ok ([], None).
Proof.
  split; [|reflexivity]. intros [k Hk]. cbn in Hk. lia.
Qed.

(** C8, amended. Malformed input: [gnc_keys] does not validate its input.
    On a text with a symbol outside the alphabet or of odd length it tests
    and reports no key: either a lookup inside the enumeration raises
    [ValueError] ([ALPHABET.index]) or [IndexError] ([string[i + 1]]), or no
    candidate is derived and the search ends without a key. *)
Theorem gnc_keys_malformed_input
  (check_text_correctness : dict char -> frequency -> Z -> bool)
  (input_is_yes : nat -> str -> bool) (string : str) (check_bw : bool)
  (f_size : Z) :
  ~ in_alphabet string \/ ~ even_length string ->
  gnc_keys check_text_correctness input_is_yes string check_bw f_size
  = Ok ([], None)
  \/ gnc_keys check_text_correctness input_is_yes string check_bw f_size
     = Raise ValueError
  \/ gnc_keys check_text_correctness input_is_yes string check_bw f_size
     = Raise IndexError.
Proof.
  intros Hbad.
  assert (Hn : ~ well_formed string) by (unfold well_formed; tauto).
  pose proof (gnc_keys_res check_text_correctness input_is_yes string
                check_bw f_size) as H.
  destruct (gnc_keys _ _ _ _ _) as [[tested found]|e].
  - left. destruct H as [H|[-> ->]]; [contradiction|reflexivity].
  - right. destruct H as [->| ->]; auto.
Qed.

Lemma gnc_keys_malformed_input_witness :
  (~ in_alphabet [1072] \/ ~ even_length [1072])
  /\ (gnc_keys (fun _ _ _ => true) (fun _ _ => true) [1072] false 5
      = Ok ([], None)
      \/ gnc_keys (fun _ _ _ => true) (fun _ _ => true) [1072] false 5
         = Raise ValueError
      \/ gnc_keys (fun _ _ _ => true) (fun _ _ => true) [1072] false 5
         = Raise IndexError).
Proof.
  assert (H : ~ in_alphabet [1072] \/ ~ even_length [1072])
    by (right; intros [k Hk]; cbn in Hk; lia).
  split; [exact H|].
  exact (gnc_keys_malformed_input (fun _ _ _ => true) (fun _ _ => true)
           [1072] false 5 H).
Defined.

(** C9, as stated, fails on the empty text: the counts sum to [0], not to
    [len(text) - 1 = -1]. *)
Lemma empty_text_count_total :
  exists f, get_bigrams_frequency [] 1 true = Ok f
            /\ total_count f <> len [] - 1.
Proof.
  exists (Ranking []). split; [reflexivity|]. discriminate.
Qed.

(** C9, amended. Frequency count total: for every text, the counts produced
    by [get_bigrams_frequency(text, step=1)], sorted or not, sum to
    [len(text) - 1] when the text is not empty and to [0] when it is. *)
Theorem frequency_count_total (text : str) (sort : bool) :
  exists f, get_bigrams_frequency text 1 sort = Ok f
            /\ total_count f = Z.max 0 (len text - 1).
Proof.
  unfold get_bigrams_frequency.
  destruct (range_step_one (len text - 1)) as (l & -> & Hlen & Hl).
  cbn [bind].
  destruct (count_loop text l) with (d := @nil (str * Z))
    as (d & -> & Ht & _ & _).
  { intros i Hi. apply Hl in Hi. lia. }
  cbn [bind]. change (total []) with 0 in Ht.
  destruct sort; cbn [negb]; eexists; (split; [reflexivity|]);
    cbn [total_count]; rewrite ?total_sorted_reverse; lia.
Qed.

(** C10. Decryption preserves length and alphabet: for every even-length
    text over the alphabet and every key whose first component is
    invertible modulo [A^2], [decrypt_from_affinity_sub] returns a text of
    the same length over the alphabet. *)
Theorem decrypt_preserves_length_and_alphabet (string : str) (k : key) :
  even_length string -> in_alphabet string ->
  Z.gcd (fst k) (len ALPHABET ^ 2) = 1 ->
  exists new_str, decrypt_from_affinity_sub string k = Ok new_str
    /\ length new_str = length string /\ in_alphabet new_str.
Proof.
  intros Hev Hal Hg. rewrite modulus_value in Hg.
  destruct (get_inverse_coprime (fst k) 961 ltac:(lia) Hg) as (inv & _ & Hi).
  revert Hal. revert string Hev.
  apply (pair_induction (fun s => in_alphabet s -> _)).
  - intros _. exists []. repeat split. constructor.
  - intros c0 c1 rest IH Hal.
    inversion Hal as [|? ? Hc0 Hal1]; subst.
    inversion Hal1 as [|? ? Hc1 Hal2]; subst.
    destruct (IH Hal2) as (new_str & Hd & Hl & Hn).
    destruct (alphabet_index_get c0 Hc0) as (i0 & Hi0 & Hr0 & _).
    destruct (alphabet_index_get c1 Hc1) as (i1 & Hi1 & Hr1 & _).
    rewrite (decrypt_block c0 c1 rest k i0 i1 inv Hi0 Hi1 Hi).
    set (x := (inv * (i0 * 31 + i1 - snd k)) mod 961).
    pose proof (Z.mod_pos_bound (inv * (i0 * 31 + i1 - snd k)) 961 ltac:(lia))
      as Hx. fold x in Hx.
    destruct (number_split x Hx) as (Hq & Hr & _).
    destruct (alphabet_get_index _ Hq) as (s0 & -> & Hs0 & _).
    destruct (alphabet_get_index _ Hr) as (s1 & -> & Hs1 & _).
    cbn [bind]. rewrite Hd. cbn [bind].
    exists (s0 :: s1 :: new_str). split; [reflexivity|]. split.
    + cbn. now rewrite Hl.
    + constructor; [assumption|]. constructor; assumption.
Qed.

Lemma decrypt_preserves_length_and_alphabet_witness :
  even_length [1072; 1082; 1086; 1096]
  /\ in_alphabet [1072; 1082; 1086; 1096]
  /\ Z.gcd (fst (7, 3)) (len ALPHABET ^ 2) = 1
  /\ exists new_str,
       decrypt_from_affinity_sub [1072; 1082; 1086; 1096] (7, 3) = Ok new_str
       /\ length new_str = length [1072; 1082; 1086; 1096]
       /\ in_alphabet new_str.
Proof.
  assert (H1 : even_length [1072; 1082; 1086; 1096])
    by (exists 2%nat; reflexivity).
  assert (H2 : in_alphabet [1072; 1082; 1086; 1096])
    by (apply in_alphabetb_spec; reflexivity).
  assert (H3 : Z.gcd (fst (7, 3)) (len ALPHABET ^ 2) = 1) by reflexivity.
  split; [exact H1|]. split; [exact H2|]. split; [exact H3|].
  exact (decrypt_preserves_length_and_alphabet _ _ H1 H2 H3).
Defined.

(** * Further properties of the code *)

(** ** Euclid's algorithm on all integers *)

Lemma gcd_opp (b n : Z) :
  gcd (- b) (- n)
  = match gcd b n with
    | Ok (d, x) => Ok (- d, x)
    | Raise e => Raise e
    end.
Proof.
  unfold gcd, gcd_fuel. cbn [bits int_number of_literal].
  rewrite Z.abs_opp. apply gcd_loop_opp.
Qed.

Lemma gcd_negative (b n : Z) :
  n < 0 ->
  exists x, gcd b n = Ok (- Z.gcd b n, x) /\ (n | - Z.gcd b n - x * b).
Proof.
  intros Hn. destruct (gcd_int_spec (- b) (- n) ltac:(lia)) as (x & Hx & Hd).
  exists x. rewrite <- (Z.opp_involutive b) at 1.
  rewrite <- (Z.opp_involutive n) at 1. rewrite gcd_opp, Hx.
  rewrite Z.gcd_opp_l, Z.gcd_opp_r in *. split; [reflexivity|].
  destruct Hd as [k Hk]. exists k. lia.
Qed.

Lemma get_inverse_zero_modulus (a : Z) :
  get_inverse a 0
  = if a =? 1 then Raise ZeroDivisionError else Ok (a, None).
Proof.
  unfold get_inverse. change (gcd a 0) with (@Ok (Z * Z) (a, 1)).
  cbn [bind eq_int int_number modulo]. now destruct (a =? 1).
Qed.

Lemma StronglySorted_range (lo hi : Z) : StronglySorted Z.lt (range lo hi).
Proof.
  unfold range. generalize (Z.to_nat (hi - lo)) as n. intros n.
  assert (H : forall s, StronglySorted Z.lt
                          (map (fun k => lo + Z.of_nat k) (seq s n))).
  { induction n as [|n IH]; intros s; cbn [seq map]; constructor.
    - apply IH.
    - apply Forall_forall. intros x Hx. apply in_map_iff in Hx.
      destruct Hx as (k & <- & Hk). apply in_seq in Hk. lia. }
  apply H.
Qed.

Lemma StronglySorted_map_lt (f : Z -> Z) (l : list Z) :
  (forall x y, x < y -> f x < f y) ->
  StronglySorted Z.lt l -> StronglySorted Z.lt (map f l).
Proof.
  intros Hf. induction 1 as [|x l Hs IH Hall]; cbn [map]; constructor.
  - assumption.
  - rewrite Forall_forall in *. intros y Hy. apply in_map_iff in Hy.
    destruct Hy as (z & <- & Hz). auto.
Qed.

Lemma reduced_solutions_sorted (b m d i : Z) :
  0 < m / d -> StronglySorted Z.lt (reduced_solutions b m d i).
Proof.
  intros Hm. unfold reduced_solutions.
  apply StronglySorted_map_lt; [|apply StronglySorted_range].
  intros x y Hxy.
  assert ((x - 1) * (m / d) < (y - 1) * (m / d))
    by (apply Z.mul_lt_mono_pos_r; lia).
  lia.
Qed.

(** The list built by [solve_linear_comparison] when the operands are held
    exactly, in either branch. *)
Lemma solve_shape (a b m : Z) :
  0 < m < 2 ^ 26 -> Z.abs a < 2 ^ 53 -> Z.abs b < 2 ^ 26 ->
  (Z.gcd a m | b) ->
  exists i, is_inverse (m / Z.gcd a m) (a / Z.gcd a m) i
    /\ solve_linear_comparison a b m
       = Ok (Some (reduced_solutions b m (Z.gcd a m) i)).
Proof.
  intros Hm Ha Hb Hdiv.
  pose proof (gcd_pos a m (proj1 Hm)) as Hd.
  assert (Hm53 : 2 ^ 26 < 2 ^ 53) by (apply Z.pow_lt_mono_r; lia).
  destruct (Z.gcd_divide_r a m) as [m' Hm'].
  assert (Emd : m / Z.gcd a m = m') by (rewrite Hm' at 1; apply Z.div_mul; lia).
  destruct (Z.eq_dec (Z.gcd a m) 1) as [E|E];
    [destruct (Z.eq_dec m 1) as [E1|E1]|].
  - apply solve_slow; try lia; try assumption.
    subst m. rewrite E, !Z.div_1_r. lia.
  - destruct (get_inverse_coprime a m (proj1 Hm) E) as (i & _ & Hi).
    exists i. rewrite E, !Z.div_1_r. split; [assumption|].
    rewrite reduced_solutions_coprime. apply solve_fast; [lia|assumption].
  - apply solve_slow; try lia; try assumption.
    destruct Hdiv as [b' Hb'].
    assert (Ebd : b / Z.gcd a m = b') by (rewrite Hb'; apply Z.div_mul; lia).
    rewrite Ebd, Emd.
    assert (Z.abs b' <= Z.abs b).
    { rewrite Hb', Z.abs_mul, (Z.abs_eq (Z.gcd a m)) by lia.
      rewrite <- (Z.mul_1_r (Z.abs b')) at 1.
      apply Z.mul_le_mono_nonneg_l; lia. }
    assert (0 < m' <= m).
    { assert (0 < m') by (apply Z.mul_pos_cancel_r with (Z.gcd a m); lia).
      split; [assumption|]. rewrite Hm'. rewrite <- (Z.mul_1_r m') at 1.
      apply Z.mul_le_mono_nonneg_l; lia. }
    assert (Z.abs b' * m' < 2 ^ 26 * 2 ^ 26).
    { apply Z.le_lt_trans with (Z.abs b' * 2 ^ 26).
      - apply Z.mul_le_mono_nonneg_l; lia.
      - apply Z.mul_lt_mono_pos_r; lia. }
    change (2 ^ 26 * 2 ^ 26) with (2 ^ 52) in *.
    assert (2 ^ 52 < 2 ^ 53) by (apply Z.pow_lt_mono_r; lia). lia.
Qed.

(** ** Modular arithmetic *)

(** X1. [gcd(b, n)] returns for all integers: the first component has the
    magnitude of the greatest common divisor and the sign of [n] (it is [b]
    itself when [n = 0]), and the second component [x] is a Bezout
    coefficient, [d = x * b (mod n)]. *)
Theorem gcd_all_integers (b n : Z) :
  exists d x, gcd b n = Ok (d, x)
    /\ Z.abs d = Z.gcd b n
    /\ (n | d - x * b)
    /\ (0 < n -> 0 < d) /\ (n < 0 -> d < 0) /\ (n = 0 -> d = b /\ x = 1).
Proof.
  destruct (Z.lt_trichotomy n 0) as [Hn|[->|Hn]].
  - destruct (gcd_negative b n Hn) as (x & Hx & Hd).
    pose proof (gcd_pos (- b) (- n) ltac:(lia)) as Hp.
    rewrite Z.gcd_opp_l, Z.gcd_opp_r in Hp.
    exists (- Z.gcd b n), x. rewrite Z.abs_opp, Z.abs_eq by lia.
    repeat split; try assumption; lia.
  - exists b, 1. split; [reflexivity|]. rewrite Z.gcd_0_r.
    repeat split; try lia. exists 0. lia.
  - destruct (gcd_int_spec b n Hn) as (x & Hx & Hd).
    pose proof (gcd_pos b n Hn) as Hp.
    exists (Z.gcd b n), x. rewrite Z.abs_eq by lia.
    repeat split; try assumption; lia.
Qed.

(** X2. For a positive modulus [m], [get_inverse(a, m)] returns
    [(1, inv)] with [0 <= inv < m] and [a * inv = 1 (mod m)] when
    [gcd(a, m) = 1], and [(gcd(a, m), None)] otherwise. *)
Theorem get_inverse_positive_modulus (a m : Z) :
  0 < m ->
  (Z.gcd a m = 1 ->
   exists inv, get_inverse a m = Ok (1, Some inv)
               /\ 0 <= inv < m /\ (a * inv) mod m = 1 mod m)
  /\ (Z.gcd a m <> 1 -> get_inverse a m = Ok (Z.gcd a m, None)).
Proof.
  intros Hm. split.
  - intros Hg. destruct (get_inverse_coprime a m Hm Hg) as (inv & Hi & Hr & Hd).
    exists inv. split; [assumption|]. split; [assumption|].
    destruct Hd as [k Hk].
    replace (a * inv) with (1 + k * m) by lia. apply Z.mod_add. lia.
  - now apply get_inverse_not_coprime.
Qed.

Lemma get_inverse_positive_modulus_witness :
  0 < 961
  /\ (Z.gcd 7 961 = 1 ->
      exists inv, get_inverse 7 961 = Ok (1, Some inv)
                  /\ 0 <= inv < 961 /\ (7 * inv) mod 961 = 1 mod 961)
  /\ (Z.gcd 7 961 <> 1 -> get_inverse 7 961 = Ok (Z.gcd 7 961, None)).
Proof.
  assert (H : 0 < 961) by lia.
  split; [exact H|]. exact (get_inverse_positive_modulus 7 961 H).
Defined.

(** X3. With a modulus that is not positive [get_inverse] never returns an
    inverse: for [m < 0] the first component of [gcd] is [- gcd(a, m)],
    which is never [1], so the result is [(- gcd(a, m), None)]; for
    [m = 0] it is [(a, None)], except that [get_inverse(1, 0)] raises
    [ZeroDivisionError] at [x % b]. *)
Theorem get_inverse_nonpositive_modulus (a m : Z) :
  m <= 0 ->
  get_inverse a m
  = if m =? 0 then if a =? 1 then Raise ZeroDivisionError else Ok (a, None)
    else Ok (- Z.gcd a m, None).
Proof.
  intros Hm. destruct (Z.eqb_spec m 0) as [->|Hm0].
  - apply get_inverse_zero_modulus.
  - destruct (gcd_negative a m ltac:(lia)) as (x & Hx & _).
    unfold get_inverse. rewrite Hx. cbn [bind eq_int int_number].
    pose proof (Z.gcd_nonneg a m).
    destruct (Z.eqb_spec (- Z.gcd a m) 1); [lia|reflexivity].
Qed.

Lemma get_inverse_nonpositive_modulus_witness :
  -7 <= 0
  /\ get_inverse 3 (-7)
     = if -7 =? 0 then if 3 =? 1 then Raise ZeroDivisionError else Ok (3, None)
       else Ok (- Z.gcd 3 (-7), None).
Proof.
  assert (H : -7 <= 0) by lia.
  split; [exact H|]. exact (get_inverse_nonpositive_modulus 3 (-7) H).
Defined.

(** X4. The inverse of the inverse: when [get_inverse(a, m)] returns an
    inverse [i] of a residue [0 <= a < m], then [get_inverse(i, m)]
    returns [a]. *)
Theorem get_inverse_involutive (a m d i : Z) :
  0 <= a < m ->
  get_inverse a m = Ok (d, Some i) ->
  d = 1 /\ get_inverse i m = Ok (1, Some a).
Proof.
  intros Ha Hg. assert (Hm : 0 < m) by lia.
  pose proof (get_inverse_some a m d i Hm Hg) as Hi.
  rewrite (get_inverse_is_inverse m a i Hm Hi) in Hg.
  split; [congruence|].
  apply get_inverse_is_inverse; [assumption|]. now apply is_inverse_sym.
Qed.

Lemma get_inverse_involutive_witness :
  0 <= 7 < 961 /\ get_inverse 7 961 = Ok (1, Some 412)
  /\ 1 = 1 /\ get_inverse 412 961 = Ok (1, Some 7).
Proof.
  assert (H1 : 0 <= 7 < 961) by lia.
  assert (H2 : get_inverse 7 961 = Ok (1, Some 412)) by reflexivity.
  split; [exact H1|]. split; [exact H2|].
  exact (get_inverse_involutive 7 961 1 412 H1 H2).
Defined.

(** X5. Called on floats that hold integers ([0 < m < 2^53],
    [|a| < 2^53]), as the second branch of [solve_linear_comparison] does,
    [gcd] and [get_inverse] return the floats of their integer results: no
    rounding occurs anywhere in Euclid's loop. *)
Theorem get_inverse_on_floats (a m : Z) :
  0 < m < 2 ^ 53 -> Z.abs a < 2 ^ 53 ->
  gcd (Float.FInt a) (Float.FInt m)
  = float_image (fun r => (Float.FInt (fst r), Float.FInt (snd r))) (gcd a m)
  /\ get_inverse (Float.FInt a) (Float.FInt m)
     = float_image (fun r => (Float.FInt (fst r), option_map Float.FInt (snd r)))
         (get_inverse a m).
Proof.
  intros Hm Ha. split.
  - destruct (gcd_total a m) as (d & x & Hg). rewrite Hg. cbn [float_image fst snd].
    now destruct (option_gcd_float a m d x Hm Ha Hg).
  - destruct (get_inverse_total a m (proj1 Hm)) as (d & x & Hg). rewrite Hg.
    cbn [float_image fst snd]. now apply get_inverse_float.
Qed.

Lemma get_inverse_on_floats_witness :
  0 < 31 < 2 ^ 53 /\ Z.abs (-7) < 2 ^ 53
  /\ gcd (Float.FInt (-7)) (Float.FInt 31)
     = float_image (fun r => (Float.FInt (fst r), Float.FInt (snd r)))
         (gcd (-7) 31)
  /\ get_inverse (Float.FInt (-7)) (Float.FInt 31)
     = float_image (fun r => (Float.FInt (fst r), option_map Float.FInt (snd r)))
         (get_inverse (-7) 31).
Proof.
  assert (H1 : 0 < 31 < 2 ^ 53) by (split; reflexivity).
  assert (H2 : Z.abs (-7) < 2 ^ 53) by reflexivity.
  split; [exact H1|]. split; [exact H2|].
  exact (get_inverse_on_floats (-7) 31 H1 H2).
Defined.

(** X6. On operands that floats hold exactly ([0 < m < 2^26],
    [|b| < 2^26], [|a| < 2^53]) [solve_linear_comparison(a, b, m)] never
    raises; it returns [None] exactly when [gcd(a, m)] does not divide [b],
    and otherwise the list of all residues [t] in [0, m) with
    [a * t = b (mod m)]: [gcd(a, m)] of them, in strictly increasing
    order. *)
Theorem solve_linear_comparison_sorted_complete (a b m : Z) :
  0 < m < 2 ^ 26 -> Z.abs a < 2 ^ 53 -> Z.abs b < 2 ^ 26 ->
  match solve_linear_comparison a b m with
  | Ok (Some l) =>
      (Z.gcd a m | b)
      /\ Z.of_nat (length l) = Z.gcd a m
      /\ StronglySorted Z.lt l
      /\ forall t, In t l <-> 0 <= t < m /\ (a * t - b) mod m = 0
  | Ok None => ~ (Z.gcd a m | b)
  | Raise _ => False
  end.
Proof.
  intros Hm Ha Hb.
  pose proof (gcd_pos a m (proj1 Hm)) as Hd.
  destruct (Z.eq_dec (b mod Z.gcd a m) 0) as [Hdiv|Hndiv].
  - apply Z.mod_divide in Hdiv; [|lia].
    destruct (solve_shape a b m Hm Ha Hb Hdiv) as (i & Hi & ->).
    assert (Hmd : 0 < m / Z.gcd a m).
    { destruct (Z.gcd_divide_r a m) as [m' Hm'].
      rewrite Hm' at 1. rewrite Z.div_mul by lia.
      apply Z.mul_pos_cancel_r with (Z.gcd a m); lia. }
    split; [assumption|]. split; [apply length_reduced_solutions; lia|].
    split; [now apply reduced_solutions_sorted|].
    intros t. rewrite (reduced_solutions_spec a b m i (proj1 Hm) Hdiv Hi).
    rewrite (Z.mod_divide (a * t - b) m) by lia. reflexivity.
  - assert (Hn : ~ (Z.gcd a m | b))
      by (intros D; apply Hndiv; apply Z.mod_divide; [lia|assumption]).
    now rewrite (solve_none a b m (proj1 Hm) Hn).
Qed.

Lemma solve_linear_comparison_sorted_complete_witness :
  0 < 961 < 2 ^ 26 /\ Z.abs 62 < 2 ^ 53 /\ Z.abs 93 < 2 ^ 26
  /\ match solve_linear_comparison 62 93 961 with
     | Ok (Some l) =>
         (Z.gcd 62 961 | 93)
         /\ Z.of_nat (length l) = Z.gcd 62 961
         /\ StronglySorted Z.lt l
         /\ forall t, In t l <-> 0 <= t < 961 /\ (62 * t - 93) mod 961 = 0
     | Ok None => ~ (Z.gcd 62 961 | 93)
     | Raise _ => False
     end.
Proof.
  assert (H1 : 0 < 961 < 2 ^ 26) by (split; reflexivity).
  assert (H2 : Z.abs 62 < 2 ^ 53) by reflexivity.
  assert (H3 : Z.abs 93 < 2 ^ 26) by reflexivity.
  split; [exact H1|]. split; [exact H2|]. split; [exact H3|].
  exact (solve_linear_comparison_sorted_complete 62 93 961 H1 H2 H3).
Defined.

(** X7. With modulus [0] the function never returns a solution: for
    [a = 0], and for [a <> 0] dividing [b], it raises [ZeroDivisionError]
    ([b % 0], or [1 % 0.0] inside the float call of [get_inverse]); when
    [a <> 0] does not divide [b] it returns [None]. *)
Theorem solve_linear_comparison_zero_modulus (a b : Z) :
  Z.abs b < 2 ^ 53 ->
  solve_linear_comparison a b 0
  = if (a =? 0) || (b mod a =? 0) then Raise ZeroDivisionError else Ok None.
Proof.
  intros Hb. unfold solve_linear_comparison.
  rewrite get_inverse_zero_modulus.
  destruct (Z.eqb_spec a 1) as [->|Ha1].
  - cbn [bind]. now rewrite Z.mod_1_r.
  - cbn [bind inverse_truthy modulo int_number].
    destruct (Z.eqb_spec a 0) as [|Ha0]; [reflexivity|].
    cbn [bind orb].
    destruct (Z.eqb_spec (b mod a) 0) as [Hr|Hr]; [|reflexivity].
    apply Z.mod_divide in Hr; [|assumption]. destruct Hr as [k Hk].
    assert (Hba : b / a = k) by (rewrite Hk; now apply Z.div_mul).
    assert (Hkb : Z.abs k <= Z.abs b).
    { rewrite Hk, Z.abs_mul. rewrite <- (Z.mul_1_r (Z.abs k)) at 1.
      apply Z.mul_le_mono_nonneg_l; lia. }
    rewrite (int_truediv_exact a a);
      [| assumption | exists 1; lia
       | rewrite Z.div_same by assumption; reflexivity ].
    rewrite (int_truediv_exact b a);
      [| assumption | exists k; lia | rewrite Hba; lia ].
    rewrite (int_truediv_exact 0 a);
      [| assumption | exists 0; lia
       | rewrite Z.div_0_l by assumption; reflexivity ].
    rewrite Z.div_same, Z.div_0_l by assumption. reflexivity.
Qed.

Lemma solve_linear_comparison_zero_modulus_witness :
  Z.abs 12 < 2 ^ 53
  /\ solve_linear_comparison 4 12 0
     = if (4 =? 0) || (12 mod 4 =? 0) then Raise ZeroDivisionError else Ok None.
Proof.
  assert (H : Z.abs 12 < 2 ^ 53) by reflexivity.
  split; [exact H|]. exact (solve_linear_comparison_zero_modulus 4 12 H).
Defined.

(** ** Digraphs and their numbers *)

Lemma digraph_indices (x : str) :
  length x = 2%nat -> in_alphabet x ->
  exists c0 c1 i0 i1,
    x = [c0; c1]
    /\ str_index ALPHABET c0 = Ok i0 /\ str_index ALPHABET c1 = Ok i1
    /\ 0 <= i0 < 31 /\ 0 <= i1 < 31
    /\ str_get ALPHABET i0 = Ok c0 /\ str_get ALPHABET i1 = Ok c1
    /\ bigram_number x = Ok (i0 * 31 + i1).
Proof.
  intros Hl Hal. destruct x as [|c0 [|c1 [|? ?]]]; try discriminate.
  inversion Hal as [|? ? Hc0 Hal1]; subst.
  inversion Hal1 as [|? ? Hc1 _]; subst.
  destruct (alphabet_index_get c0 Hc0) as (i0 & Hi0 & Hr0 & Hg0).
  destruct (alphabet_index_get c1 Hc1) as (i1 & Hi1 & Hr1 & Hg1).
  exists c0, c1, i0, i1. repeat split; try assumption; try lia.
  now apply bigram_number_pair.
Qed.

(** Distinct digraphs over the alphabet have distinct numbers. *)
Lemma bigram_number_inj (x y : str) (X : Z) :
  length x = 2%nat -> in_alphabet x -> length y = 2%nat -> in_alphabet y ->
  bigram_number x = Ok X -> bigram_number y = Ok X -> x = y.
Proof.
  intros Hlx Hax Hly Hay HX HY.
  destruct (digraph_indices x Hlx Hax)
    as (c0 & c1 & i0 & i1 & -> & _ & _ & Hr0 & Hr1 & Hg0 & Hg1 & Hn).
  destruct (digraph_indices y Hly Hay)
    as (d0 & d1 & j0 & j1 & -> & _ & _ & Hs0 & Hs1 & Hh0 & Hh1 & Hm).
  rewrite Hn in HX. rewrite Hm in HY. injection HX as HX. injection HY as HY.
  assert (i0 = j0 /\ i1 = j1) as [-> ->] by lia.
  congruence.
Qed.

(** Decryption of one digraph: the plaintext digraph is the one whose
    number is [inv * (Y - b) mod 961]. *)
Lemma decrypt_digraph (x y : str) (k : key) (X Y inv : Z) :
  length x = 2%nat -> in_alphabet x -> bigram_number x = Ok X ->
  length y = 2%nat -> in_alphabet y -> bigram_number y = Ok Y ->
  is_inverse 961 (fst k) inv ->
  (inv * (Y - snd k)) mod 961 = X ->
  decrypt_from_affinity_sub y k = Ok x.
Proof.
  intros Hlx Hax HX Hly Hay HY Hi HE.
  destruct (digraph_indices x Hlx Hax)
    as (c0 & c1 & i0 & i1 & -> & _ & _ & Hr0 & Hr1 & Hg0 & Hg1 & Hn).
  destruct (digraph_indices y Hly Hay)
    as (d0 & d1 & j0 & j1 & -> & Hj0 & Hj1 & Hs0 & Hs1 & _ & _ & Hm).
  rewrite Hn in HX. rewrite Hm in HY. injection HX as <-. injection HY as <-.
  rewrite (decrypt_block d0 d1 [] k j0 j1 inv Hj0 Hj1 Hi), HE.
  destruct (bigram_split i0 i1 Hr0 Hr1) as (-> & -> & _).
  rewrite Hg0. cbn [bind]. rewrite Hg1. reflexivity.
Qed.

(** The number that a digraph decrypts to. *)
Lemma decrypt_digraph_number (y x : str) (k : key) (Y inv : Z) :
  length y = 2%nat -> in_alphabet y -> bigram_number y = Ok Y ->
  is_inverse 961 (fst k) inv ->
  decrypt_from_affinity_sub y k = Ok x ->
  length x = 2%nat /\ in_alphabet x
  /\ bigram_number x = Ok ((inv * (Y - snd k)) mod 961).
Proof.
  intros Hly Hay HY Hi Hd.
  destruct (digraph_indices y Hly Hay)
    as (d0 & d1 & j0 & j1 & -> & Hj0 & Hj1 & Hs0 & Hs1 & _ & _ & Hm).
  rewrite Hm in HY. injection HY as <-.
  rewrite (decrypt_block d0 d1 [] k j0 j1 inv Hj0 Hj1 Hi) in Hd.
  set (n := (inv * (j0 * 31 + j1 - snd k)) mod 961) in *.
  assert (Hn : 0 <= n < 961) by (apply Z.mod_pos_bound; lia).
  destruct (number_split n Hn) as (Hq & Hr & Hs).
  destruct (alphabet_get_index _ Hq) as (s0 & E0 & Hin0 & Hi0).
  destruct (alphabet_get_index _ Hr) as (s1 & E1 & Hin1 & Hi1).
  rewrite E0 in Hd. cbn [bind] in Hd. rewrite E1 in Hd.
  cbn [bind decrypt_from_affinity_sub] in Hd. injection Hd as <-.
  split; [reflexivity|]. split; [repeat (constructor; try assumption)|].
  rewrite (bigram_number_pair _ _ _ _ Hi0 Hi1). now rewrite Hs.
Qed.

Lemma get_key2_value (x y : str) (a X Y : Z) :
  bigram_number x = Ok X -> bigram_number y = Ok Y ->
  get_key2 x y a = Ok ((Y - a * X) mod 961).
Proof. intros HX HY. unfold get_key2. now rewrite HX, HY. Qed.

(** With [b = (Y - a * X) mod 961] the block [Y] decrypts to [X]. *)
Lemma affine_key2 (a inv X Y : Z) :
  is_inverse 961 a inv -> 0 <= X < 961 ->
  (inv * (Y - (Y - a * X) mod 961)) mod 961 = X.
Proof.
  intros [_ [u Hu]] HX.
  pose proof (Z.div_mod (Y - a * X) 961 ltac:(lia)) as Hdm.
  symmetry. apply Z.mod_unique with (u * X + inv * ((Y - a * X) / 961));
    [lia|].
  assert (E : X * (a * inv - 1) = X * (u * 961)) by (rewrite Hu; ring).
  replace (Y - (Y - a * X) mod 961)
    with (a * X + 961 * ((Y - a * X) / 961)) by lia.
  lia.
Qed.

(** Encrypting the decryption of a block number gives the number back. *)
Lemma affine_forward (a b inv Y : Z) :
  is_inverse 961 a inv -> 0 <= Y < 961 ->
  (a * ((inv * (Y - b)) mod 961) + b) mod 961 = Y.
Proof.
  intros [_ [u Hu]] HY.
  pose proof (Z.div_mod (inv * (Y - b)) 961 ltac:(lia)) as Hdm.
  symmetry.
  apply Z.mod_unique with (u * (Y - b) - a * ((inv * (Y - b)) / 961)); [lia|].
  assert (E : (Y - b) * (a * inv - 1) = (Y - b) * (u * 961))
    by (rewrite Hu; ring).
  assert (E' : a * ((inv * (Y - b)) mod 961)
               = a * (inv * (Y - b)) - a * (961 * ((inv * (Y - b)) / 961)))
    by (rewrite Hdm at 2; ring).
  lia.
Qed.

Lemma not_none_all_none (l : list (option Z)) :
  Forall (fun o => o = None) l -> not_none l = [].
Proof.
  induction 1 as [|o l Ho _ IH]; [reflexivity|]. subst o. exact IH.
Qed.

(** What [get_key1] computes on digraphs over the alphabet: the inverses
    of the solutions [t] of [(Y1 - Y2) * t = X1 - X2 (mod 961)]. *)
Lemma get_key1_shape (x1 x2 y1 y2 : str) (X1 X2 Y1 Y2 : Z) :
  bigram_number x1 = Ok X1 -> bigram_number x2 = Ok X2 ->
  bigram_number y1 = Ok Y1 -> bigram_number y2 = Ok Y2 ->
  (~ (Z.gcd (Y1 - Y2) 961 | X1 - X2)
   /\ get_key1 x1 x2 y1 y2 = Ok None)
  \/ ((Z.gcd (Y1 - Y2) 961 | X1 - X2)
      /\ exists l, get_key1 x1 x2 y1 y2 = Ok (Some l)
           /\ forall a, In a l <->
                exists t, 0 <= t < 961
                          /\ (961 | (Y1 - Y2) * t - (X1 - X2))
                          /\ is_inverse 961 t a).
Proof.
  intros H1 H2 H3 H4.
  pose proof (bigram_number_res x1) as B1. rewrite H1 in B1.
  pose proof (bigram_number_res x2) as B2. rewrite H2 in B2.
  pose proof (bigram_number_res y1) as B3. rewrite H3 in B3.
  pose proof (bigram_number_res y2) as B4. rewrite H4 in B4.
  unfold get_key1. rewrite H1, H2, H3, H4. cbn [bind].
  rewrite modulus_value.
  destruct (solve_961 (Y1 - Y2) (X1 - X2)) as [[Hn ->]|(Hd & l & -> & Hl)];
    try lia; cbn [bind]; [now left|].
  right. split; [assumption|].
  destruct (mapM_total (fun i => '(_, x) <- get_inverse i 961 ;; Ok x) l)
    as (inverses & Hinv).
  { intros i _. destruct (get_inverse_total i 961 ltac:(lia)) as (d & x & ->).
    now exists x. }
  rewrite Hinv. cbn [bind]. eexists. split; [reflexivity|].
  intros a. rewrite in_not_none. split.
  - intros Hin. destruct (mapM_in _ _ _ Hinv _ Hin) as (t & Ht & Hg).
    exists t. apply Hl in Ht. destruct Ht as [Ht Hdiv].
    split; [assumption|]. split; [assumption|].
    destruct (get_inverse t 961) as [[d x]|] eqn:Eg; cbn [bind] in Hg;
      [|discriminate].
    injection Hg as ->. eapply get_inverse_some; [|exact Eg]. lia.
  - intros (t & Ht & Hdiv & Hi).
    eapply mapM_in_ok; [exact Hinv|apply Hl; split; eassumption|].
    cbv beta. now rewrite (get_inverse_is_inverse 961 t a) by (assumption || lia).
Qed.

(** Decryption followed by the specification's encryption is the
    identity. *)
Lemma encrypt_decrypt (k : key) :
  Z.gcd (fst k) (len ALPHABET ^ 2) = 1 ->
  forall c p, decrypt_from_affinity_sub c k = Ok p -> encrypt p k = Ok c.
Proof.
  intros Hg. rewrite modulus_value in Hg.
  destruct (get_inverse_coprime (fst k) 961 ltac:(lia) Hg) as (inv & _ & Hi).
  apply (list_ind2 (fun c => forall p, decrypt_from_affinity_sub c k = Ok p
                                       -> encrypt p k = Ok c)).
  - intros p [= <-]. reflexivity.
  - intros c p. cbn [decrypt_from_affinity_sub].
    destruct (str_index ALPHABET c); discriminate.
  - intros c0 c1 rest IH p.
    pose proof (str_index_res c0) as Hc0.
    destruct (str_index ALPHABET c0) as [i0|] eqn:E0.
    2:{ cbn [decrypt_from_affinity_sub]. rewrite E0. discriminate. }
    pose proof (str_index_res c1) as Hc1.
    destruct (str_index ALPHABET c1) as [i1|] eqn:E1.
    2:{ cbn [decrypt_from_affinity_sub]. rewrite E0. cbn [bind].
        rewrite E1. discriminate. }
    destruct Hc0 as [Hr0 Hin0], Hc1 as [Hr1 Hin1].
    rewrite (decrypt_block c0 c1 rest k i0 i1 inv E0 E1 Hi).
    destruct (bigram_split i0 i1 Hr0 Hr1) as (Eq & Er & HY).
    set (Y := i0 * 31 + i1) in *.
    set (n := (inv * (Y - snd k)) mod 961).
    assert (Hn : 0 <= n < 961) by (apply Z.mod_pos_bound; lia).
    destruct (number_split n Hn) as (Hq & Hr & Hs).
    destruct (alphabet_get_index _ Hq) as (s0 & -> & _ & Hi0).
    destruct (alphabet_get_index _ Hr) as (s1 & -> & _ & Hi1).
    cbn [bind].
    destruct (decrypt_from_affinity_sub rest k) as [p'|]; cbn [bind];
      [|discriminate].
    intros [= <-]. cbn [encrypt].
    rewrite (encrypt_block s0 s1 k _ _ Hi0 Hi1), Hs.
    unfold n. rewrite (affine_forward _ _ _ _ Hi HY).
    unfold number_to_bigram. rewrite len_ALPHABET, Eq, Er.
    destruct (alphabet_index_get c0 Hin0) as (j0 & Hj0 & _ & Hg0).
    destruct (alphabet_index_get c1 Hin1) as (j1 & Hj1 & _ & Hg1).
    assert (j0 = i0) as -> by congruence.
    assert (j1 = i1) as -> by congruence.
    rewrite Hg0. cbn [bind]. rewrite Hg1. cbn [bind].
    rewrite (IH p' eq_refl). reflexivity.
Qed.

(** ** Key derivation and decryption *)

(** X8. [get_key2] completes the key: for digraphs [x], [y] over the
    alphabet and an invertible [a], the value [b = get_key2(x, y, a)] is a
    residue modulo [A^2] and the key [(a, b)] decrypts [y] to [x]. *)
Theorem get_key2_decrypts (x y : str) (a : Z) :
  length x = 2%nat -> in_alphabet x -> length y = 2%nat -> in_alphabet y ->
  Z.gcd a (len ALPHABET ^ 2) = 1 ->
  exists b, get_key2 x y a = Ok b
            /\ 0 <= b < len ALPHABET ^ 2
            /\ decrypt_from_affinity_sub y (a, b) = Ok x.
Proof.
  intros Hlx Hax Hly Hay Hg. rewrite modulus_value in *.
  destruct (get_inverse_coprime a 961 ltac:(lia) Hg) as (inv & _ & Hi).
  destruct (bigram_number_in_alphabet x Hlx Hax) as (X & HX & HrX).
  destruct (bigram_number_in_alphabet y Hly Hay) as (Y & HY & HrY).
  exists ((Y - a * X) mod 961).
  split; [now apply get_key2_value|].
  split; [apply Z.mod_pos_bound; lia|].
  apply (decrypt_digraph x y _ X Y inv); try assumption.
  cbn [snd]. now apply affine_key2.
Qed.

Lemma get_key2_decrypts_witness :
  length [1089; 1090] = 2%nat /\ in_alphabet [1089; 1090]
  /\ length [1072; 1103] = 2%nat /\ in_alphabet [1072; 1103]
  /\ Z.gcd 7 (len ALPHABET ^ 2) = 1
  /\ exists b, get_key2 [1089; 1090] [1072; 1103] 7 = Ok b
               /\ 0 <= b < len ALPHABET ^ 2
               /\ decrypt_from_affinity_sub [1072; 1103] (7, b)
                  = Ok [1089; 1090].
Proof.
  assert (H1 : length [1089; 1090] = 2%nat) by reflexivity.
  assert (H2 : in_alphabet [1089; 1090]) by (apply in_alphabetb_spec; reflexivity).
  assert (H3 : length [1072; 1103] = 2%nat) by reflexivity.
  assert (H4 : in_alphabet [1072; 1103]) by (apply in_alphabetb_spec; reflexivity).
  assert (H5 : Z.gcd 7 (len ALPHABET ^ 2) = 1) by reflexivity.
  split; [exact H1|]. split; [exact H2|]. split; [exact H3|].
  split; [exact H4|]. split; [exact H5|].
  exact (get_key2_decrypts _ _ _ H1 H2 H3 H4 H5).
Defined.

(** X9. [get_key2] recovers the second key element: if an invertible key
    [(a, b)] decrypts the alphabet digraph [y] to [x], then
    [get_key2(x, y, a)] is [b mod A^2]. *)
Theorem get_key2_recovers_b (x y : str) (a b : Z) :
  length y = 2%nat -> in_alphabet y ->
  Z.gcd a (len ALPHABET ^ 2) = 1 ->
  decrypt_from_affinity_sub y (a, b) = Ok x ->
  get_key2 x y a = Ok (b mod len ALPHABET ^ 2).
Proof.
  intros Hly Hay Hg Hd. rewrite modulus_value in *.
  destruct (get_inverse_coprime a 961 ltac:(lia) Hg) as (inv & _ & Hi).
  destruct (bigram_number_in_alphabet y Hly Hay) as (Y & HY & HrY).
  destruct (decrypt_digraph_number y x (a, b) Y inv Hly Hay HY Hi Hd)
    as (_ & _ & HX).
  cbn [snd] in HX. rewrite (get_key2_value x y a _ Y HX HY). f_equal.
  destruct Hi as [_ [u Hu]].
  pose proof (Z.div_mod (inv * (Y - b)) 961 ltac:(lia)) as Hdm.
  assert (E : (Y - b) * (a * inv - 1) = (Y - b) * (u * 961))
    by (rewrite Hu; ring).
  assert (E' : a * ((inv * (Y - b)) mod 961)
               = a * (inv * (Y - b)) - a * (961 * ((inv * (Y - b)) / 961)))
    by (rewrite Hdm at 2; ring).
  replace (Y - a * ((inv * (Y - b)) mod 961))
    with (b + (a * ((inv * (Y - b)) / 961) - u * (Y - b)) * 961) by lia.
  apply Z.mod_add. lia.
Qed.

Lemma get_key2_recovers_b_witness :
  length [1072; 1103] = 2%nat /\ in_alphabet [1072; 1103]
  /\ Z.gcd 7 (len ALPHABET ^ 2) = 1
  /\ decrypt_from_affinity_sub [1072; 1103] (7, 1000) = Ok [1076; 1084]
  /\ get_key2 [1076; 1084] [1072; 1103] 7 = Ok (1000 mod len ALPHABET ^ 2).
Proof.
  assert (H1 : length [1072; 1103] = 2%nat) by reflexivity.
  assert (H2 : in_alphabet [1072; 1103]) by (apply in_alphabetb_spec; reflexivity).
  assert (H3 : Z.gcd 7 (len ALPHABET ^ 2) = 1) by reflexivity.
  assert (H4 : decrypt_from_affinity_sub [1072; 1103] (7, 1000)
               = Ok [1076; 1084]) by reflexivity.
  split; [exact H1|]. split; [exact H2|]. split; [exact H3|].
  split; [exact H4|].
  exact (get_key2_recovers_b _ _ _ _ H1 H2 H3 H4).
Defined.

Lemma is_inverse_mod (a inv : Z) :
  is_inverse 961 a inv -> is_inverse 961 (a mod 961) inv.
Proof.
  intros [Hr [u Hu]]. split; [assumption|].
  pose proof (Z.div_mod a 961 ltac:(lia)) as Hdm.
  exists (u - inv * (a / 961)).
  assert (E : a mod 961 * inv = a * inv - 961 * (a / 961) * inv)
    by (rewrite Hdm at 2; ring).
  lia.
Qed.

(** [get_inverse] sees its first argument only through its residue, as far
    as the inverse goes. *)
Lemma get_inverse_mod (a : Z) :
  exists d d' inv, get_inverse a 961 = Ok (d, inv)
                   /\ get_inverse (a mod 961) 961 = Ok (d', inv).
Proof.
  destruct (Z.eq_dec (Z.gcd a 961) 1) as [E|E].
  - destruct (get_inverse_coprime a 961 ltac:(lia) E) as (inv & Hg & Hi).
    exists 1, 1, (Some inv). split; [assumption|].
    apply get_inverse_is_inverse; [lia|]. now apply is_inverse_mod.
  - exists (Z.gcd a 961), (Z.gcd (a mod 961) 961), None.
    split; [now apply get_inverse_not_coprime|].
    apply get_inverse_not_coprime; [lia|].
    rewrite Z.gcd_mod, Z.gcd_comm by lia. assumption.
Qed.

(** X10. [get_key1] is sound and complete on digraphs over the alphabet:
    it never raises, its list holds exactly the residues [a] that are
    invertible modulo [A^2] and satisfy [a * (X1 - X2) = Y1 - Y2 (mod A^2)]
    for the numbers of the four digraphs, and it returns [None] only when no
    invertible [a] satisfies the congruence. *)
Theorem get_key1_sound_complete (x1 x2 y1 y2 : str) (X1 X2 Y1 Y2 : Z) :
  bigram_number x1 = Ok X1 -> bigram_number x2 = Ok X2 ->
  bigram_number y1 = Ok Y1 -> bigram_number y2 = Ok Y2 ->
  match get_key1 x1 x2 y1 y2 with
  | Ok (Some l) =>
      forall a, In a l <->
                0 <= a < len ALPHABET ^ 2
                /\ Z.gcd a (len ALPHABET ^ 2) = 1
                /\ (a * (X1 - X2) - (Y1 - Y2)) mod len ALPHABET ^ 2 = 0
  | Ok None =>
      forall a, Z.gcd a (len ALPHABET ^ 2) = 1 ->
                (a * (X1 - X2) - (Y1 - Y2)) mod len ALPHABET ^ 2 <> 0
  | Raise _ => False
  end.
Proof.
  intros H1 H2 H3 H4. rewrite modulus_value.
  assert (Hfwd : forall a t, (961 | (Y1 - Y2) * t - (X1 - X2)) ->
                             is_inverse 961 t a ->
                             (961 | a * (X1 - X2) - (Y1 - Y2))).
  { intros a t [v Hv] [_ [u Hu]].
    exists ((Y1 - Y2) * u - a * v).
    assert (E1 : a * ((Y1 - Y2) * t - (X1 - X2)) = a * (v * 961))
      by (rewrite Hv; ring).
    assert (E2 : (Y1 - Y2) * (t * a - 1) = (Y1 - Y2) * (u * 961))
      by (rewrite Hu; ring).
    lia. }
  assert (Hbwd : forall a t, (961 | a * (X1 - X2) - (Y1 - Y2)) ->
                             is_inverse 961 a t ->
                             (961 | (Y1 - Y2) * t - (X1 - X2))).
  { intros a t [v Hv] [_ [u Hu]].
    exists (- t * v + (X1 - X2) * u).
    assert (E1 : t * (a * (X1 - X2) - (Y1 - Y2)) = t * (v * 961))
      by (rewrite Hv; ring).
    assert (E2 : (X1 - X2) * (a * t - 1) = (X1 - X2) * (u * 961))
      by (rewrite Hu; ring).
    lia. }
  destruct (get_key1_shape x1 x2 y1 y2 X1 X2 Y1 Y2 H1 H2 H3 H4)
    as [[Hn ->]|(Hd & l & -> & Hl)].
  - intros a Hg Hz. apply Hn. apply Z.mod_divide in Hz; [|lia].
    destruct (get_inverse_coprime a 961 ltac:(lia) Hg) as (t & _ & Ht).
    pose proof (Hbwd a t Hz Ht) as [v Hv].
    destruct (Z.gcd_divide_l (Y1 - Y2) 961) as [p Hp].
    destruct (Z.gcd_divide_r (Y1 - Y2) 961) as [q Hq].
    exists (p * t - v * q).
    transitivity ((Y1 - Y2) * t - v * 961); [lia|].
    rewrite Hp at 1. rewrite Hq at 2. ring.
  - intros a. rewrite Hl. rewrite (Z.mod_divide _ 961) by lia. split.
    + intros (t & Ht & Hdiv & Hi). split; [apply Hi|].
      split; [eapply is_inverse_coprime_inv, Hi|]. eapply Hfwd; eassumption.
    + intros (Ha & Hg & Hdiv).
      destruct (get_inverse_coprime a 961 ltac:(lia) Hg) as (t & _ & Ht).
      exists t. split; [apply Ht|]. split; [eapply Hbwd; eassumption|].
      now apply is_inverse_sym.
Qed.

Lemma get_key1_sound_complete_witness :
  bigram_number [1089; 1090] = Ok 545 /\ bigram_number [1085; 1086] = Ok 417
  /\ bigram_number [1072; 1103] = Ok 30 /\ bigram_number [1073; 1074] = Ok 33
  /\ match get_key1 [1089; 1090] [1085; 1086] [1072; 1103] [1073; 1074] with
     | Ok (Some l) =>
         forall a, In a l <->
                   0 <= a < len ALPHABET ^ 2
                   /\ Z.gcd a (len ALPHABET ^ 2) = 1
                   /\ (a * (545 - 417) - (30 - 33)) mod len ALPHABET ^ 2 = 0
     | Ok None =>
         forall a, Z.gcd a (len ALPHABET ^ 2) = 1 ->
                   (a * (545 - 417) - (30 - 33)) mod len ALPHABET ^ 2 <> 0
     | Raise _ => False
     end.
Proof.
  assert (H1 : bigram_number [1089; 1090] = Ok 545) by reflexivity.
  assert (H2 : bigram_number [1085; 1086] = Ok 417) by reflexivity.
  assert (H3 : bigram_number [1072; 1103] = Ok 30) by reflexivity.
  assert (H4 : bigram_number [1073; 1074] = Ok 33) by reflexivity.
  split; [exact H1|]. split; [exact H2|]. split; [exact H3|].
  split; [exact H4|].
  exact (get_key1_sound_complete _ _ _ _ _ _ _ _ H1 H2 H3 H4).
Defined.

(** X11. Every key that [get_key1] and [get_key2] derive from two
    correspondences [x1 -> y1], [x2 -> y2] of digraphs over the alphabet is
    consistent with both: [decrypt_from_affinity_sub] under that key maps
    [y1] to [x1] and [y2] to [x2]. *)
Theorem derived_key_decrypts_both (x1 x2 y1 y2 : str) (l : list Z) (a : Z) :
  length x1 = 2%nat -> in_alphabet x1 -> length x2 = 2%nat -> in_alphabet x2 ->
  length y1 = 2%nat -> in_alphabet y1 -> length y2 = 2%nat -> in_alphabet y2 ->
  get_key1 x1 x2 y1 y2 = Ok (Some l) -> In a l ->
  exists b, get_key2 x1 y1 a = Ok b
            /\ decrypt_from_affinity_sub y1 (a, b) = Ok x1
            /\ decrypt_from_affinity_sub y2 (a, b) = Ok x2.
Proof.
  intros Hl1 Ha1 Hl2 Ha2 Hl3 Ha3 Hl4 Ha4 Hk Hin.
  destruct (bigram_number_in_alphabet x1 Hl1 Ha1) as (X1 & HX1 & Hr1).
  destruct (bigram_number_in_alphabet x2 Hl2 Ha2) as (X2 & HX2 & Hr2).
  destruct (bigram_number_in_alphabet y1 Hl3 Ha3) as (Y1 & HY1 & Hr3).
  destruct (bigram_number_in_alphabet y2 Hl4 Ha4) as (Y2 & HY2 & Hr4).
  destruct (get_key1_shape x1 x2 y1 y2 X1 X2 Y1 Y2 HX1 HX2 HY1 HY2)
    as [[_ E]|(_ & l' & E & Hl')]; rewrite E in Hk; [discriminate|].
  injection Hk as <-. apply Hl' in Hin. destruct Hin as (t & Ht & Hdiv & Hi).
  assert (Hi' : is_inverse 961 a t) by (now apply is_inverse_sym).
  exists ((Y1 - a * X1) mod 961).
  split; [now apply get_key2_value|]. split.
  - apply (decrypt_digraph x1 y1 _ X1 Y1 t); try assumption.
    cbn [snd]. now apply affine_key2.
  - apply (decrypt_digraph x2 y2 _ X2 Y2 t); try assumption.
    cbn [snd]. destruct Hdiv as [v Hv]. destruct Hi' as [_ [u Hu]].
    pose proof (Z.div_mod (Y1 - a * X1) 961 ltac:(lia)) as Hdm.
    symmetry.
    apply Z.mod_unique with (u * X1 - v + t * ((Y1 - a * X1) / 961)); [lia|].
    assert (E1 : X1 * (a * t - 1) = X1 * (u * 961)) by (rewrite Hu; ring).
    replace (Y2 - (Y1 - a * X1) mod 961)
      with (a * X1 - (Y1 - Y2) + 961 * ((Y1 - a * X1) / 961)) by lia.
    transitivity (X1 * (a * t) - (Y1 - Y2) * t
                  + 961 * (t * ((Y1 - a * X1) / 961))); [ring|].
    lia.
Qed.

Lemma derived_key_decrypts_both_witness :
  length [1089; 1090] = 2%nat /\ in_alphabet [1089; 1090]
  /\ length [1085; 1086] = 2%nat /\ in_alphabet [1085; 1086]
  /\ length [1072; 1103] = 2%nat /\ in_alphabet [1072; 1103]
  /\ length [1073; 1074] = 2%nat /\ in_alphabet [1073; 1074]
  /\ get_key1 [1089; 1090] [1085; 1086] [1072; 1103] [1073; 1074]
     = Ok (Some [503])
  /\ In 503 [503]
  /\ exists b, get_key2 [1089; 1090] [1072; 1103] 503 = Ok b
       /\ decrypt_from_affinity_sub [1072; 1103] (503, b) = Ok [1089; 1090]
       /\ decrypt_from_affinity_sub [1073; 1074] (503, b) = Ok [1085; 1086].
Proof.
  assert (H1 : length [1089; 1090] = 2%nat) by reflexivity.
  assert (H2 : in_alphabet [1089; 1090]) by (apply in_alphabetb_spec; reflexivity).
  assert (H3 : length [1085; 1086] = 2%nat) by reflexivity.
  assert (H4 : in_alphabet [1085; 1086]) by (apply in_alphabetb_spec; reflexivity).
  assert (H5 : length [1072; 1103] = 2%nat) by reflexivity.
  assert (H6 : in_alphabet [1072; 1103]) by (apply in_alphabetb_spec; reflexivity).
  assert (H7 : length [1073; 1074] = 2%nat) by reflexivity.
  assert (H8 : in_alphabet [1073; 1074]) by (apply in_alphabetb_spec; reflexivity).
  assert (H9 : get_key1 [1089; 1090] [1085; 1086] [1072; 1103] [1073; 1074]
               = Ok (Some [503])) by (vm_compute; reflexivity).
  assert (H10 : In 503 [503]) by (left; reflexivity).
  split; [exact H1|]. split; [exact H2|]. split; [exact H3|].
  split; [exact H4|]. split; [exact H5|]. split; [exact H6|].
  split; [exact H7|]. split; [exact H8|]. split; [exact H9|].
  split; [exact H10|].
  exact (derived_key_decrypts_both _ _ _ _ _ _ H1 H2 H3 H4 H5 H6 H7 H8 H9 H10).
Defined.

(** X12. A repeated digraph among the arguments of [get_key1] (digraphs
    over the alphabet): with the same plaintext digraph twice and two
    different ciphertext digraphs it returns the empty list, and with the same
    ciphertext digraph twice and two different plaintext digraphs it returns
    [None]. No affine key maps one digraph to two, or two to one. *)
Theorem get_key1_repeated_digraph (x1 x2 y1 y2 : str) :
  length x1 = 2%nat -> in_alphabet x1 -> length x2 = 2%nat -> in_alphabet x2 ->
  length y1 = 2%nat -> in_alphabet y1 -> length y2 = 2%nat -> in_alphabet y2 ->
  (x1 = x2 -> y1 <> y2 -> get_key1 x1 x2 y1 y2 = Ok (Some []))
  /\ (y1 = y2 -> x1 <> x2 -> get_key1 x1 x2 y1 y2 = Ok None).
Proof.
  intros Hl1 Ha1 Hl2 Ha2 Hl3 Ha3 Hl4 Ha4.
  destruct (bigram_number_in_alphabet x1 Hl1 Ha1) as (X1 & HX1 & Hr1).
  destruct (bigram_number_in_alphabet x2 Hl2 Ha2) as (X2 & HX2 & Hr2).
  destruct (bigram_number_in_alphabet y1 Hl3 Ha3) as (Y1 & HY1 & Hr3).
  destruct (bigram_number_in_alphabet y2 Hl4 Ha4) as (Y2 & HY2 & Hr4).
  destruct (get_key1_shape x1 x2 y1 y2 X1 X2 Y1 Y2 HX1 HX2 HY1 HY2)
    as [[Hn E]|(Hd & l & E & Hl)]; rewrite E; split.
  - intros -> _. exfalso. apply Hn.
    assert (X1 = X2) as -> by congruence. rewrite Z.sub_diag.
    apply Z.divide_0_r.
  - reflexivity.
  - intros -> Hy. assert (X1 = X2) as -> by congruence.
    destruct l as [|a l]; [reflexivity|]. exfalso.
    destruct (proj1 (Hl a) (or_introl eq_refl)) as (t & Ht & Hdiv & Hi).
    rewrite Z.sub_diag, Z.sub_0_r in Hdiv.
    assert (Hg : Z.gcd t 961 = 1) by (eapply is_inverse_coprime, Hi).
    assert (Hdiv' : (961 | Y1 - Y2)).
    { apply Z.gauss with t; [now rewrite Z.mul_comm|].
      now rewrite Z.gcd_comm. }
    destruct Hdiv' as [v Hv]. assert (v = 0) by lia.
    apply Hy. apply (bigram_number_inj y1 y2 Y1); try assumption.
    rewrite HY2. f_equal. lia.
  - intros -> Hx. exfalso. assert (Y1 = Y2) as -> by congruence.
    rewrite Z.sub_diag in Hd. change (Z.gcd 0 961) with 961 in Hd.
    destruct Hd as [v Hv]. assert (v = 0) by lia.
    apply Hx. apply (bigram_number_inj x1 x2 X1); try assumption.
    rewrite HX2. f_equal. lia.
Qed.

Lemma get_key1_repeated_digraph_witness :
  length [1089; 1090] = 2%nat /\ in_alphabet [1089; 1090]
  /\ length [1072; 1103] = 2%nat /\ in_alphabet [1072; 1103]
  /\ length [1073; 1074] = 2%nat /\ in_alphabet [1073; 1074]
  /\ [1072; 1103] <> [1073; 1074]
  /\ get_key1 [1089; 1090] [1089; 1090] [1072; 1103] [1073; 1074]
     = Ok (Some []).
Proof.
  assert (H1 : length [1089; 1090] = 2%nat) by reflexivity.
  assert (H2 : in_alphabet [1089; 1090]) by (apply in_alphabetb_spec; reflexivity).
  assert (H5 : length [1072; 1103] = 2%nat) by reflexivity.
  assert (H6 : in_alphabet [1072; 1103]) by (apply in_alphabetb_spec; reflexivity).
  assert (H7 : length [1073; 1074] = 2%nat) by reflexivity.
  assert (H8 : in_alphabet [1073; 1074]) by (apply in_alphabetb_spec; reflexivity).
  assert (H9 : [1072; 1103] <> [1073; 1074]) by discriminate.
  split; [exact H1|]. split; [exact H2|]. split; [exact H5|].
  split; [exact H6|]. split; [exact H7|]. split; [exact H8|].
  split; [exact H9|].
  exact (proj1 (get_key1_repeated_digraph _ _ _ _ H1 H2 H1 H2 H5 H6 H7 H8)
           eq_refl H9).
Defined.

(** X13. The errors of decryption under an invertible key: a text with a
    symbol outside the alphabet raises [ValueError] ([ALPHABET.index]); a
    text of alphabet symbols and odd length raises [IndexError]
    ([string[i + 1]] past the end); every other text is decrypted. *)
Theorem decrypt_error_cases (k : key) (s : str) :
  Z.gcd (fst k) (len ALPHABET ^ 2) = 1 ->
  match decrypt_from_affinity_sub s k with
  | Ok _ => in_alphabet s /\ even_length s
  | Raise e => (e = ValueError /\ ~ in_alphabet s)
               \/ (e = IndexError /\ in_alphabet s /\ ~ even_length s)
  end.
Proof.
  intros Hg. rewrite modulus_value in Hg.
  destruct (get_inverse_coprime (fst k) 961 ltac:(lia) Hg) as (inv & _ & Hi).
  unfold in_alphabet. revert s. apply list_ind2.
  - cbn. split; [constructor|]. now exists 0%nat.
  - intros c. cbn [decrypt_from_affinity_sub].
    pose proof (str_index_res c) as Hc.
    destruct (str_index ALPHABET c); cbn [bind].
    + right. split; [reflexivity|]. split; [constructor; [tauto|constructor]|].
      intros [n Hn]. cbn in Hn. lia.
    + left. split; [tauto|]. intros H. inversion H; subst. tauto.
  - intros c0 c1 rest IH.
    pose proof (str_index_res c0) as Hc0.
    destruct (str_index ALPHABET c0) as [i0|] eqn:E0.
    2:{ cbn [decrypt_from_affinity_sub]. rewrite E0. cbn [bind].
        left. split; [tauto|]. intros H. inversion H; subst. tauto. }
    pose proof (str_index_res c1) as Hc1.
    destruct (str_index ALPHABET c1) as [i1|] eqn:E1.
    2:{ cbn [decrypt_from_affinity_sub]. rewrite E0. cbn [bind].
        rewrite E1. cbn [bind].
        left. split; [tauto|]. intros H. inversion H as [|? ? _ H']; subst.
        inversion H'; subst. tauto. }
    rewrite (decrypt_block c0 c1 rest k i0 i1 inv E0 E1 Hi).
    set (x := (inv * (i0 * 31 + i1 - snd k)) mod 961).
    pose proof (Z.mod_pos_bound (inv * (i0 * 31 + i1 - snd k)) 961 ltac:(lia))
      as Hx. fold x in Hx.
    destruct (number_split x Hx) as (Hq & Hr & _).
    destruct (alphabet_get_index _ Hq) as (s0 & -> & _).
    destruct (alphabet_get_index _ Hr) as (s1 & -> & _).
    cbn [bind].
    destruct (decrypt_from_affinity_sub rest k); cbn [bind].
    + destruct IH as [Hal Hev]. split.
      * constructor; [tauto|]. constructor; [tauto|assumption].
      * now apply even_length_cons2.
    + destruct IH as [[-> Hn]|(-> & Hal & Hn)].
      * left. split; [reflexivity|]. intros Hal.
        apply Hn. inversion Hal as [|? ? _ H']; subst. now inversion H'.
      * right. split; [reflexivity|]. split.
        -- constructor; [tauto|]. constructor; [tauto|assumption].
        -- intros Hev. apply Hn. now apply even_length_cons2 in Hev.
Qed.

Lemma decrypt_error_cases_witness :
  Z.gcd (fst (7, 3)) (len ALPHABET ^ 2) = 1
  /\ match decrypt_from_affinity_sub [1072; 1082; 1086] (7, 3) with
     | Ok _ => in_alphabet [1072; 1082; 1086] /\ even_length [1072; 1082; 1086]
     | Raise e => (e = ValueError /\ ~ in_alphabet [1072; 1082; 1086])
                  \/ (e = IndexError /\ in_alphabet [1072; 1082; 1086]
                      /\ ~ even_length [1072; 1082; 1086])
     end.
Proof.
  assert (H : Z.gcd (fst (7, 3)) (len ALPHABET ^ 2) = 1) by reflexivity.
  split; [exact H|].
  exact (decrypt_error_cases (7, 3) [1072; 1082; 1086] H).
Defined.

(** X14. A key whose first element is not invertible modulo [A^2]
    decrypts nothing but the empty text: on every text that starts with two
    alphabet symbols the [None] returned by [get_inverse] is multiplied by
    an [int], which raises [TypeError]. *)
Theorem decrypt_noninvertible_key (k : key) (c0 c1 : char) (rest : str) :
  Z.gcd (fst k) (len ALPHABET ^ 2) <> 1 ->
  In c0 ALPHABET -> In c1 ALPHABET ->
  decrypt_from_affinity_sub (c0 :: c1 :: rest) k = Raise TypeError
  /\ decrypt_from_affinity_sub [] k = Ok [].
Proof.
  intros Hg H0 H1. split; [|reflexivity].
  destruct (alphabet_index_get c0 H0) as (i0 & E0 & _).
  destruct (alphabet_index_get c1 H1) as (i1 & E1 & _).
  cbn [decrypt_from_affinity_sub]. rewrite E0. cbn [bind].
  rewrite E1. cbn [bind].
  rewrite modulus_value in *.
  now rewrite (get_inverse_not_coprime (fst k) 961) by (assumption || lia).
Qed.

Lemma decrypt_noninvertible_key_witness :
  Z.gcd (fst (31, 5)) (len ALPHABET ^ 2) <> 1
  /\ In 1072 ALPHABET /\ In 1082 ALPHABET
  /\ decrypt_from_affinity_sub (1072 :: 1082 :: [1086; 1096]) (31, 5)
     = Raise TypeError
  /\ decrypt_from_affinity_sub [] (31, 5) = Ok [].
Proof.
  assert (H1 : Z.gcd (fst (31, 5)) (len ALPHABET ^ 2) <> 1) by discriminate.
  assert (H2 : In 1072 ALPHABET) by (cbn; tauto).
  assert (H3 : In 1082 ALPHABET) by (cbn; tauto).
  split; [exact H1|]. split; [exact H2|]. split; [exact H3|].
  exact (decrypt_noninvertible_key (31, 5) 1072 1082 [1086; 1096] H1 H2 H3).
Defined.

(** X15. Decryption works block by block: for a first part of even
    length, decrypting a concatenation is decrypting the parts one after the
    other and concatenating the results, with the same exception when one of
    them fails. *)
Theorem decrypt_concatenation (k : key) (s1 s2 : str) :
  even_length s1 ->
  decrypt_from_affinity_sub (s1 ++ s2) k
  = (d1 <- decrypt_from_affinity_sub s1 k ;;
     d2 <- decrypt_from_affinity_sub s2 k ;;
     Ok (d1 ++ d2)).
Proof.
  revert s1. apply pair_induction.
  - cbn [app decrypt_from_affinity_sub bind].
    now destruct (decrypt_from_affinity_sub s2 k).
  - intros c0 c1 rest IH. cbn [app decrypt_from_affinity_sub].
    destruct (str_index ALPHABET c0); cbn [bind]; [|reflexivity].
    destruct (str_index ALPHABET c1); cbn [bind]; [|reflexivity].
    destruct (get_inverse (fst k) (len ALPHABET ^ 2)) as [[d [inv|]]|];
      cbn [bind]; try reflexivity.
    destruct (modulo _ _); cbn [bind]; [|reflexivity].
    destruct (str_get ALPHABET _); cbn [bind]; [|reflexivity].
    destruct (str_get ALPHABET _); cbn [bind]; [|reflexivity].
    rewrite IH.
    destruct (decrypt_from_affinity_sub rest k); cbn [bind]; [|reflexivity].
    now destruct (decrypt_from_affinity_sub s2 k).
Qed.

Lemma decrypt_concatenation_witness :
  even_length [1072; 1082]
  /\ decrypt_from_affinity_sub ([1072; 1082] ++ [1086; 1096]) (7, 3)
     = (d1 <- decrypt_from_affinity_sub [1072; 1082] (7, 3) ;;
        d2 <- decrypt_from_affinity_sub [1086; 1096] (7, 3) ;;
        Ok (d1 ++ d2)).
Proof.
  assert (H : even_length [1072; 1082]) by (exists 1%nat; reflexivity).
  split; [exact H|].
  exact (decrypt_concatenation (7, 3) [1072; 1082] [1086; 1096] H).
Defined.

(** X16. Under an invertible key decryption is injective: two ciphertexts
    with the same decryption are equal. *)
Theorem decrypt_injective (k : key) (c c' p : str) :
  Z.gcd (fst k) (len ALPHABET ^ 2) = 1 ->
  decrypt_from_affinity_sub c k = Ok p ->
  decrypt_from_affinity_sub c' k = Ok p ->
  c = c'.
Proof.
  intros Hg H1 H2.
  apply (encrypt_decrypt k Hg) in H1. apply (encrypt_decrypt k Hg) in H2.
  congruence.
Qed.

Lemma decrypt_injective_witness :
  Z.gcd (fst (7, 1000)) (len ALPHABET ^ 2) = 1
  /\ decrypt_from_affinity_sub [1072; 1103] (7, 1000) = Ok [1076; 1084]
  /\ decrypt_from_affinity_sub [1072; 1103] (7, 1000) = Ok [1076; 1084]
  /\ [1072; 1103] = [1072; 1103].
Proof.
  assert (H1 : Z.gcd (fst (7, 1000)) (len ALPHABET ^ 2) = 1) by reflexivity.
  assert (H2 : decrypt_from_affinity_sub [1072; 1103] (7, 1000)
               = Ok [1076; 1084]) by reflexivity.
  split; [exact H1|]. split; [exact H2|]. split; [exact H2|].
  exact (decrypt_injective (7, 1000) _ _ _ H1 H2 H2).
Defined.

(** X17. Decryption sees the key only through its residues modulo [A^2]:
    reducing both key elements changes neither the text returned nor the
    exception raised. *)
Theorem decrypt_key_residue (k : key) (s : str) :
  decrypt_from_affinity_sub s
    (fst k mod len ALPHABET ^ 2, snd k mod len ALPHABET ^ 2)
  = decrypt_from_affinity_sub s k.
Proof.
  destruct (get_inverse_mod (fst k)) as (d & d' & inv & Hg & Hg').
  revert s. apply list_ind2.
  - reflexivity.
  - reflexivity.
  - intros c0 c1 rest IH. cbn [decrypt_from_affinity_sub].
    destruct (str_index ALPHABET c0) as [i0|]; cbn [bind]; [|reflexivity].
    destruct (str_index ALPHABET c1) as [i1|]; cbn [bind]; [|reflexivity].
    rewrite modulus_value in *. cbn [fst snd]. rewrite Hg, Hg'. cbn [bind].
    destruct inv as [inv|]; [|reflexivity].
    cbn [modulo int_number]. cbn [Z.eqb bind].
    assert (E : (inv * (i0 * len ALPHABET + i1 - snd k mod 961)) mod 961
                = (inv * (i0 * len ALPHABET + i1 - snd k)) mod 961).
    { pose proof (Z.div_mod (snd k) 961 ltac:(lia)) as Hdm.
      replace (inv * (i0 * len ALPHABET + i1 - snd k mod 961))
        with (inv * (i0 * len ALPHABET + i1 - snd k)
              + inv * (snd k / 961) * 961) by lia.
      apply Z.mod_add. lia. }
    rewrite E.
    destruct (str_get ALPHABET _); cbn [bind]; [|reflexivity].
    destruct (str_get ALPHABET _); cbn [bind]; [|reflexivity].
    now rewrite IH.
Qed.

(** ** The counting loop as a fold over the digraphs *)

Lemma str_eqb_refl (s : str) : str_eqb s s = true.
Proof. now apply str_eqb_eq. Qed.

Lemma str_eqb_neq (s t : str) : s <> t -> str_eqb s t = false.
Proof.
  intros H. destruct (str_eqb s t) eqn:E; [|reflexivity].
  apply str_eqb_eq in E. contradiction.
Qed.

Lemma dict_get_incr (k k' : str) (d : dict str) :
  dict_get k' (dict_incr str_eqb k d)
  = dict_get k' d + (if str_eqb k' k then 1 else 0).
Proof.
  induction d as [|[k1 v] d IH]; cbn [dict_incr dict_get].
  - now destruct (str_eqb k' k).
  - destruct (str_eqb k k1) eqn:E; cbn [dict_get].
    + apply str_eqb_eq in E. subst k1.
      destruct (str_eqb k' k); lia.
    + destruct (str_eqb k' k1) eqn:E'; [|exact IH].
      apply str_eqb_eq in E'. subst k1.
      destruct (str_eqb k' k) eqn:E''; [|lia].
      apply str_eqb_eq in E''. subst k'. rewrite str_eqb_refl in E.
      discriminate.
Qed.

Lemma in_dict_incr_keys (k k' : str) (d : dict str) :
  In k' (map fst (dict_incr str_eqb k d)) <-> k' = k \/ In k' (map fst d).
Proof.
  rewrite dict_incr_keys.
  destruct (in_dec (list_eq_dec Z.eq_dec) k (map fst d)) as [i|n].
  - split; [auto|]. intros [->|H]; assumption.
  - rewrite in_app_iff. cbn [In]. intuition congruence.
Qed.

Lemma dict_incr_positive (k : str) (d : dict str) :
  Forall (fun e => 1 <= snd e) d ->
  Forall (fun e => 1 <= snd e) (dict_incr str_eqb k d).
Proof.
  induction 1 as [|[k1 v] d Hv Hd IH]; cbn [dict_incr].
  - repeat constructor. cbn. lia.
  - destruct (str_eqb k k1); constructor; cbn [snd] in *; try assumption; lia.
Qed.

Lemma dict_get_in (k : str) (v : Z) (d : dict str) :
  NoDup (map fst d) -> In (k, v) d -> dict_get k d = v.
Proof.
  induction d as [|[k1 v1] d IH]; intros Hnd Hin; [contradiction|].
  inversion Hnd as [|? ? Hni Hnd']; subst. cbn [dict_get].
  destruct Hin as [[= -> ->]|Hin].
  - now rewrite str_eqb_refl.
  - rewrite str_eqb_neq; [auto|]. intros ->. apply Hni.
    exact (in_map fst _ _ Hin).
Qed.

Lemma str_get_nat (s : str) (i : nat) :
  str_get s (Z.of_nat i)
  = match nth_error s i with
    | Some c => Ok c
    | None => Raise IndexError
    end.
Proof.
  unfold str_get, len.
  destruct (Z.ltb_spec (Z.of_nat i) 0) as [|_]; [lia|].
  destruct (Z.leb_spec 0 (Z.of_nat i)) as [_|]; [|lia].
  rewrite Nat2Z.id.
  destruct (Z.ltb_spec (Z.of_nat i) (Z.of_nat (length s))) as [|Hge];
    [reflexivity|].
  cbn [andb]. assert (H : nth_error s i = None) by (apply nth_error_None; lia).
  now rewrite H.
Qed.

Lemma count_bigram_at_nat (s : str) (d : dict str) (i : nat) :
  count_bigram_at s d (Z.of_nat i)
  = match nth_error s i, nth_error s (S i) with
    | Some c0, Some c1 => Ok (dict_incr str_eqb [c0; c1] d)
    | _, _ => Raise IndexError
    end.
Proof.
  unfold count_bigram_at.
  replace (Z.of_nat i + 1) with (Z.of_nat (S i)) by lia.
  rewrite !str_get_nat.
  destruct (nth_error s i); cbn [bind]; [|reflexivity].
  now destruct (nth_error s (S i)).
Qed.

Lemma count_loop_shift (c : char) (s : str) (n : nat) :
  forall a d,
    foldM (count_bigram_at (c :: s)) (map Z.of_nat (seq (S a) n)) d
    = foldM (count_bigram_at s) (map Z.of_nat (seq a n)) d.
Proof.
  induction n as [|n IH]; intros a d; [reflexivity|].
  cbn [seq map foldM]. rewrite !count_bigram_at_nat.
  change (nth_error (c :: s) (S a)) with (nth_error s a).
  change (nth_error (c :: s) (S (S a))) with (nth_error s (S a)).
  destruct (nth_error s a); [|reflexivity].
  destruct (nth_error s (S a)); [|reflexivity].
  cbn [bind]. apply IH.
Qed.

(** The loop of [get_bigrams_frequency] with [step=1] adds the digraphs of
    the text to the table one after the other. *)
Lemma count_loop_fold (s : str) :
  forall d,
    foldM (count_bigram_at s) (map Z.of_nat (seq 0 (length s - 1))) d
    = Ok (fold_left (fun d k => dict_incr str_eqb k d) (bigrams s) d).
Proof.
  induction s as [|c0 s IH]; intros d; [reflexivity|].
  destruct s as [|c1 s]; [reflexivity|].
  replace (length (c0 :: c1 :: s) - 1)%nat with (S (length (c1 :: s) - 1))
    by (cbn [length]; lia).
  cbn [seq map foldM]. rewrite count_bigram_at_nat.
  change (nth_error (c0 :: c1 :: s) 0) with (Some c0).
  change (nth_error (c0 :: c1 :: s) 1) with (Some c1).
  cbn [bind]. rewrite count_loop_shift, IH. reflexivity.
Qed.

Lemma range_step_indices (s : str) :
  range_step 0 (len s - 1) 1
  = Ok (map Z.of_nat (seq 0 (length s - 1))).
Proof.
  unfold range_step, len. cbn [Z.eqb Z.ltb Z.compare].
  rewrite Z.div_1_r.
  replace (Z.to_nat (Z.of_nat (length s) - 1 - 0 + 1 - 1))
    with (length s - 1)%nat by lia.
  f_equal. apply map_ext. intros k. lia.
Qed.

Lemma frequency_table_fold (s : str) :
  get_bigrams_frequency s 1 false
  = Ok (Table (fold_left (fun d k => dict_incr str_eqb k d) (bigrams s) [])).
Proof.
  unfold get_bigrams_frequency.
  rewrite range_step_indices. cbn [bind]. rewrite count_loop_fold.
  reflexivity.
Qed.

Lemma fold_incr_spec (l : list str) :
  forall d,
    let d' := fold_left (fun d k => dict_incr str_eqb k d) l d in
    (forall k, dict_get k d' = dict_get k d + occurrences k l)
    /\ (forall k, In k (map fst d') <-> In k (map fst d) \/ In k l)
    /\ (NoDup (map fst d) -> NoDup (map fst d'))
    /\ (Forall (fun e => 1 <= snd e) d -> Forall (fun e => 1 <= snd e) d').
Proof.
  unfold occurrences.
  induction l as [|x l IH]; intros d; cbn [fold_left count_occ].
  - cbv zeta. split; [intros k; lia|].
    split; [intros k; cbn [In]; tauto|]. split; auto.
  - destruct (IH (dict_incr str_eqb x d)) as (Hg & Hk & Hn & Hp).
    cbv zeta in *. split; [|split; [|split]].
    + intros k. rewrite Hg, dict_get_incr.
      destruct (list_eq_dec Z.eq_dec x k) as [->|Hne].
      * rewrite str_eqb_refl. lia.
      * rewrite str_eqb_neq by congruence. lia.
    + intros k. rewrite Hk, in_dict_incr_keys. cbn [In].
      intuition congruence.
    + intros H. apply Hn. now apply dict_incr_NoDup.
    + intros H. apply Hp. now apply dict_incr_positive.
Qed.

Lemma insert_desc_perm (x : str * Z) (l : list (str * Z)) :
  Permutation (insert_desc x l) (x :: l).
Proof.
  induction l as [|y l IH]; cbn [insert_desc]; [reflexivity|].
  destruct (rank_ltb x y); [|reflexivity].
  rewrite IH. apply perm_swap.
Qed.

Lemma sorted_reverse_perm (l : list (str * Z)) :
  Permutation (sorted_reverse l) l.
Proof.
  induction l as [|x l IH]; [reflexivity|].
  cbn [sorted_reverse fold_right]. fold (sorted_reverse l).
  rewrite insert_desc_perm. now constructor.
Qed.

(** ** Frequency tables *)

(** X18. The table of [get_bigrams_frequency(text, step=1, sort=False)]
    counts occurrences: its keys are pairwise distinct and are exactly the
    digraphs [text[i] + text[i + 1]] that occur in the text, and the count
    stored for a digraph is the number of positions where it occurs (so a
    digraph that does not occur has no entry, and no entry is [0]). *)
Theorem frequency_counts_occurrences (text : str) :
  exists f_dict,
    get_bigrams_frequency text 1 false = Ok (Table f_dict)
    /\ NoDup (map fst f_dict)
    /\ (forall k, In k (map fst f_dict) <-> In k (bigrams text))
    /\ (forall k, dict_get k f_dict = occurrences k (bigrams text))
    /\ (forall k v, In (k, v) f_dict ->
                    v = occurrences k (bigrams text) /\ 1 <= v).
Proof.
  eexists. split; [apply frequency_table_fold|].
  destruct (fold_incr_spec (bigrams text) []) as (Hg & Hk & Hn & Hp).
  cbv zeta in *. split; [apply Hn; constructor|].
  split; [intros k; rewrite Hk; cbn; tauto|].
  split; [intros k; rewrite Hg; reflexivity|].
  intros k v Hin. split.
  - rewrite <- (dict_get_in k v _ (Hn (NoDup_nil _)) Hin), Hg. reflexivity.
  - specialize (Hp (Forall_nil _)). rewrite Forall_forall in Hp.
    exact (Hp _ Hin).
Qed.

(** X19. The two outputs of [get_bigrams_frequency] agree: for every text
    and positive step, the sorted list returned with [sort=True] is a
    permutation of the items of the table returned with [sort=False]; no
    entry is lost, duplicated or changed by the sort. *)
Theorem ranking_permutes_table (text : str) (step : Z) :
  0 < step ->
  exists f_dict items,
    get_bigrams_frequency text step false = Ok (Table f_dict)
    /\ get_bigrams_frequency text step true = Ok (Ranking items)
    /\ Permutation items f_dict
    /\ NoDup (map fst items).
Proof.
  intros Hs. unfold get_bigrams_frequency.
  destruct (range_step_pos 0 (len text - 1) step Hs) as (l & -> & Hl).
  cbn [bind].
  destruct (count_loop text l) with (d := @nil (str * Z))
    as (d & -> & _ & Hn & _).
  { intros i Hi. apply Hl in Hi. lia. }
  cbn [bind negb]. exists d, (sorted_reverse d).
  split; [reflexivity|]. split; [reflexivity|].
  split; [apply sorted_reverse_perm|].
  apply (Permutation_NoDup (l := map fst d)).
  - apply Permutation_map. symmetry. apply sorted_reverse_perm.
  - apply Hn. constructor.
Qed.

Lemma ranking_permutes_table_witness :
  0 < 2
  /\ exists f_dict items,
       get_bigrams_frequency [1072; 1073; 1072; 1073; 1074] 2 false
       = Ok (Table f_dict)
       /\ get_bigrams_frequency [1072; 1073; 1072; 1073; 1074] 2 true
          = Ok (Ranking items)
       /\ Permutation items f_dict
       /\ NoDup (map fst items).
Proof.
  assert (H : 0 < 2) by lia.
  split; [exact H|].
  exact (ranking_permutes_table [1072; 1073; 1072; 1073; 1074] 2 H).
Defined.

(** X20. Steps that are not positive: [step=0] raises [ValueError]
    ([range] refuses it) for every text; with a negative step the range is
    empty for every non-empty text, which gives the empty table or list, and
    for the empty text [range(0, -1, step)] holds the index [0], so
    [string[0]] raises [IndexError]. *)
Theorem frequency_nonpositive_step (text : str) (step : Z) (sort : bool) :
  step <= 0 ->
  get_bigrams_frequency text step sort
  = if step =? 0 then Raise ValueError
    else match text with
         | [] => Raise IndexError
         | _ :: _ => Ok (if sort then Ranking [] else Table [])
         end.
Proof.
  intros Hs. unfold get_bigrams_frequency, range_step.
  destruct (Z.eqb_spec step 0) as [|Hnz]; [reflexivity|].
  destruct (Z.ltb_spec 0 step) as [|_]; [lia|].
  destruct text as [|c text].
  - change (len [] - 1) with (-1).
    replace (0 - -1 - step - 1) with (- step) by lia.
    rewrite Z.div_same by lia. reflexivity.
  - assert (Hq : (0 - (len (c :: text) - 1) - step - 1) / - step <= 0).
    { assert ((0 - (len (c :: text) - 1) - step - 1) / - step < 1); [|lia].
      apply Z.div_lt_upper_bound; [lia|]. unfold len. cbn [length]. lia. }
    replace (Z.to_nat ((0 - (len (c :: text) - 1) - step - 1) / - step))
      with 0%nat by lia.
    cbn [seq map bind foldM]. now destruct sort.
Qed.

Lemma frequency_nonpositive_step_witness :
  -1 <= 0
  /\ get_bigrams_frequency [1072; 1073; 1074] (-1) true
     = if -1 =? 0 then Raise ValueError
       else match [1072; 1073; 1074] with
            | [] => Raise IndexError
            | _ :: _ => Ok (if true then Ranking [] else Table [])
            end.
Proof.
  assert (H : -1 <= 0) by lia.
  split; [exact H|].
  exact (frequency_nonpositive_step [1072; 1073; 1074] (-1) true H).
Defined.

(** ** Invariants of the search *)

Lemma get_key1_residues (x1 x2 y1 y2 : str) (l : list Z) :
  get_key1 x1 x2 y1 y2 = Ok (Some l) ->
  Forall (fun a => 0 <= a < 961 /\ Z.gcd a 961 = 1) l.
Proof.
  unfold get_key1.
  destruct (bigram_number x1) as [X1|]; cbn [bind]; [|discriminate].
  destruct (bigram_number x2) as [X2|]; cbn [bind]; [|discriminate].
  destruct (bigram_number y1) as [Y1|]; cbn [bind]; [|discriminate].
  destruct (bigram_number y2) as [Y2|]; cbn [bind]; [|discriminate].
  destruct (solve_linear_comparison _ _ _) as [[results|]|]; cbn [bind];
    try discriminate.
  destruct (mapM _ results) as [inverses|] eqn:Hm; cbn [bind];
    [|discriminate].
  intros [= <-]. apply Forall_forall. intros a Hin. apply in_not_none in Hin.
  destruct (mapM_in _ _ _ Hm _ Hin) as (i & _ & Hi).
  rewrite modulus_value in Hi.
  destruct (get_inverse i 961) as [[d x]|] eqn:Hg;
    cbn [bind] in Hi; [|discriminate].
  injection Hi as ->.
  apply get_inverse_some in Hg; [|reflexivity].
  split; [apply Hg|]. eapply is_inverse_coprime_inv, Hg.
Qed.

Lemma get_key2_range (x y : str) (a b : Z) :
  get_key2 x y a = Ok b -> 0 <= b < 961.
Proof.
  unfold get_key2.
  destruct (bigram_number x) as [X|]; cbn [bind]; [|discriminate].
  destruct (bigram_number y) as [Y|]; cbn [bind]; [|discriminate].
  rewrite modulus_value. cbn [modulo int_number Z.eqb].
  intros [= <-]. apply Z.mod_pos_bound. lia.
Qed.

Lemma sound_search_nil (check_text_correctness : dict char -> frequency -> Z -> bool)
  (string : str) :
  sound_search check_text_correctness string ([], None).
Proof. split; [constructor|exact I]. Qed.

Lemma sound_search_cons (check_text_correctness : dict char -> frequency -> Z -> bool)
  (string : str) (k : key) (tested : list key) (found : option (key * str)) :
  usable_key string k ->
  sound_search check_text_correctness string (tested, found) ->
  sound_search check_text_correctness string (k :: tested, found).
Proof.
  intros Hk [Ht Hf]. cbn [fst snd] in *. split; [now constructor|].
  destruct found as [[k' d]|]; [|exact I].
  destruct Hf as (Hd & Hp & before & ->). repeat split; try assumption.
  now exists (k :: before).
Qed.

Lemma sound_search_app (check_text_correctness : dict char -> frequency -> Z -> bool)
  (string : str) (tested tested' : list key) (found' : option (key * str)) :
  sound_search check_text_correctness string (tested, None) ->
  sound_search check_text_correctness string (tested', found') ->
  sound_search check_text_correctness string (tested ++ tested', found').
Proof.
  intros [Ht _] [Ht' Hf]. cbn [fst snd] in *.
  split; [apply Forall_app; now split|].
  destruct found' as [[k' d]|]; [|exact I].
  destruct Hf as (Hd & Hp & before & ->). repeat split; try assumption.
  exists (tested ++ before). now rewrite app_assoc.
Qed.

Section SearchInvariants.
Variable check_text_correctness : dict char -> frequency -> Z -> bool.
Variable input_is_yes : nat -> str -> bool.
Variable string : str.
Variable check_bw : bool.

Lemma try_solutions_sound (x y : str) (key_1 : list Z) :
  Forall (fun a => 0 <= a < 961 /\ Z.gcd a 961 = 1) key_1 ->
  forall asked,
    match try_solutions check_text_correctness input_is_yes string check_bw
            x y key_1 asked with
    | Ok (sr, _) => sound_search check_text_correctness string sr
    | Raise _ => True
    end.
Proof.
  induction key_1 as [|a key_1 IH]; intros Hinv asked.
  - apply sound_search_nil.
  - inversion Hinv as [|? ? [Ha Hg] Hinv']; subst.
    cbn [try_solutions].
    destruct (get_key2 x y a) as [b|] eqn:Hb; cbn [bind]; [|exact I].
    apply get_key2_range in Hb.
    destruct (decrypt_from_affinity_sub string (a, b)) as [d_text|] eqn:Hd;
      cbn [bind]; [|exact I].
    assert (Hk : usable_key string (a, b)).
    { unfold usable_key. rewrite modulus_value. cbn [fst snd].
      repeat split; try lia. now exists d_text. }
    destruct (get_bigrams_frequency d_text 1 false) as [f_big|] eqn:Hf;
      cbn [bind]; [|exact I].
    destruct (check_text_correctness _ _ _) eqn:Hc.
    + destruct (if check_bw then _ else true).
      * split; cbn [fst snd]; [constructor; [exact Hk|constructor]|].
        split; [assumption|]. split; [|now exists []].
        unfold plausible. now rewrite Hd, Hf.
      * specialize (IH Hinv' (if check_bw then S asked else asked)).
        destruct (try_solutions _ _ _ _ _ _ _ _) as [[[te fo] n]|];
          cbn [bind]; [|exact I].
        now apply sound_search_cons.
    + specialize (IH Hinv' asked).
      destruct (try_solutions _ _ _ _ _ _ _ _) as [[[te fo] n]|];
        cbn [bind]; [|exact I].
      now apply sound_search_cons.
Qed.

Lemma try_adjacent_sound (i : str * str) (f_list : list (str * Z)) :
  forall asked,
    match try_adjacent check_text_correctness input_is_yes string check_bw
            i f_list asked with
    | Ok (sr, _) => sound_search check_text_correctness string sr
    | Raise _ => True
    end.
Proof.
  induction f_list as [|fj f_list IH]; intros asked;
    [apply sound_search_nil|].
  destruct f_list as [|fj1 rest]; [apply sound_search_nil|].
  rewrite try_adjacent_step.
  destruct (get_key1 _ _ _ _) as [[key_1|]|] eqn:H1; cbn [bind];
    [| apply IH | exact I].
  pose proof (try_solutions_sound (fst i) (fst fj) key_1
                (get_key1_residues _ _ _ _ _ H1) asked) as Hs.
  destruct (try_solutions _ _ _ _ _ _ _ _) as [[[te fo] n]|];
    cbn [bind]; [|exact I].
  destruct fo as [r|]; [exact Hs|].
  specialize (IH n).
  destruct (try_adjacent _ _ _ _ _ _ _) as [[[te' fo'] n']|];
    cbn [bind]; [|exact I].
  now apply sound_search_app.
Qed.

Lemma try_permutations_sound (perms : list (str * str))
  (f_list : list (str * Z)) :
  forall asked,
    match try_permutations check_text_correctness input_is_yes string
            check_bw perms f_list asked with
    | Ok (sr, _) => sound_search check_text_correctness string sr
    | Raise _ => True
    end.
Proof.
  induction perms as [|i perms IH]; intros asked; [apply sound_search_nil|].
  cbn [try_permutations].
  pose proof (try_adjacent_sound i f_list asked) as Hs.
  destruct (try_adjacent _ _ _ _ _ _ _) as [[[te fo] n]|];
    cbn [bind]; [|exact I].
  destruct fo as [r|]; [exact Hs|].
  specialize (IH n).
  destruct (try_permutations _ _ _ _ _ _ _) as [[[te' fo'] n']|];
    cbn [bind]; [|exact I].
  now apply sound_search_app.
Qed.

(** A frequency list with fewer than two entries has no adjacent pair. *)
Lemma try_permutations_short (perms : list (str * str))
  (f_list : list (str * Z)) :
  (length f_list <= 1)%nat ->
  forall asked,
    try_permutations check_text_correctness input_is_yes string check_bw
      perms f_list asked
    = Ok (([], None), asked).
Proof.
  intros Hl. induction perms as [|i perms IH]; intros asked; [reflexivity|].
  cbn [try_permutations].
  assert (E : try_adjacent check_text_correctness input_is_yes string
                check_bw i f_list asked = Ok (([], None), asked)).
  { destruct f_list as [|fj [|fj1 rest]]; try reflexivity.
    cbn [length] in Hl. lia. }
  rewrite E. cbn [bind]. now rewrite IH.
Qed.

End SearchInvariants.

(** ** The answers to the prompt *)

Section Prompt.
Variable check_text_correctness : dict char -> frequency -> Z -> bool.
Variable input_is_yes : nat -> str -> bool.
Variable string : str.

Lemma same_search_bind (r r' : res (search * nat))
  (f f' : search * nat -> res (search * nat)) :
  same_search r r' ->
  (forall sr n n', same_search (f (sr, n)) (f' (sr, n'))) ->
  same_search (bind r f) (bind r' f').
Proof.
  destruct r as [[sr n]|e], r' as [[sr' n']|e']; cbn [same_search bind];
    try contradiction.
  - intros -> H. apply H.
  - intros -> _. reflexivity.
Qed.

(** Answering yes to every prompt is running without prompts. *)
Lemma try_solutions_yes (x y : str) (key_1 : list Z) :
  forall asked asked',
    same_search
      (try_solutions check_text_correctness (fun _ _ => true) string true
         x y key_1 asked)
      (try_solutions check_text_correctness input_is_yes string false
         x y key_1 asked').
Proof.
  induction key_1 as [|a key_1 IH]; intros asked asked'; [reflexivity|].
  cbn [try_solutions].
  destruct (get_key2 x y a) as [b|]; cbn [bind]; [|reflexivity].
  destruct (decrypt_from_affinity_sub string (a, b)) as [d_text|];
    cbn [bind]; [|reflexivity].
  destruct (get_bigrams_frequency d_text 1 false) as [f_big|];
    cbn [bind]; [|reflexivity].
  destruct (check_text_correctness _ _ _); [reflexivity|].
  apply same_search_bind; [apply IH|].
  intros [te fo] n n'. reflexivity.
Qed.

Lemma try_adjacent_yes (i : str * str) (f_list : list (str * Z)) :
  forall asked asked',
    same_search
      (try_adjacent check_text_correctness (fun _ _ => true) string true
         i f_list asked)
      (try_adjacent check_text_correctness input_is_yes string false
         i f_list asked').
Proof.
  induction f_list as [|fj f_list IH]; intros asked asked'; [reflexivity|].
  destruct f_list as [|fj1 rest]; [reflexivity|].
  rewrite !try_adjacent_step.
  destruct (get_key1 _ _ _ _) as [[key_1|]|]; cbn [bind];
    [| apply IH | reflexivity].
  apply same_search_bind; [apply try_solutions_yes|].
  intros [te [r|]] n n'; [reflexivity|].
  apply same_search_bind; [apply IH|].
  intros [te' fo'] m m'. reflexivity.
Qed.

Lemma try_permutations_yes (perms : list (str * str))
  (f_list : list (str * Z)) :
  forall asked asked',
    same_search
      (try_permutations check_text_correctness (fun _ _ => true) string true
         perms f_list asked)
      (try_permutations check_text_correctness input_is_yes string false
         perms f_list asked').
Proof.
  induction perms as [|i perms IH]; intros asked asked'; [reflexivity|].
  cbn [try_permutations].
  apply same_search_bind; [apply try_adjacent_yes|].
  intros [te [r|]] n n'; [reflexivity|].
  apply same_search_bind; [apply IH|].
  intros [te' fo'] m m'. reflexivity.
Qed.

(** Answering no to every prompt saves nothing. *)
Lemma try_solutions_no (x y : str) (key_1 : list Z) :
  forall asked,
    match try_solutions check_text_correctness (fun _ _ => false) string true
            x y key_1 asked with
    | Ok ((_, found), _) => found = None
    | Raise _ => True
    end.
Proof.
  induction key_1 as [|a key_1 IH]; intros asked; [reflexivity|].
  cbn [try_solutions].
  destruct (get_key2 x y a) as [b|]; cbn [bind]; [|exact I].
  destruct (decrypt_from_affinity_sub string (a, b)) as [d_text|];
    cbn [bind]; [|exact I].
  destruct (get_bigrams_frequency d_text 1 false) as [f_big|];
    cbn [bind]; [|exact I].
  destruct (check_text_correctness _ _ _).
  - specialize (IH (S asked)).
    destruct (try_solutions _ _ _ _ _ _ _ _) as [[[te fo] n]|];
      cbn [bind]; [exact IH|exact I].
  - specialize (IH asked).
    destruct (try_solutions _ _ _ _ _ _ _ _) as [[[te fo] n]|];
      cbn [bind]; [exact IH|exact I].
Qed.

Lemma try_adjacent_no (i : str * str) (f_list : list (str * Z)) :
  forall asked,
    match try_adjacent check_text_correctness (fun _ _ => false) string true
            i f_list asked with
    | Ok ((_, found), _) => found = None
    | Raise _ => True
    end.
Proof.
  induction f_list as [|fj f_list IH]; intros asked; [reflexivity|].
  destruct f_list as [|fj1 rest]; [reflexivity|].
  rewrite try_adjacent_step.
  destruct (get_key1 _ _ _ _) as [[key_1|]|]; cbn [bind];
    [| apply IH | exact I].
  pose proof (try_solutions_no (fst i) (fst fj) key_1 asked) as Hs.
  destruct (try_solutions _ _ _ _ _ _ _ _) as [[[te fo] n]|];
    cbn [bind]; [|exact I].
  subst fo. specialize (IH n).
  destruct (try_adjacent _ _ _ _ _ _ _) as [[[te' fo'] n']|];
    cbn [bind]; [exact IH|exact I].
Qed.

Lemma try_permutations_no (perms : list (str * str))
  (f_list : list (str * Z)) :
  forall asked,
    match try_permutations check_text_correctness (fun _ _ => false) string
            true perms f_list asked with
    | Ok ((_, found), _) => found = None
    | Raise _ => True
    end.
Proof.
  induction perms as [|i perms IH]; intros asked; [reflexivity|].
  cbn [try_permutations].
  pose proof (try_adjacent_no i f_list asked) as Hs.
  destruct (try_adjacent _ _ _ _ _ _ _) as [[[te fo] n]|];
    cbn [bind]; [|exact I].
  subst fo. specialize (IH n).
  destruct (try_permutations _ _ _ _ _ _ _) as [[[te' fo'] n']|];
    cbn [bind]; [exact IH|exact I].
Qed.

End Prompt.

Lemma frequency_ranking_fold (s : str) :
  get_bigrams_frequency s 1 true
  = Ok (Ranking (sorted_reverse
         (fold_left (fun d k => dict_incr str_eqb k d) (bigrams s) []))).
Proof.
  unfold get_bigrams_frequency.
  rewrite range_step_indices. cbn [bind]. rewrite count_loop_fold.
  reflexivity.
Qed.

Lemma length_bigrams (s : str) : length (bigrams s) = (length s - 1)%nat.
Proof.
  unfold bigrams. rewrite length_map.
  induction s as [|c0 s IH]; [reflexivity|].
  destruct s as [|c1 s]; [reflexivity|].
  change (adjacent_pairs (c0 :: c1 :: s))
    with ((c0, c1) :: adjacent_pairs (c1 :: s)).
  cbn [length] in *. lia.
Qed.

(** The table has at most one entry for each position of the text. *)
Lemma length_ranking (s : str) :
  (length (sorted_reverse
     (fold_left (fun d k => dict_incr str_eqb k d) (bigrams s) []))
   <= length s - 1)%nat.
Proof.
  rewrite (Permutation_length (sorted_reverse_perm _)).
  destruct (fold_incr_spec (bigrams s) []) as (_ & Hk & Hn & _).
  cbv zeta in *. rewrite <- length_bigrams.
  rewrite <- (length_map fst). apply NoDup_incl_length.
  - apply Hn. constructor.
  - intros k Hin. apply Hk in Hin. destruct Hin as [[]|Hin]. exact Hin.
Qed.

Lemma length_slice_to {A : Type} (l : list A) (k : Z) :
  (length (slice_to l k) <= length l)%nat
  /\ (0 <= k -> (length (slice_to l k) <= Z.to_nat k)%nat).
Proof.
  unfold slice_to. destruct (Z.ltb_spec k 0); rewrite length_firstn; lia.
Qed.

(** ** The key search *)

(** X21. With fewer than two frequency entries there is no adjacent pair
    to derive a key from: for [f_size] equal to [0] or [1], and for every
    text of at most two symbols, [gnc_keys] tests no key and saves nothing,
    whatever the text holds. *)
Theorem gnc_keys_nothing_to_pair
  (check_text_correctness : dict char -> frequency -> Z -> bool)
  (input_is_yes : nat -> str -> bool) (string : str) (check_bw : bool)
  (f_size : Z) :
  0 <= f_size <= 1 \/ len string <= 2 ->
  gnc_keys check_text_correctness input_is_yes string check_bw f_size
  = Ok ([], None).
Proof.
  intros H. unfold gnc_keys. rewrite frequency_ranking_fold. cbn [bind].
  rewrite try_permutations_short; [reflexivity|].
  pose proof (length_ranking string) as Hr.
  destruct (length_slice_to
              (sorted_reverse
                 (fold_left (fun d k => dict_incr str_eqb k d)
                    (bigrams string) [])) f_size) as [Hs Hs'].
  unfold len in H. destruct H as [H|H]; [specialize (Hs' (proj1 H))|]; lia.
Qed.

Lemma gnc_keys_nothing_to_pair_witness :
  (0 <= 1 <= 1 \/ len [1072; 1073; 1074; 1075] <= 2)
  /\ gnc_keys (fun _ _ _ => true) (fun _ _ => true) [1072; 1073; 1074; 1075]
       false 1
     = Ok ([], None).
Proof.
  assert (H : 0 <= 1 <= 1 \/ len [1072; 1073; 1074; 1075] <= 2)
    by (left; lia).
  split; [exact H|].
  exact (gnc_keys_nothing_to_pair (fun _ _ _ => true) (fun _ _ => true)
           [1072; 1073; 1074; 1075] false 1 H).
Defined.

(** X22. What the search tests and saves, for every input, every answer
    to the prompts and either setting of [check_bw]: each key submitted to
    [check_text_correctness] is a pair of residues modulo [A^2] with an
    invertible first element under which the text was decrypted without an
    exception; and a key that is saved is the last key tested, its text is
    the decryption of the input under that key, and that text passed the
    test. *)
Theorem gnc_keys_sound
  (check_text_correctness : dict char -> frequency -> Z -> bool)
  (input_is_yes : nat -> str -> bool) (string : str) (check_bw : bool)
  (f_size : Z) (tested : list key) (found : option (key * str)) :
  gnc_keys check_text_correctness input_is_yes string check_bw f_size
  = Ok (tested, found) ->
  Forall (usable_key string) tested
  /\ match found with
     | Some (k, d_text) =>
         decrypt_from_affinity_sub string k = Ok d_text
         /\ plausible check_text_correctness string k = true
         /\ exists before, tested = before ++ [k]
     | None => True
     end.
Proof.
  unfold gnc_keys.
  destruct (get_bigrams_frequency string 1 true) as [[t|items]|];
    cbn [bind]; try discriminate.
  pose proof (try_permutations_sound check_text_correctness input_is_yes
                string check_bw (permutations2 MOST_FREQUENTLY_BIGRAMS)
                (slice_to items f_size) 0%nat) as Hs.
  destruct (try_permutations _ _ _ _ _ _ _) as [[sr n]|];
    cbn [bind]; [|discriminate].
  intros [= ->]. exact Hs.
Qed.

Lemma gnc_keys_sound_witness :
  gnc_keys (fun _ _ _ => true) (fun _ _ => true) [1072; 1073; 1074; 1075]
    true 5
  = Ok ([(721, 169)], Some ((721, 169), [1081; 1082; 1089; 1090]))
  /\ Forall (usable_key [1072; 1073; 1074; 1075]) [(721, 169)]
  /\ decrypt_from_affinity_sub [1072; 1073; 1074; 1075] (721, 169)
     = Ok [1081; 1082; 1089; 1090]
  /\ plausible (fun _ _ _ => true) [1072; 1073; 1074; 1075] (721, 169) = true
  /\ exists before, [(721, 169)] = before ++ [(721, 169)].
Proof.
  assert (H : gnc_keys (fun _ _ _ => true) (fun _ _ => true)
                [1072; 1073; 1074; 1075] true 5
              = Ok ([(721, 169)], Some ((721, 169), [1081; 1082; 1089; 1090])))
    by (vm_compute; reflexivity).
  split; [exact H|].
  exact (gnc_keys_sound (fun _ _ _ => true) (fun _ _ => true)
           [1072; 1073; 1074; 1075] true 5 _ _ H).
Defined.

(** X23. Answering yes to every prompt is the same as running without
    prompts: with [check_bw=True] and the answer ['yes'] each time,
    [gnc_keys] tests the same keys, saves the same key and text, or raises
    the same exception, as with [check_bw=False]. *)
Theorem gnc_keys_always_yes
  (check_text_correctness : dict char -> frequency -> Z -> bool)
  (input_is_yes : nat -> str -> bool) (string : str) (f_size : Z) :
  gnc_keys check_text_correctness (fun _ _ => true) string true f_size
  = gnc_keys check_text_correctness input_is_yes string false f_size.
Proof.
  unfold gnc_keys.
  destruct (get_bigrams_frequency string 1 true) as [[t|items]|];
    cbn [bind]; [reflexivity| |reflexivity].
  pose proof (try_permutations_yes check_text_correctness input_is_yes string
                (permutations2 MOST_FREQUENTLY_BIGRAMS)
                (slice_to items f_size) 0%nat 0%nat) as H.
  destruct (try_permutations _ (fun _ _ => true) _ _ _ _ _) as [[sr n]|e],
    (try_permutations _ input_is_yes _ _ _ _ _) as [[sr' n']|e'];
    cbn [same_search bind] in *; try contradiction; now subst.
Qed.

(** X24. Nothing is saved without consent: with [check_bw=True] and the
    answer to every prompt different from ['yes'], [gnc_keys] goes through
    its candidates and ends without a saved key. *)
Theorem gnc_keys_always_no
  (check_text_correctness : dict char -> frequency -> Z -> bool)
  (string : str) (f_size : Z) (tested : list key)
  (found : option (key * str)) :
  gnc_keys check_text_correctness (fun _ _ => false) string true f_size
  = Ok (tested, found) ->
  found = None.
Proof.
  unfold gnc_keys.
  destruct (get_bigrams_frequency string 1 true) as [[t|items]|];
    cbn [bind]; try discriminate.
  pose proof (try_permutations_no check_text_correctness string
                (permutations2 MOST_FREQUENTLY_BIGRAMS)
                (slice_to items f_size) 0%nat) as Hs.
  destruct (try_permutations _ _ _ _ _ _ _) as [[[te fo] n]|];
    cbn [bind]; [|discriminate].
  intros [= -> ->]. exact Hs.
Qed.

Lemma gnc_keys_always_no_witness :
  gnc_keys (fun _ _ _ => true) (fun _ _ => false) [1072; 1073; 1074; 1075]
    true 2
  = Ok ([(721, 169); (70, 355); (298, 64); (645, 266); (240, 890);
         (826, 622); (745, 764); (891, 704); (330, 622); (590, 857);
         (663, 34); (135, 437); (631, 437); (360, 96); (316, 793);
         (216, 295); (371, 202); (601, 2)], None)
  /\ @None (key * str) = None.
Proof.
  assert (H : gnc_keys (fun _ _ _ => true) (fun _ _ => false)
                [1072; 1073; 1074; 1075] true 2
              = Ok ([(721, 169); (70, 355); (298, 64); (645, 266); (240, 890);
                     (826, 622); (745, 764); (891, 704); (330, 622);
                     (590, 857); (663, 34); (135, 437); (631, 437);
                     (360, 96); (316, 793); (216, 295); (371, 202);
                     (601, 2)], None))
    by (vm_compute; reflexivity).
  split; [exact H|].
  exact (gnc_keys_always_no (fun _ _ _ => true) [1072; 1073; 1074; 1075] 2
           _ _ H).
Defined.

(** ** Integers beyond the range of a float *)

(** Rounding an integer either succeeds or reports the overflow with the
    exception it was given. *)
Lemma round_int_outcome (ovf : exn) (z : Z) :
  (exists x, Float.round_int ovf z = Ok x) \/ Float.round_int ovf z = Raise ovf.
Proof.
  unfold Float.round_int.
  destruct (Z.log2 (Z.abs z) <=? 52); [left; eauto|].
  destruct (Float.round_pos (Z.abs z) 1) as [m e].
  unfold Float.of_mant_exp. destruct (0 <=? e).
  - destruct (2 ^ 1024 <=? m * 2 ^ e); [now right|left; eauto].
  - left. destruct m as [|pm|pm]; [eauto| |eauto].
    destruct (Float.reduce pm (Z.to_nat (- e))) as [m' [|k']]; eauto.
Qed.

(** The mantissa and exponent chosen for an integer of magnitude [2^1024]
    or more stand for a value that is no smaller. *)
Lemma round_pos_large (p : Z) :
  2 ^ 1024 <= p ->
  0 <= snd (Float.round_pos p 1)
  /\ 2 ^ 1024 <= fst (Float.round_pos p 1) * 2 ^ snd (Float.round_pos p 1).
Proof.
  intros Hp.
  assert (Hpos : 0 < p).
  { apply Z.lt_le_trans with (2 ^ 1024); [|assumption].
    apply Z.pow_pos_nonneg; lia. }
  assert (HL : 1024 <= Z.log2 p).
  { rewrite <- (Z.log2_pow2 1024) by lia. now apply Z.log2_le_mono. }
  destruct (Z.log2_spec p Hpos) as [Hlo _].
  unfold Float.round_pos, Float.pow2.
  change (Z.log2 1) with 0. rewrite Z.sub_0_r.
  set (L := Z.log2 p) in *.
  rewrite (Z.max_l L 0), (Z.max_r (- L) 0) by lia.
  change (2 ^ 0) with 1.
  destruct (Z.leb_spec (1 * 2 ^ L) (p * 1)) as [_|Hc]; [|lia].
  rewrite (Z.max_l (L - 52) (-1074)) by lia.
  rewrite (Z.max_r (- (L - 52)) 0), (Z.max_l (L - 52) 0) by lia.
  change (2 ^ 0) with 1. rewrite Z.mul_1_r, Z.mul_1_l.
  set (d := 2 ^ (L - 52)).
  assert (Hd : 0 < d) by (apply Z.pow_pos_nonneg; lia).
  assert (HdL : d * 2 ^ 52 = 2 ^ L).
  { unfold d. rewrite <- Z.pow_add_r by lia. f_equal. lia. }
  assert (Hm : 2 ^ 52 <= p / d).
  { apply Z.div_le_lower_bound; [assumption|]. rewrite HdL. assumption. }
  assert (HB : 2 ^ 1024 <= 2 ^ L) by (apply Z.pow_le_mono_r; lia).
  set (m := p / d) in *. set (r := p mod d).
  assert (Hge : forall m', m <= m' -> 2 ^ 1024 <= m' * d).
  { intros m' Hm'. apply Z.le_trans with (2 ^ L); [assumption|].
    rewrite <- HdL, (Z.mul_comm d).
    apply Z.mul_le_mono_nonneg_r; [lia|].
    apply Z.le_trans with m; assumption. }
  cbn [fst snd]. split; [lia|].
  destruct (2 * r <? d); [apply Hge; lia|].
  destruct (d <? 2 * r); [apply Hge; lia|].
  destruct (Z.even m); apply Hge; lia.
Qed.

Lemma round_int_overflow (ovf : exn) (z : Z) :
  2 ^ 1024 <= Z.abs z -> Float.round_int ovf z = Raise ovf.
Proof.
  intros Hz. unfold Float.round_int.
  assert (HL : 1024 <= Z.log2 (Z.abs z)).
  { rewrite <- (Z.log2_pow2 1024) by lia. now apply Z.log2_le_mono. }
  destruct (Z.leb_spec (Z.log2 (Z.abs z)) 52) as [|_]; [lia|].
  destruct (round_pos_large (Z.abs z) Hz) as [He Hv].
  destruct (Float.round_pos (Z.abs z) 1) as [m e]. cbn [fst snd] in *.
  unfold Float.of_mant_exp.
  destruct (Z.leb_spec 0 e) as [_|]; [|lia].
  destruct (Z.leb_spec (2 ^ 1024) (m * 2 ^ e)) as [_|]; [reflexivity|lia].
Qed.

Lemma quot_div_exact (p q : Z) : q <> 0 -> (q | p) -> Z.quot p q = p / q.
Proof.
  intros Hq [k ->]. rewrite Z.div_mul, Z.quot_mul by assumption. reflexivity.
Qed.

(** X25. Operands beyond the range of a float: in the branch that divides
    by the gcd ([gcd(a, m) <> 1] dividing [b]), when the quotient
    [b / gcd(a, m)] has magnitude [2^1024] or more the [int] division with
    [/] cannot be represented, and [solve_linear_comparison] raises
    [OverflowError] instead of returning the solutions. *)
Theorem solve_linear_comparison_overflow (a b m : Z) :
  0 < m -> Z.gcd a m <> 1 -> (Z.gcd a m | b) ->
  2 ^ 1024 <= Z.abs (b / Z.gcd a m) ->
  solve_linear_comparison a b m = Raise OverflowError.
Proof.
  intros Hm Hg Hdiv Hbig.
  pose proof (gcd_pos a m Hm) as Hd.
  unfold solve_linear_comparison.
  rewrite (get_inverse_not_coprime a m Hm Hg).
  cbn [bind inverse_truthy modulo int_number].
  destruct (Z.eqb_spec (Z.gcd a m) 0) as [|Hnz]; [lia|]. cbn [bind].
  assert (Hr : b mod Z.gcd a m = 0) by (apply Z.mod_divide; assumption).
  rewrite Hr. cbn [Z.eqb].
  unfold Float.int_truediv.
  destruct (Z.eqb_spec (Z.gcd a m) 0) as [|_]; [contradiction|].
  unfold Float.round_rat.
  assert (Ha : Z.rem a (Z.gcd a m) = 0)
    by (apply Z.rem_divide; [assumption|apply Z.gcd_divide_l]).
  assert (Hb : Z.rem b (Z.gcd a m) = 0) by (now apply Z.rem_divide).
  rewrite Ha, Hb. cbn [Z.eqb].
  destruct (round_int_outcome OverflowError (Z.quot a (Z.gcd a m)))
    as [[x ->]| ->]; cbn [bind]; [|reflexivity].
  rewrite (quot_div_exact b _ Hnz Hdiv).
  now rewrite (round_int_overflow OverflowError _ Hbig).
Qed.

Lemma solve_linear_comparison_overflow_witness :
  0 < 4 /\ Z.gcd 2 4 <> 1 /\ (Z.gcd 2 4 | 2 ^ 1025)
  /\ 2 ^ 1024 <= Z.abs (2 ^ 1025 / Z.gcd 2 4)
  /\ solve_linear_comparison 2 (2 ^ 1025) 4 = Raise OverflowError.
Proof.
  assert (H1 : 0 < 4) by lia.
  assert (H2 : Z.gcd 2 4 <> 1) by (vm_compute; discriminate).
  assert (H3 : (Z.gcd 2 4 | 2 ^ 1025)) by (exists (2 ^ 1024); vm_compute; reflexivity).
  assert (H4 : 2 ^ 1024 <= Z.abs (2 ^ 1025 / Z.gcd 2 4))
    by (vm_compute; discriminate).
  split; [exact H1|]. split; [exact H2|]. split; [exact H3|].
  split; [exact H4|].
  exact (solve_linear_comparison_overflow 2 (2 ^ 1025) 4 H1 H2 H3 H4).
Defined.
